(** * NEST clinical-trial data-quality pipeline: DQI scoring and risk ranking

    A shallow embedding of [scripts/compute_dqi.py] and
    [scripts/risk_ranking.py], with the recommendation texts of
    [scripts/generate_summary.py].

    Modelling conventions.
    - A Python/NumPy float is a rational number ([Q]); arithmetic is exact,
      comparisons are those of the rationals, and there is no NaN.  The one
      question that depends on how floats round, the balance of the six
      values stored for a record, is settled on a second embedding of the
      aggregator in which every operation rounds to binary64.
    - A pandas row ([pd.Series] indexed by column name) is a finite map
      [gmap string Q] from column labels to numeric cells; the values of the
      two identifier columns [study_id] and [site_id] are kept beside it.
    - A [pd.DataFrame] is its column index, identifier columns and numeric
      columns apart, together with its rows.
    - A Python [KeyError] is [None] in the option monad.
    - A Python [str] is a string of bytes; a file system is a finite map
      from paths to the tables written there. *)

From Stdlib Require Import QArith Qround Qabs Qminmax Qpower Lqa Lia ZArith.
From stdpp Require Import gmap strings list fin_maps sorting pretty.

Local Open Scope Q_scope.

(** ** Numeric helpers *)

(** [np.rint]: round to the nearest integer, ties to the even neighbour. *)
Definition rint (y : Q) : Z :=
  let f := Qfloor y in
  match Qcompare (y - inject_Z f) (1 # 2) with
  | Lt => f
  | Gt => (f + 1)%Z
  | Eq => if Z.even f then f else (f + 1)%Z
  end.

(** [Series.round(2)], i.e. [np.round(x, 2)] = [rint(x * 100) / 100]. *)
Definition round2 (x : Q) : Q := inject_Z (rint (x * 100)) / 100.

(** ** Sorting

    A stable insertion sort; [leb x y] says that [x] may stand before [y].
    An element is inserted in front of the first element it may precede, so
    elements that compare equal keep their original relative order, as with
    Python's [sorted]. *)
Section stable_sort.
Context {A : Type} (leb : A → A → bool).

Fixpoint insert_sorted (x : A) (l : list A) : list A :=
  match l with
  | [] => [x]
  | y :: l' => if leb x y then x :: y :: l' else y :: insert_sorted x l'
  end.

Definition stable_sort (l : list A) : list A := foldr insert_sorted [] l.
End stable_sort.

(** ** Data model *)

Record Row := mkRow {
  study_id : string;
  site_id : string;
  cells : gmap string Q
}.

(** [id_columns] lists the identifier columns the table has (of [study_id]
    and [site_id]); [columns] lists its numeric columns. *)
Record DataFrame := mkFrame {
  id_columns : list string;
  columns : list string;
  rows : list Row
}.

(** [name in df.columns], for a numeric column. *)
Definition has_column (name : string) (df : DataFrame) : bool :=
  bool_decide (name ∈ columns df).

(** [name in df.columns], for an identifier column. *)
Definition has_id_column (name : string) (df : DataFrame) : bool :=
  bool_decide (name ∈ id_columns df).

(** [df[name]]: the column as a sequence of values, [KeyError] when absent. *)
Definition column (name : string) (df : DataFrame) : option (list Q) :=
  if has_column name df then mapM (λ r, cells r !! name) (rows df) else None.

(** [df.get(name, 0)] read at one row. *)
Definition get_or_zero (name : string) (df : DataFrame) (r : Row) : Q :=
  if has_column name df then default 0 (cells r !! name) else 0.

Definition set_cell (name : string) (v : Q) (r : Row) : Row :=
  mkRow (study_id r) (site_id r) (<[name := v]> (cells r)).

Definition add_columns (names : list string) (cols : list string) : list string :=
  foldl (λ acc n, if bool_decide (n ∈ acc) then acc else acc ++ [n]) cols names.

(** ** compute_dqi.py *)

Definition CLINICAL_THRESHOLDS : gmap string Q :=
  list_to_map
    [ ("missing_pages_pct", 5);
      ("missing_visits_pct", 10);
      ("unresolved_edrr_pct", 8);
      ("uncoded_terms_pct", 7);
      ("pending_sae_pct", 5) ].

Definition normalize_signal_vs_threshold (signal_pct threshold_pct : Q) : Q :=
  if Qle_bool signal_pct threshold_pct then 0
  else
    let excess := signal_pct - threshold_pct in
    let normalized := (excess / threshold_pct) * 100 in
    Qmin normalized 100.

Definition W_pages : Q := 10.
Definition W_visits : Q := 15.
Definition W_edrr : Q := 15.
Definition W_codes : Q := 12.
Definition W_sae : Q := 25.
Definition total_weight : Q := W_pages + W_visits + W_edrr + W_codes + W_sae.

Definition signal_columns : list string :=
  [ "missing_pages_pct"; "missing_visits_pct"; "unresolved_edrr_pct";
    "uncoded_terms_pct"; "pending_sae_pct" ].

Definition penalty_columns : list string :=
  [ "penalty_pages"; "penalty_visits"; "penalty_edrr"; "penalty_codes";
    "penalty_sae" ].

(** The five normalised signals of one row. *)
Definition normalized_signals (r : Row) : option (Q * Q * Q * Q * Q) :=
  x_pages ← cells r !! "missing_pages_pct";
  t_pages ← CLINICAL_THRESHOLDS !! "missing_pages_pct";
  x_visits ← cells r !! "missing_visits_pct";
  t_visits ← CLINICAL_THRESHOLDS !! "missing_visits_pct";
  x_edrr ← cells r !! "unresolved_edrr_pct";
  t_edrr ← CLINICAL_THRESHOLDS !! "unresolved_edrr_pct";
  x_codes ← cells r !! "uncoded_terms_pct";
  t_codes ← CLINICAL_THRESHOLDS !! "uncoded_terms_pct";
  x_sae ← cells r !! "pending_sae_pct";
  t_sae ← CLINICAL_THRESHOLDS !! "pending_sae_pct";
  Some (normalize_signal_vs_threshold x_pages t_pages,
        normalize_signal_vs_threshold x_visits t_visits,
        normalize_signal_vs_threshold x_edrr t_edrr,
        normalize_signal_vs_threshold x_codes t_codes,
        normalize_signal_vs_threshold x_sae t_sae).

(** The body shared, line for line, by [compute_dqi_study_level] and
    [compute_dqi_site_level], read at one row of the frame. *)
Definition compute_dqi_row (r : Row) : option Row :=
  '(pct_pages, pct_visits, pct_edrr, pct_codes, pct_sae) ← normalized_signals r;
  let weighted_penalty :=
    (pct_pages * W_pages + pct_visits * W_visits + pct_edrr * W_edrr
     + pct_codes * W_codes + pct_sae * W_sae) / total_weight in
  let dqi_score := 100 - weighted_penalty in
  let penalty_pages := pct_pages * (W_pages / total_weight) in
  let penalty_visits := pct_visits * (W_visits / total_weight) in
  let penalty_edrr := pct_edrr * (W_edrr / total_weight) in
  let penalty_codes := pct_codes * (W_codes / total_weight) in
  let penalty_sae := pct_sae * (W_sae / total_weight) in
  Some (set_cell "penalty_sae" (round2 penalty_sae)
       (set_cell "penalty_codes" (round2 penalty_codes)
       (set_cell "penalty_edrr" (round2 penalty_edrr)
       (set_cell "penalty_visits" (round2 penalty_visits)
       (set_cell "penalty_pages" (round2 penalty_pages)
       (set_cell "dqi_score" (round2 dqi_score) r)))))).

Definition compute_dqi_study_level (study_signals : DataFrame) : option DataFrame :=
  if forallb (λ c, has_column c study_signals) signal_columns then
    dqi_rows ← mapM compute_dqi_row (rows study_signals);
    Some (mkFrame (id_columns study_signals)
            (add_columns ("dqi_score" :: penalty_columns) (columns study_signals))
            dqi_rows)
  else None.

Definition compute_dqi_site_level (site_signals : DataFrame) : option DataFrame :=
  if forallb (λ c, has_column c site_signals) signal_columns then
    dqi_rows ← mapM compute_dqi_row (rows site_signals);
    Some (mkFrame (id_columns site_signals)
            (add_columns ("dqi_score" :: penalty_columns) (columns site_signals))
            dqi_rows)
  else None.

(** [df[name] = values] *)
Definition assign_column (name : string) (values : list Q) (df : DataFrame) : DataFrame :=
  mkFrame (id_columns df) (add_columns [name] (columns df))
          (zip_with (λ r v, set_cell name v r) (rows df) values).

Definition Qsum (xs : list Q) : Q := foldr Qplus 0 xs.

(** The optional [detect_anomalies] module: an external scorer, opaque to the
    pipeline.  [None] stands for the [ImportError] branch, in which
    [ANOMALY_DETECTION_AVAILABLE] is [False]. *)
Record AnomalyModule := mkAnomalyModule {
  detect_site_anomalies : DataFrame → DataFrame;
  amplify_risk_for_anomalies : DataFrame → DataFrame → DataFrame
}.

Definition ANOMALY_DETECTION_AVAILABLE (anomaly : option AnomalyModule) : bool :=
  match anomaly with Some _ => true | None => false end.

(** [anomalies_site.groupby('study_id').agg(mean, sum)] read at one study:
    [None] when the study has no site in the anomaly table. *)
Definition anomalies_summary (anomalies_site : DataFrame) (sid : string)
  : option (option (Q * Q)) :=
  let grp := List.filter (λ r, bool_decide (study_id r = sid)) (rows anomalies_site) in
  match grp with
  | [] => Some None
  | _ =>
    scores ← mapM (λ r, cells r !! "anomaly_score") grp;
    flags ← mapM (λ r, cells r !! "is_anomalous") grp;
    Some (Some (Qsum scores / inject_Z (Z.of_nat (length grp)), Qsum flags))
  end.

(** [study_dqi.merge(anomalies_summary, on='study_id', how='left')] followed
    by the two [fillna(0)], at one row. *)
Definition merge_anomaly_summary (anomalies_site : DataFrame) (r : Row) : option Row :=
  s ← anomalies_summary anomalies_site (study_id r);
  match s with
  | Some (avg, num) =>
      Some (set_cell "num_anomalous_sites" num (set_cell "avg_anomaly_score" avg r))
  | None =>
      Some (set_cell "num_anomalous_sites" 0 (set_cell "avg_anomaly_score" 0 r))
  end.

(** The [__main__] block of compute_dqi.py from the loaded signal tables to
    the two tables handed to [save_dqi_scores]. *)
Definition compute_dqi_main (anomaly : option AnomalyModule)
    (study_signals site_signals : DataFrame) : option (DataFrame * DataFrame) :=
  study_dqi ← compute_dqi_study_level study_signals;
  site_dqi ← compute_dqi_site_level site_signals;
  match anomaly with
  | Some m =>
      let anomalies_site := detect_site_anomalies m site_dqi in
      let site_dqi := amplify_risk_for_anomalies m site_dqi anomalies_site in
      if has_id_column "study_id" anomalies_site
         && has_column "anomaly_score" anomalies_site
         && has_column "is_anomalous" anomalies_site
         && has_id_column "study_id" study_dqi then
        study_rows ← mapM (merge_anomaly_summary anomalies_site) (rows study_dqi);
        Some (mkFrame (id_columns study_dqi)
                (add_columns ["avg_anomaly_score"; "num_anomalous_sites"]
                             (columns study_dqi))
                study_rows,
              site_dqi)
      else None
  | None =>
      base ← column "dqi_score" site_dqi;
      Some (study_dqi, assign_column "dqi_score_amplified" base site_dqi)
  end.

(** ** risk_ranking.py *)

(** [Series.quantile(q)] with pandas' default linear interpolation: the value
    at the fractional position [q * (n - 1)] of the sorted values.  The
    quantile of an empty series is NaN; it is [None] here. *)
Definition quantile (q : Q) (xs : list Q) : option Q :=
  match xs with
  | [] => None
  | _ =>
    let s := stable_sort Qle_bool xs in
    let n := length s in
    let pos := q * inject_Z (Z.of_nat (n - 1)) in
    let lo := Z.to_nat (Qfloor pos) in
    let hi := Nat.min (lo + 1) (n - 1) in
    let gamma := pos - inject_Z (Qfloor pos) in
    Some (nth lo s 0 + (nth hi s 0 - nth lo s 0) * gamma)
  end.

Inductive RiskLevel := HighRisk | MediumRisk | LowRisk.

#[global] Instance RiskLevel_eq_dec : EqDecision RiskLevel.
Proof. solve_decision. Defined.

Definition risk_label (l : RiskLevel) : string :=
  match l with
  | HighRisk => "High Risk"
  | MediumRisk => "Medium Risk"
  | LowRisk => "Low Risk"
  end.

Definition assign_risk (p90 p75 score : Q) : RiskLevel :=
  if Qle_bool score p90 then HighRisk
  else if Qle_bool score p75 then MediumRisk
  else LowRisk.

Definition categorize_risk_with_guardrails (dqi_scores_series : list Q) : list RiskLevel :=
  match quantile (90 # 100) dqi_scores_series, quantile (75 # 100) dqi_scores_series with
  | Some p90, Some p75 => map (assign_risk p90 p75) dqi_scores_series
  | _, _ => map (λ _, LowRisk) dqi_scores_series
  end.

(** The two [signal_cols] dictionaries, in declaration order. *)
Definition signal_cols_penalty : list (string * string) :=
  [ ("penalty_pages", "CRF Pages");
    ("penalty_visits", "Missing Visits");
    ("penalty_edrr", "EDRR Queries");
    ("penalty_codes", "Uncoded Terms");
    ("penalty_sae", "SAE Reviews") ].

Definition signal_cols_pct : list (string * string) :=
  [ ("missing_pages_pct", "CRF Pages");
    ("missing_visits_pct", "Missing Visits");
    ("unresolved_edrr_pct", "EDRR Queries");
    ("uncoded_terms_pct", "Uncoded Terms");
    ("pending_sae_pct", "SAE Reviews") ].

Definition signal_cols (row : gmap string Q) : list (string * string) :=
  if bool_decide (is_Some (row !! "penalty_pages")) then signal_cols_penalty
  else signal_cols_pct.

(** The [penalties] dictionary built by the loop, in insertion order. *)
Definition penalties (row : gmap string Q) : list (string * Q) :=
  map (λ cl : string * string,
         (cl.2, match row !! cl.1 with Some v => v | None => 0 end))
      (signal_cols row).

(** [sorted(penalties.items(), key=lambda x: x[1], reverse=True)] *)
Definition sorted_penalties (row : gmap string Q) : list (string * Q) :=
  stable_sort (λ a b : string * Q, Qle_bool b.2 a.2) (penalties row).

Definition positive (v : Q) : bool := negb (Qle_bool v 0).

(** [l[:n]]: the first [n] elements; a negative [n] counts from the end and
    leaves the last [-n] elements out. *)
Definition slice_to {A : Type} (n : Z) (l : list A) : list A :=
  if (0 <=? n)%Z then take (Z.to_nat n) l
  else take (length l - Z.to_nat (- n)) l.

Definition identify_top_penalty_drivers (row : gmap string Q) (top_n : Z) : list string :=
  map fst (List.filter (λ p : string * Q, positive p.2)
                       (slice_to top_n (sorted_penalties row))).

(** The working frame [ranked]: a row of the input table together with the
    columns the ranking adds to it. *)
Record Ranked := mkRanked {
  source : Row;
  score : Q;                     (* ranked[dqi_column] *)
  risk_level : RiskLevel;
  top_risk_drivers : string;
  risk_driver : string
}.

Definition dqi_column (df : DataFrame) : string :=
  if has_column "dqi_score_amplified" df then "dqi_score_amplified" else "dqi_score".

Definition drivers_text (r : Row) : string :=
  String.concat ", " (identify_top_penalty_drivers (cells r) 2).

(** [risk_level] and [top_risk_drivers] added, [risk_driver] at its default. *)
Definition categorized (df : DataFrame) : option (list Ranked) :=
  scores ← column (dqi_column df) df;
  let levels := categorize_risk_with_guardrails scores in
  Some (zip_with (λ (rs : Row * Q) (lvl : RiskLevel),
                    mkRanked rs.1 rs.2 lvl (drivers_text rs.1) "Rule-based")
                 (zip (rows df) scores) levels).

(** [ranked.sort_values(dqi_column).reset_index(drop=True)] *)
Definition sort_values (ranked : list Ranked) : list Ranked :=
  stable_sort (λ a b, Qle_bool (score a) (score b)) ranked.

(** [range(1, len(ranked) + 1)] attached to the rows. *)
Definition with_rank {A : Type} (ranked : list A) : list (nat * A) :=
  zip (seq 1 (length ranked)) ranked.

Definition total_signal_pct (df : DataFrame) (r : Row) : Q :=
  get_or_zero "missing_pages_pct" df r
  + get_or_zero "missing_visits_pct" df r
  + get_or_zero "unresolved_edrr_pct" df r
  + get_or_zero "uncoded_terms_pct" df r
  + get_or_zero "pending_sae_pct" df r.

Record StudyRank := mkStudyRank {
  sr_rank : nat;
  sr_study_id : string;
  sr_dqi_score : Q;
  sr_risk_level : RiskLevel;
  sr_total_signal_pct : Q;
  sr_top_risk_drivers : string
}.

(** [rank_studies] up to, and not including, the final column selection. *)
Definition rank_studies_frame (study_dqi : DataFrame) : option (list (nat * Ranked)) :=
  ranked ← categorized study_dqi;
  Some (with_rank (sort_values ranked)).

Definition rank_studies (study_dqi : DataFrame) : option (list StudyRank) :=
  ranked ← rank_studies_frame study_dqi;
  if has_id_column "study_id" study_dqi && has_column "dqi_score" study_dqi then
    mapM (λ nr : nat * Ranked,
            dqi ← cells (source nr.2) !! "dqi_score";
            Some (mkStudyRank nr.1 (study_id (source nr.2)) dqi (risk_level nr.2)
                    (total_signal_pct study_dqi (source nr.2))
                    (top_risk_drivers nr.2)))
         ranked
  else None.

(** [ranked.loc[anomalous_high, 'risk_driver'] = 'ML-Detected Anomaly'] *)
Definition mark_anomalous (df : DataFrame) (r : Ranked) : option Ranked :=
  if has_column "is_anomalous" df then
    flag ← cells (source r) !! "is_anomalous";
    if Qeq_bool flag 1 && bool_decide (risk_level r = HighRisk) then
      Some (mkRanked (source r) (score r) (risk_level r) (top_risk_drivers r)
                     "ML-Detected Anomaly")
    else Some r
  else Some r.

(** [groupby('study_id').cumcount()]: for each row, the number of earlier
    rows of the same group. *)
Fixpoint cumcount (seen : gmap string nat) (keys : list string) : list nat :=
  match keys with
  | [] => []
  | k :: keys' =>
      let c := default 0%nat (seen !! k) in
      c :: cumcount (<[k := S c]> seen) keys'
  end.

Record SiteRanked := mkSiteRanked {
  global_rank : nat;
  within_study_rank : nat;
  site : Ranked
}.

(** [rank_sites] up to, and not including, the final column selection;
    [groupby('study_id')] needs the [study_id] column. *)
Definition rank_sites_frame (site_dqi : DataFrame) : option (list SiteRanked) :=
  ranked ← categorized site_dqi;
  ranked ← mapM (mark_anomalous site_dqi) ranked;
  let ranked := sort_values ranked in
  if has_id_column "study_id" site_dqi then
    let within := map S (cumcount ∅ (map (λ r, study_id (source r)) ranked)) in
    Some (zip_with (λ (nr : nat * Ranked) (w : nat), mkSiteRanked nr.1 w nr.2)
                   (with_rank ranked) within)
  else None.

Record SiteRank := mkSiteRank {
  st_study_id : string;
  st_site_id : string;
  st_global_rank : nat;
  st_within_study_rank : nat;
  st_dqi_score : Q;
  st_risk_level : RiskLevel;
  st_risk_driver : string;
  st_total_signal_pct : Q;
  st_top_risk_drivers : string
}.

Definition rank_sites (site_dqi : DataFrame) : option (list SiteRank) :=
  ranked ← rank_sites_frame site_dqi;
  if has_id_column "study_id" site_dqi && has_id_column "site_id" site_dqi
     && has_column "dqi_score" site_dqi then
    mapM (λ s : SiteRanked,
            dqi ← cells (source (site s)) !! "dqi_score";
            Some (mkSiteRank (study_id (source (site s))) (site_id (source (site s)))
                    (global_rank s) (within_study_rank s) dqi
                    (risk_level (site s)) (risk_driver (site s))
                    (total_signal_pct site_dqi (source (site s)))
                    (top_risk_drivers (site s))))
         ranked
  else None.

(** ** Sample data used to exercise the definitions *)

Definition signals_row (sid st : string) (pages visits edrr codes sae : Q) : Row :=
  mkRow sid st
    (list_to_map [ ("missing_pages_pct", pages); ("missing_visits_pct", visits);
                   ("unresolved_edrr_pct", edrr); ("uncoded_terms_pct", codes);
                   ("pending_sae_pct", sae) ]).

Definition sample_signals : DataFrame :=
  mkFrame ["study_id"; "site_id"] signal_columns
    [ signals_row "S1" "A" 0 20 0 0 0;
      signals_row "S2" "B" 6 10 8 7 5;
      signals_row "S1" "C" 1 2 3 4 5;
      signals_row "S2" "D" 50 50 50 50 50 ].

Definition scores_1_to (n : nat) : list Q := map (λ k, inject_Z (Z.of_nat k)) (seq 1 n).

(** ** Quantities the properties are stated with *)

(** [dqi_score] plus the five stored penalties of a DQI record. *)
Definition dqi_balance (r : Row) : option Q :=
  d ← cells r !! "dqi_score";
  p_pages ← cells r !! "penalty_pages";
  p_visits ← cells r !! "penalty_visits";
  p_edrr ← cells r !! "penalty_edrr";
  p_codes ← cells r !! "penalty_codes";
  p_sae ← cells r !! "penalty_sae";
  Some (d + p_pages + p_visits + p_edrr + p_codes + p_sae).

(** Every signal of the row is at or below its clinical threshold. *)
Definition within_thresholds (r : Row) : bool :=
  forallb (λ col, match cells r !! col, CLINICAL_THRESHOLDS !! col with
                  | Some x, Some t => Qle_bool x t
                  | _, _ => false
                  end)
          signal_columns.

(** The driver labels in the order the [signal_cols] dictionary declares
    them, and the position of a label in that order. *)
Definition driver_labels : list string :=
  [ "CRF Pages"; "Missing Visits"; "EDRR Queries"; "Uncoded Terms"; "SAE Reviews" ].

Fixpoint index_of (label : string) (labels : list string) : nat :=
  match labels with
  | [] => 0
  | l :: labels' => if bool_decide (l = label) then 0 else S (index_of label labels')
  end.

Definition declared_order (label : string) : nat := index_of label driver_labels.

(** [penalties[label]], the value the attributor ranks a label by. *)
Definition penalty_of (row : gmap string Q) (label : string) : Q :=
  default 0 ((list_to_map (penalties row) : gmap string Q) !! label).

(** [a] is listed before [b]: larger penalty first, declaration order on ties. *)
Definition driver_before (row : gmap string Q) (a b : string) : Prop :=
  penalty_of row b < penalty_of row a
  ∨ (penalty_of row a == penalty_of row b ∧ (declared_order a < declared_order b)%nat).

(** The tier the categorizer gives a score [s] inside the batch [batch]. *)
Definition risk_in_batch (batch : list Q) (s : Q) : RiskLevel :=
  match quantile (90 # 100) batch, quantile (75 # 100) batch with
  | Some p90, Some p75 => assign_risk p90 p75 s
  | _, _ => LowRisk
  end.

(** The ranked sites of one study, in ranking order. *)
Definition study_group (sid : string) (sites : list SiteRanked) : list SiteRanked :=
  List.filter (λ s, bool_decide (study_id (source (site s)) = sid)) sites.

(** How many rows carry a given tier. *)
Definition count_risk (lvl : RiskLevel) (levels : list RiskLevel) : nat :=
  length (List.filter (λ l, bool_decide (l = lvl)) levels).

(** The ranked row [x] is scored by column [c]: its score is its cell in
    that column, and its tier is the categorizer's for that score within the
    batch [scores] of the column. *)
Definition scored_by (c : string) (scores : list Q) (x : Ranked) : Prop :=
  cells (source x) !! c = Some (score x)
  ∧ risk_level x = risk_in_batch scores (score x).

(** The site table after sorting: global ranks from [start], within-study
    ranks counted on top of [seen]. *)
Definition attach_ranks (start : nat) (seen : gmap string nat) (ranked : list Ranked)
  : list SiteRanked :=
  zip_with (λ (nr : nat * Ranked) (w : nat), mkSiteRanked nr.1 w nr.2)
           (zip (seq start (length ranked)) ranked)
           (map S (cumcount seen (map (λ r, study_id (source r)) ranked))).

(** The number of sites flagged by the anomaly detector, read the way
    [rank_sites] reads the flag: [is_anomalous == 1] when the column exists. *)
Definition anomalous_count (df : DataFrame) : nat :=
  if has_column "is_anomalous" df then
    length (List.filter (λ r, match cells r !! "is_anomalous" with
                              | Some flag => Qeq_bool flag 1
                              | None => false
                              end) (rows df))
  else 0%nat.

(** Two ranked rows that agree on everything but the [dqi_score_amplified]
    cell of their source row. *)
Definition same_but_amplified (x' x : Ranked) : Prop :=
  score x' = score x ∧ risk_level x' = risk_level x
  ∧ top_risk_drivers x' = top_risk_drivers x ∧ risk_driver x' = risk_driver x
  ∧ study_id (source x') = study_id (source x)
  ∧ site_id (source x') = site_id (source x)
  ∧ ∀ c, c ≠ "dqi_score_amplified" → cells (source x') !! c = cells (source x) !! c.

(** The scored sample table and one of its records. *)
Definition sample_dqi : DataFrame :=
  default (mkFrame [] [] []) (compute_dqi_study_level sample_signals).

Definition sample_record (df : DataFrame) (i : nat) : Row :=
  default (mkRow "" "" ∅) (rows df !! i).

(** The tables written by the degraded run of compute_dqi.py on the sample. *)
Definition sample_main : DataFrame * DataFrame :=
  default (mkFrame [] [] [], mkFrame [] [] [])
          (compute_dqi_main None sample_signals sample_signals).

Definition sample_studies : list (nat * Ranked) :=
  default [] (rank_studies_frame sample_main.1).

Definition sample_sites : list SiteRanked :=
  default [] (rank_sites_frame sample_main.2).

(** Syntactic equality of fractions is decidable; scores are compared as
    numbers after reduction to lowest terms ([Qred]). *)
#[global] Instance Q_eq_dec : EqDecision Q.
Proof. solve_decision. Defined.

(** Every signal of row [a] is at most the same signal of row [b]. *)
Definition signals_le (a b : Row) : bool :=
  forallb (λ col, match cells a !! col, cells b !! col with
                  | Some x, Some y => Qle_bool x y
                  | _, _ => false
                  end)
          signal_columns.

(** The penalty columns with the weight each one is scaled by. *)
Definition penalty_weights : list (string * Q) :=
  [ ("penalty_pages", W_pages); ("penalty_visits", W_visits);
    ("penalty_edrr", W_edrr); ("penalty_codes", W_codes); ("penalty_sae", W_sae) ].

(** The sample site table with the detector's flag set on sites C and D. *)
Definition sample_flagged : DataFrame :=
  assign_column "is_anomalous" [0; 0; 1; 1] sample_main.2.

(** A table as pandas holds it: every row has a cell in every column. *)
Definition rectangular (df : DataFrame) : Prop :=
  Forall (λ r, Forall (λ c, is_Some (cells r !! c)) (columns df)) (rows df).

(** ** Text

    A Python [str] is a string of bytes; the scripts only build and test
    ASCII text, and [lower] acts on the ASCII letters. *)

(** [needle in hay] *)
Fixpoint substring_in (needle hay : string) : bool :=
  String.prefix needle hay
  || match hay with
     | EmptyString => false
     | String _ hay' => substring_in needle hay'
     end.

Definition lower_ascii (c : Ascii.ascii) : Ascii.ascii :=
  let n := Ascii.nat_of_ascii c in
  if (65 <=? n)%nat && (n <=? 90)%nat then Ascii.ascii_of_nat (n + 32) else c.

(** [s.lower()] *)
Fixpoint lower (s : string) : string :=
  match s with
  | EmptyString => EmptyString
  | String c s' => String (lower_ascii c) (lower s')
  end.

(** [s.startswith(p)] and [s.endswith(p)] *)
Definition startswith (s p : string) : bool := String.prefix p s.

Definition endswith (s p : string) : bool := String.prefix (String.rev p) (String.rev s).

(** [s.replace(old, new)]: the occurrences of [old] are replaced from left
    to right, without overlap; [skip] counts the characters of a replaced
    occurrence still to be passed over.  With an empty [old], [new] is put
    before every character and at the end. *)
Fixpoint replace_from (old new : string) (skip : nat) (s : string) : string :=
  match s with
  | EmptyString => EmptyString
  | String c s' =>
      match skip with
      | S k => replace_from old new k s'
      | O =>
          if String.prefix old s
          then String.append new (replace_from old new (String.length old - 1) s')
          else String c (replace_from old new 0 s')
      end
  end.

Fixpoint interleave (new s : string) : string :=
  match s with
  | EmptyString => new
  | String c s' => String.append new (String c (interleave new s'))
  end.

Definition replace (s old new : string) : string :=
  match old with
  | EmptyString => interleave new s
  | _ => replace_from old new 0 s
  end.

(** [os.path.dirname] of [posixpath]: what stands before the last slash,
    without its trailing slashes unless it consists of slashes only. *)
Definition is_sep (c : Ascii.ascii) : bool := bool_decide (c = Ascii.ascii_of_nat 47).

Fixpoint drop_while {A : Type} (f : A → bool) (l : list A) : list A :=
  match l with
  | [] => []
  | x :: l' => if f x then drop_while f l' else l
  end.

Definition dirname (p : string) : string :=
  let chars := String.list_ascii_of_string p in
  let head := rev (drop_while (λ c, negb (is_sep c)) (rev chars)) in
  if forallb is_sep head then String.string_of_list_ascii head
  else String.string_of_list_ascii (rev (drop_while is_sep (rev head))).

(** ** Writing the tables

    The files written so far, by path; [to_csv] stores the table under its
    path, replacing what was there, and is taken to succeed.
    [os.makedirs(d, exist_ok=True)] raises [FileNotFoundError] for the empty
    [d] and is taken to succeed otherwise; an error is [None]. *)
Definition makedirs (d : string) : option unit :=
  if bool_decide (d = EmptyString) then None else Some tt.

Definition save_dqi_scores (files : gmap string DataFrame)
    (study_dqi site_dqi : DataFrame) (output_path : string)
  : option (gmap string DataFrame) :=
  _ ← makedirs (dirname output_path);
  let files := <[output_path := study_dqi]> files in
  let site_path := replace output_path "dqi_scores.csv" "dqi_scores_site_level.csv" in
  Some (<[site_path := site_dqi]> files).

Definition save_risk_rankings (files : gmap string (list StudyRank + list SiteRank))
    (study_ranks : list StudyRank) (site_ranks : list SiteRank) (output_path : string)
  : option (gmap string (list StudyRank + list SiteRank)) :=
  _ ← makedirs (dirname output_path);
  let files := <[output_path := inl study_ranks]> files in
  let site_path :=
    replace output_path "risk_rankings.csv" "risk_rankings_site_level.csv" in
  Some (<[site_path := inr site_ranks]> files).

(** ** generate_summary.py *)

Definition nl : string := String (Ascii.ascii_of_nat 10) EmptyString.

(** [s * n] *)
Fixpoint str_mul (s : string) (n : nat) : string :=
  match n with
  | O => EmptyString
  | S n' => s +:+ str_mul s n'
  end.

(** [int(x)]: truncation towards zero. *)
Definition int_of (x : Q) : Z := if Qle_bool 0 x then Qfloor x else Qceiling x.

(** [f"{x:.Nf}"]: fixed-point notation with [digits] decimals, the exact
    value rounded half to even; a negative [x] keeps its sign even when it
    rounds to zero. *)
Definition format_fixed (digits : nat) (x : Q) : string :=
  let scale := (10 ^ Z.of_nat digits)%Z in
  let n := rint (Qabs x * inject_Z scale) in
  let sign := if Qle_bool 0 x then EmptyString else "-" in
  let whole := pretty (n / scale)%Z in
  match digits with
  | O => sign +:+ whole
  | _ =>
      let frac := pretty (n mod scale)%Z in
      sign +:+ whole +:+ "." +:+ str_mul "0" (digits - String.length frac) +:+ frac
  end.

(** The [actions] list chosen from the risk level. *)
Definition actions (risk_level : string) : list string :=
  if bool_decide (risk_level = "High Risk") then
    [ "• IMMEDIATE: Convene study safety/monitoring committee";
      "• Conduct focused data audit on highest-impact issues";
      "• Assign dedicated CRA resources for remediation";
      "• Create 48-hour corrective action plan";
      "• Escalate to Clinical Trial Team Lead" ]
  else if bool_decide (risk_level = "Medium Risk") then
    [ "• Schedule weekly monitoring calls with site";
      "• Develop corrective action plan (target: 2 weeks)";
      "• Assign CRA to verify remediation";
      "• Review data quality metrics bi-weekly";
      "• Document improvements in study binder" ]
  else
    [ "• Continue routine monitoring";
      "• Verify issue resolution at next site visit";
      "• Monitor for any trend toward higher risk";
      "• Update study status in trial management system" ].

(** The [specific_guidance] text built from the drivers. *)
Definition specific_guidance (risk_drivers : string) : string :=
  let g := EmptyString in
  let g := if substring_in "missing visits" (lower risk_drivers)
           then g +:+ nl +:+ "  → Missing Visit Action: Confirm expected visit schedule with site; verify patient completion status"
           else g in
  let g := if substring_in "edrr" (lower risk_drivers)
           then g +:+ nl +:+ "  → Query Action: Accelerate resolution; prioritize critical data elements"
           else g in
  let g := if substring_in "uncoded" (lower risk_drivers)
           then g +:+ nl +:+ "  → Coding Action: Review coding manual with site; consider coding service support"
           else g in
  let g := if substring_in "sae" (lower risk_drivers)
           then g +:+ nl +:+ "  → SAE Action: Expedite clinical assessment; verify regulatory reporting timeline"
           else g in
  let g := if substring_in "pages" (lower risk_drivers)
           then g +:+ nl +:+ "  → CRF Action: Confirm form submission; address technical/process barriers"
           else g in
  g.

(** The [problem] statement. *)
Definition problem (study_id risk_level risk_drivers : string) : string :=
  let problem := study_id +:+ " is " +:+ lower risk_level in
  if bool_decide (risk_drivers = EmptyString)
  then problem +:+ " — review immediately"
  else problem +:+ " due to " +:+ lower risk_drivers.

Definition generate_study_recommendation (study_id : string) (dqi_score : Q)
    (risk_level risk_drivers : string) (signals_dict : list (string * Q)) : string :=
  let problem := problem study_id risk_level risk_drivers in
  let actions := actions risk_level in
  let specific_guidance := specific_guidance risk_drivers in
  let output :=
    nl +:+ str_mul "=" 80 +:+ nl +:+ "STUDY: " +:+ study_id +:+ nl +:+ str_mul "=" 80 in
  let output :=
    output +:+ nl +:+ nl +:+ "Data Quality Index (DQI): " +:+ format_fixed 2 dqi_score
           +:+ " / 100" in
  let output := output +:+ nl +:+ "Risk Level: " +:+ risk_level in
  let output :=
    output +:+ nl +:+ "Top Risk Drivers: "
           +:+ (if bool_decide (risk_drivers = EmptyString) then "Multiple issues"
                else risk_drivers) in
  let output :=
    output +:+ nl +:+ nl +:+ "Problem Statement:" +:+ nl +:+ "  " +:+ problem +:+ "." in
  let output := output +:+ nl +:+ nl +:+ "Recommended Actions:" in
  let output := foldl (λ output action, output +:+ nl +:+ action) output actions in
  let output :=
    if bool_decide (specific_guidance = EmptyString) then output
    else output +:+ nl +:+ nl +:+ "Specific Guidance:" +:+ specific_guidance in
  let output := output +:+ nl +:+ nl +:+ "Signal Summary:" in
  foldl (λ output (item : string * Q),
           if positive item.2
           then output +:+ nl +:+ "  • " +:+ item.1 +:+ ": " +:+ pretty (int_of item.2)
           else output)
        output signals_dict.

Definition generate_site_recommendation (study_id site_id : string) (dqi_score : Q)
    (risk_level risk_drivers : string) : string :=
  let action :=
    if bool_decide (risk_level = "High Risk") then "URGENT: On-site data audit required"
    else if bool_decide (risk_level = "Medium Risk") then "Schedule enhanced site monitoring"
    else "Routine monitoring" in
  "  " +:+ study_id +:+ " - " +:+ site_id +:+ ": DQI " +:+ format_fixed 1 dqi_score
       +:+ " (" +:+ risk_level +:+ ") | " +:+ action.

(** The guidance line each driver label stands for, in the order the lines
    are written. *)
Definition guidance_lines : list (string * string) :=
  [ ("Missing Visits", nl +:+ "  → Missing Visit Action: Confirm expected visit schedule with site; verify patient completion status");
    ("EDRR Queries", nl +:+ "  → Query Action: Accelerate resolution; prioritize critical data elements");
    ("Uncoded Terms", nl +:+ "  → Coding Action: Review coding manual with site; consider coding service support");
    ("SAE Reviews", nl +:+ "  → SAE Action: Expedite clinical assessment; verify regulatory reporting timeline");
    ("CRF Pages", nl +:+ "  → CRF Action: Confirm form submission; address technical/process barriers") ].

(** The cell of column [c] in row [a] is at most the one in row [b]. *)
Definition column_le (c : string) (a b : Row) : Prop :=
  ∃ x y, cells a !! c = Some x ∧ cells b !! c = Some y ∧ x <= y.

(** The records of one study in the table [rank_sites] returns, in the
    order of that table. *)
Definition study_sites (sid : string) (out : list SiteRank) : list SiteRank :=
  List.filter (λ o, bool_decide (st_study_id o = sid)) out.

(** Both rankings are those of column [c]: the returned rows follow the
    rows of the table in ascending order of their cell in [c], and the tier
    of each row is the categorizer's for that cell within the whole column. *)
Definition ranked_by (c : string) (df : DataFrame) : Prop :=
  (∀ out, rank_studies df = Some out →
     ∃ scores srcs,
       column c df = Some scores ∧ srcs ≡ₚ rows df ∧
       StronglySorted (column_le c) srcs ∧
       Forall2 (λ o r, sr_study_id o = study_id r
                       ∧ ∃ s, cells r !! c = Some s
                              ∧ sr_risk_level o = risk_in_batch scores s)
               out srcs) ∧
  (∀ out, rank_sites df = Some out →
     ∃ scores srcs,
       column c df = Some scores ∧ srcs ≡ₚ rows df ∧
       StronglySorted (column_le c) srcs ∧
       Forall2 (λ o r, st_study_id o = study_id r ∧ st_site_id o = site_id r
                       ∧ ∃ s, cells r !! c = Some s
                              ∧ st_risk_level o = risk_in_batch scores s)
               out srcs).

(** The scored sample table with an amplified score that orders the rows
    differently from [dqi_score]. *)
Definition sample_amplified : DataFrame :=
  assign_column "dqi_score_amplified" [95; 40; 60; 80] sample_dqi.

(** ** compute_dqi.py in double precision

    Whether the six stored values of a record balance depends on how each of
    them was rounded.  For that question the arithmetic of the source is
    made explicit: a float is a binary64 number, and every operation returns
    the binary64 number nearest to the exact result, ties to the even
    significand ([fl]).  Overflow and subnormal numbers do not occur at the
    magnitudes of this computation; the exponent range is left unbounded. *)

(** The binary64 number nearest to [x]: [x] is scaled by the power of two
    that brings its magnitude into [[2^52, 2^53)], rounded to an integer and
    scaled back. *)
Definition fl (x : Q) : Q :=
  if Qeq_bool x 0 then 0
  else
    let a := (Z.log2 (Z.abs (Qnum x)) - Z.log2 (Z.pos (Qden x)))%Z in
    let e := if Qle_bool (2 ^ a) (Qabs x) then (a - 52)%Z else (a - 53)%Z in
    inject_Z (rint (x / 2 ^ e)) * 2 ^ e.

Definition normalize_signal_vs_threshold_double (signal_pct threshold_pct : Q) : Q :=
  if Qle_bool signal_pct threshold_pct then 0
  else
    let excess := fl (signal_pct - threshold_pct) in
    let normalized := fl (fl (excess / threshold_pct) * 100) in
    Qmin normalized 100.

(** [np.round(x, 2)] on a double: multiply, [rint], divide. *)
Definition round2_double (x : Q) : Q := fl (inject_Z (rint (fl (x * 100))) / 100).

Definition normalized_signals_double (r : Row) : option (Q * Q * Q * Q * Q) :=
  x_pages ← cells r !! "missing_pages_pct";
  t_pages ← CLINICAL_THRESHOLDS !! "missing_pages_pct";
  x_visits ← cells r !! "missing_visits_pct";
  t_visits ← CLINICAL_THRESHOLDS !! "missing_visits_pct";
  x_edrr ← cells r !! "unresolved_edrr_pct";
  t_edrr ← CLINICAL_THRESHOLDS !! "unresolved_edrr_pct";
  x_codes ← cells r !! "uncoded_terms_pct";
  t_codes ← CLINICAL_THRESHOLDS !! "uncoded_terms_pct";
  x_sae ← cells r !! "pending_sae_pct";
  t_sae ← CLINICAL_THRESHOLDS !! "pending_sae_pct";
  Some (normalize_signal_vs_threshold_double x_pages t_pages,
        normalize_signal_vs_threshold_double x_visits t_visits,
        normalize_signal_vs_threshold_double x_edrr t_edrr,
        normalize_signal_vs_threshold_double x_codes t_codes,
        normalize_signal_vs_threshold_double x_sae t_sae).

Definition compute_dqi_row_double (r : Row) : option Row :=
  '(pct_pages, pct_visits, pct_edrr, pct_codes, pct_sae) ← normalized_signals_double r;
  let weighted_penalty :=
    fl (fl (fl (fl (fl (fl (pct_pages * W_pages) + fl (pct_visits * W_visits))
                    + fl (pct_edrr * W_edrr))
                + fl (pct_codes * W_codes))
            + fl (pct_sae * W_sae))
        / total_weight) in
  let dqi_score := fl (100 - weighted_penalty) in
  let penalty_pages := fl (pct_pages * fl (W_pages / total_weight)) in
  let penalty_visits := fl (pct_visits * fl (W_visits / total_weight)) in
  let penalty_edrr := fl (pct_edrr * fl (W_edrr / total_weight)) in
  let penalty_codes := fl (pct_codes * fl (W_codes / total_weight)) in
  let penalty_sae := fl (pct_sae * fl (W_sae / total_weight)) in
  Some (set_cell "penalty_sae" (round2_double penalty_sae)
       (set_cell "penalty_codes" (round2_double penalty_codes)
       (set_cell "penalty_edrr" (round2_double penalty_edrr)
       (set_cell "penalty_visits" (round2_double penalty_visits)
       (set_cell "penalty_pages" (round2_double penalty_pages)
       (set_cell "dqi_score" (round2_double dqi_score) r)))))).

Definition compute_dqi_study_level_double (study_signals : DataFrame) : option DataFrame :=
  if forallb (λ c, has_column c study_signals) signal_columns then
    dqi_rows ← mapM compute_dqi_row_double (rows study_signals);
    Some (mkFrame (id_columns study_signals)
            (add_columns ("dqi_score" :: penalty_columns) (columns study_signals))
            dqi_rows)
  else None.

Definition compute_dqi_site_level_double (site_signals : DataFrame) : option DataFrame :=
  if forallb (λ c, has_column c site_signals) signal_columns then
    dqi_rows ← mapM compute_dqi_row_double (rows site_signals);
    Some (mkFrame (id_columns site_signals)
            (add_columns ("dqi_score" :: penalty_columns) (columns site_signals))
            dqi_rows)
  else None.

(** A study whose five penalties each fall half way between two hundredths:
    the doubles read from the decimal numerals below. *)
Definition sample_ties : DataFrame :=
  mkFrame ["study_id"; "site_id"] signal_columns
    [ signals_row "S1" "A" (fl (5005775 # 1000000)) (fl (100077 # 10000)) (fl (877 # 100))
                           (fl (72627625 # 10000000)) (fl (502541 # 100000)) ].

(** The record computed for it in double precision. *)
Definition sample_ties_dqi : DataFrame :=
  default (mkFrame [] [] []) (compute_dqi_study_level_double sample_ties).

(** The unit roundoff of binary64. *)
Definition unit_roundoff : Q := 1 # 9007199254740992.

(* PROPERTIES *)

(** * Rounding *)

Lemma inject_Z_succ (z : Z) : inject_Z (z + 1) == inject_Z z + 1.
Proof. rewrite inject_Z_plus. reflexivity. Qed.

Lemma Qfloor_bounds (y : Q) :
  inject_Z (Qfloor y) <= y ∧ y < inject_Z (Qfloor y) + 1.
Proof.
  split; [apply Qfloor_le |].
  rewrite <- inject_Z_succ. apply Qlt_floor.
Qed.

(** [rint] is within one half of its argument, and lands on an even integer
    whenever the argument is exactly half way. *)
Lemma rint_spec (y : Q) :
  inject_Z (rint y) - y <= 1 # 2 ∧ y - inject_Z (rint y) <= 1 # 2 ∧
  ((inject_Z (rint y) - y == 1 # 2 ∨ y - inject_Z (rint y) == 1 # 2) →
   Z.even (rint y) = true).
Proof.
  unfold rint. destruct (Qfloor_bounds y) as [Hlo Hhi].
  set (f := Qfloor y) in *.
  destruct (Qcompare_spec (y - inject_Z f) (1 # 2)) as [He | Hl | Hg].
  - destruct (Z.even f) eqn:Hev.
    + split; [lra | split; [lra | intros _; exact Hev]].
    + pose proof (inject_Z_succ f) as Hs.
      split; [lra | split; [lra | intros _]].
      rewrite Z.even_add, Hev. reflexivity.
  - split; [lra | split; [lra | intros [H | H]; lra]].
  - pose proof (inject_Z_succ f) as Hs.
    split; [lra | split; [lra | intros [H | H]; lra]].
Qed.

Lemma rint_inject_Z (z : Z) : rint (inject_Z z) = z.
Proof.
  unfold rint. rewrite Qfloor_Z.
  destruct (Qcompare_spec (inject_Z z - inject_Z z) (1 # 2)) as [H | H | H];
    try reflexivity; lra.
Qed.

Lemma rint_proper (x y : Q) : x == y → rint x = rint y.
Proof.
  intros H. unfold rint. rewrite (Qfloor_comp _ _ H).
  assert (Hc : Qcompare (x - inject_Z (Qfloor y)) (1 # 2)
             = Qcompare (y - inject_Z (Qfloor y)) (1 # 2)).
  { apply Qcompare_comp; [rewrite H|]; reflexivity. }
  rewrite Hc. reflexivity.
Qed.

Lemma round2_proper (x y : Q) : x == y → round2 x = round2 y.
Proof.
  intros H. unfold round2. f_equal. f_equal. apply rint_proper. rewrite H. reflexivity.
Qed.

Lemma Zle_of_Qle (a b : Z) : inject_Z a <= inject_Z b → (a <= b)%Z.
Proof. intros H. rewrite Zle_Qle. exact H. Qed.

(** Six numbers that add up to an integer [t]: rounding each of them to the
    nearest integer, ties to even, moves the sum by at most two when [t] is
    even, because the six half-way cases cannot all go the same way. *)
Lemma rint_sum_six (y0 y1 y2 y3 y4 y5 : Q) (t : Z) :
  Z.even t = true →
  y0 + y1 + y2 + y3 + y4 + y5 == inject_Z t →
  (-2 <= rint y0 + rint y1 + rint y2 + rint y3 + rint y4 + rint y5 - t <= 2)%Z.
Proof.
  intros Ht Hsum.
  destruct (rint_spec y0) as (U0 & L0 & E0), (rint_spec y1) as (U1 & L1 & E1),
    (rint_spec y2) as (U2 & L2 & E2), (rint_spec y3) as (U3 & L3 & E3),
    (rint_spec y4) as (U4 & L4 & E4), (rint_spec y5) as (U5 & L5 & E5).
  set (s := (rint y0 + rint y1 + rint y2 + rint y3 + rint y4 + rint y5)%Z).
  assert (Hs : inject_Z s ==
               inject_Z (rint y0) + inject_Z (rint y1) + inject_Z (rint y2)
               + inject_Z (rint y3) + inject_Z (rint y4) + inject_Z (rint y5)).
  { unfold s. rewrite !inject_Z_plus. reflexivity. }
  assert (Hup : (s <= t + 3)%Z).
  { apply Zle_of_Qle. rewrite inject_Z_plus. change (inject_Z 3) with 3. lra. }
  assert (Hdown : (t - 3 <= s)%Z).
  { apply Zle_of_Qle. unfold Z.sub. rewrite inject_Z_plus.
    change (inject_Z (- (3))) with (-3). lra. }
  assert (Hall : (s = t + 3 ∨ s = t - 3)%Z →
                 Z.even (rint y0) = true ∧ Z.even (rint y1) = true ∧
                 Z.even (rint y2) = true ∧ Z.even (rint y3) = true ∧
                 Z.even (rint y4) = true ∧ Z.even (rint y5) = true).
  { intros [He | He].
    - assert (Hq : inject_Z s == inject_Z t + 3).
      { rewrite He, inject_Z_plus. reflexivity. }
      repeat split; [apply E0|apply E1|apply E2|apply E3|apply E4|apply E5];
        left; lra.
    - assert (Hq : inject_Z s == inject_Z t - 3).
      { rewrite He. unfold Z.sub. rewrite inject_Z_plus. reflexivity. }
      repeat split; [apply E0|apply E1|apply E2|apply E3|apply E4|apply E5];
        right; lra. }
  assert (Hodd : (s = t + 3 ∨ s = t - 3)%Z → False).
  { intros He. destruct (Hall He) as (A0 & A1 & A2 & A3 & A4 & A5).
    apply Z.even_spec in A0, A1, A2, A3, A4, A5, Ht.
    destruct A0 as [k0 A0], A1 as [k1 A1], A2 as [k2 A2], A3 as [k3 A3],
      A4 as [k4 A4], A5 as [k5 A5], Ht as [kt Ht].
    unfold s in He. lia. }
  lia.
Qed.

Lemma Qle_of_Zle (a b : Z) : (a <= b)%Z → inject_Z a <= inject_Z b.
Proof. intros H. rewrite <- Zle_Qle. exact H. Qed.

(** Six integers within two of 10000: read as hundredths, their sum is
    within 0.02 of 100. *)
Lemma hundredths_close (r0 r1 r2 r3 r4 r5 : Z) :
  (-2 <= r0 + r1 + r2 + r3 + r4 + r5 - 10000 <= 2)%Z →
  Qabs (inject_Z r0 / 100 + inject_Z r1 / 100 + inject_Z r2 / 100
        + inject_Z r3 / 100 + inject_Z r4 / 100 + inject_Z r5 / 100 - 100)
  <= 2 # 100.
Proof.
  intros [Hlo Hhi].
  assert (Hs : inject_Z (r0 + r1 + r2 + r3 + r4 + r5) ==
               inject_Z r0 + inject_Z r1 + inject_Z r2 + inject_Z r3
               + inject_Z r4 + inject_Z r5).
  { rewrite !inject_Z_plus. reflexivity. }
  assert (H1 : inject_Z 9998 <= inject_Z (r0 + r1 + r2 + r3 + r4 + r5)).
  { apply Qle_of_Zle. lia. }
  assert (H2 : inject_Z (r0 + r1 + r2 + r3 + r4 + r5) <= inject_Z 10002).
  { apply Qle_of_Zle. lia. }
  rewrite Hs in H1, H2.
  generalize dependent (inject_Z r0). generalize dependent (inject_Z r1).
  generalize dependent (inject_Z r2). generalize dependent (inject_Z r3).
  generalize dependent (inject_Z r4). generalize dependent (inject_Z r5).
  intros q5 q4 q3 q2 q1 q0 _ H1 H2.
  apply Qabs_Qle_condition.
  assert (E : ∀ q, q / 100 == q * (1 # 100)) by (intros; reflexivity).
  rewrite !E. 
  change (inject_Z 9998) with 9998 in H1. change (inject_Z 10002) with 10002 in H2.
  split; lra.
Qed.

Lemma weights_sum (n1 n2 n3 n4 n5 : Q) :
  (100 - (n1 * W_pages + n2 * W_visits + n3 * W_edrr
          + n4 * W_codes + n5 * W_sae) / total_weight) * 100
  + n1 * (W_pages / total_weight) * 100 + n2 * (W_visits / total_weight) * 100
  + n3 * (W_edrr / total_weight) * 100 + n4 * (W_codes / total_weight) * 100
  + n5 * (W_sae / total_weight) * 100 == inject_Z 10000.
Proof.
  unfold total_weight, W_pages, W_visits, W_edrr, W_codes, W_sae.
  change (inject_Z 10000) with 10000. field.
Qed.

(** The rounded score and the five rounded contributions add up to 100 up to
    two hundredths, whatever the normalised signals are. *)
Lemma round2_balance (n1 n2 n3 n4 n5 : Q) :
  Qabs (round2 (100 - (n1 * W_pages + n2 * W_visits + n3 * W_edrr
                       + n4 * W_codes + n5 * W_sae) / total_weight)
        + round2 (n1 * (W_pages / total_weight))
        + round2 (n2 * (W_visits / total_weight))
        + round2 (n3 * (W_edrr / total_weight))
        + round2 (n4 * (W_codes / total_weight))
        + round2 (n5 * (W_sae / total_weight)) - 100) <= 2 # 100.
Proof.
  unfold round2. apply hundredths_close.
  apply rint_sum_six; [reflexivity | apply weights_sum].
Qed.

(** * The threshold normaliser *)

Lemma normalize_below (s t : Q) : s <= t → normalize_signal_vs_threshold s t = 0.
Proof.
  intros H. unfold normalize_signal_vs_threshold.
  apply Qle_bool_iff in H. rewrite H. reflexivity.
Qed.

Lemma normalize_above (s t : Q) :
  t < s → normalize_signal_vs_threshold s t = Qmin ((s - t) / t * 100) 100.
Proof.
  intros H. unfold normalize_signal_vs_threshold.
  destruct (Qle_bool s t) eqn:E; [| reflexivity].
  apply Qle_bool_iff in E. lra.
Qed.

Lemma excess_ratio_nonneg (s t : Q) : 0 < t → t < s → 0 <= (s - t) / t * 100.
Proof.
  intros Ht Hs. apply Qmult_le_0_compat; [| lra].
  apply Qle_shift_div_l; [exact Ht | lra].
Qed.

Lemma normalize_range (s t : Q) :
  0 < t → 0 <= normalize_signal_vs_threshold s t ∧ normalize_signal_vs_threshold s t <= 100.
Proof.
  intros Ht. destruct (Qlt_le_dec t s) as [Hs | Hs].
  - rewrite (normalize_above _ _ Hs). split.
    + apply Q.min_glb; [apply excess_ratio_nonneg; assumption | lra].
    + apply Q.le_min_r.
  - rewrite (normalize_below _ _ Hs). split; lra.
Qed.

(** C5: for a positive threshold the normaliser is 0 up to the threshold,
    [min(100, (signal - threshold) / threshold * 100)] above it, always within
    [0, 100], and exactly 100 at twice the threshold. *)
Theorem normalize_signal_vs_threshold_spec (signal_pct threshold_pct : Q) :
  0 < threshold_pct →
  (signal_pct <= threshold_pct →
     normalize_signal_vs_threshold signal_pct threshold_pct = 0) ∧
  (threshold_pct < signal_pct →
     normalize_signal_vs_threshold signal_pct threshold_pct
     == Qmin 100 ((signal_pct - threshold_pct) / threshold_pct * 100)) ∧
  (0 <= normalize_signal_vs_threshold signal_pct threshold_pct ∧
   normalize_signal_vs_threshold signal_pct threshold_pct <= 100) ∧
  (signal_pct == 2 * threshold_pct →
     normalize_signal_vs_threshold signal_pct threshold_pct == 100).
Proof.
  intros Ht. split; [apply normalize_below |].
  split; [intros Hs; rewrite (normalize_above _ _ Hs); apply Q.min_comm |].
  split; [apply normalize_range; exact Ht |].
  intros H2. assert (Hs : threshold_pct < signal_pct) by lra.
  rewrite (normalize_above _ _ Hs).
  assert (E : (signal_pct - threshold_pct) / threshold_pct * 100 == 100).
  { rewrite H2. field. lra. }
  rewrite Q.min_l; [exact E | rewrite E; lra].
Qed.

Lemma normalize_signal_vs_threshold_spec_witness :
  0 < 10 ∧ normalize_signal_vs_threshold 20 10 == 100.
Proof.
  split; [reflexivity |].
  apply (normalize_signal_vs_threshold_spec 20 10); reflexivity.
Defined.

(** * The DQI aggregator *)

Lemma threshold_pages : CLINICAL_THRESHOLDS !! "missing_pages_pct" = Some 5.
Proof. reflexivity. Qed.
Lemma threshold_visits : CLINICAL_THRESHOLDS !! "missing_visits_pct" = Some 10.
Proof. reflexivity. Qed.
Lemma threshold_edrr : CLINICAL_THRESHOLDS !! "unresolved_edrr_pct" = Some 8.
Proof. reflexivity. Qed.
Lemma threshold_codes : CLINICAL_THRESHOLDS !! "uncoded_terms_pct" = Some 7.
Proof. reflexivity. Qed.
Lemma threshold_sae : CLINICAL_THRESHOLDS !! "pending_sae_pct" = Some 5.
Proof. reflexivity. Qed.

(** The normalised signals exist exactly when the five signal cells do. *)
Lemma normalized_signals_Some (r : Row) (ns : Q * Q * Q * Q * Q) :
  normalized_signals r = Some ns ↔
  ∃ x1 x2 x3 x4 x5,
    cells r !! "missing_pages_pct" = Some x1 ∧
    cells r !! "missing_visits_pct" = Some x2 ∧
    cells r !! "unresolved_edrr_pct" = Some x3 ∧
    cells r !! "uncoded_terms_pct" = Some x4 ∧
    cells r !! "pending_sae_pct" = Some x5 ∧
    ns = (normalize_signal_vs_threshold x1 5, normalize_signal_vs_threshold x2 10,
          normalize_signal_vs_threshold x3 8, normalize_signal_vs_threshold x4 7,
          normalize_signal_vs_threshold x5 5).
Proof.
  unfold normalized_signals.
  rewrite threshold_pages, threshold_visits, threshold_edrr, threshold_codes,
    threshold_sae.
  split.
  - intros H.
    destruct (cells r !! "missing_pages_pct") as [x1|]; [| discriminate].
    destruct (cells r !! "missing_visits_pct") as [x2|]; [| discriminate].
    destruct (cells r !! "unresolved_edrr_pct") as [x3|]; [| discriminate].
    destruct (cells r !! "uncoded_terms_pct") as [x4|]; [| discriminate].
    destruct (cells r !! "pending_sae_pct") as [x5|]; [| discriminate].
    simpl in H. injection H as <-. exists x1, x2, x3, x4, x5. auto 10.
  - intros (x1 & x2 & x3 & x4 & x5 & -> & -> & -> & -> & -> & ->). reflexivity.
Qed.

(** What [compute_dqi_row] stores in the six cells it adds. *)
Lemma compute_dqi_row_cells (r r' : Row) :
  compute_dqi_row r = Some r' →
  ∃ n1 n2 n3 n4 n5,
    normalized_signals r = Some (n1, n2, n3, n4, n5) ∧
    cells r' !! "dqi_score" =
      Some (round2 (100 - (n1 * W_pages + n2 * W_visits + n3 * W_edrr
                           + n4 * W_codes + n5 * W_sae) / total_weight)) ∧
    cells r' !! "penalty_pages" = Some (round2 (n1 * (W_pages / total_weight))) ∧
    cells r' !! "penalty_visits" = Some (round2 (n2 * (W_visits / total_weight))) ∧
    cells r' !! "penalty_edrr" = Some (round2 (n3 * (W_edrr / total_weight))) ∧
    cells r' !! "penalty_codes" = Some (round2 (n4 * (W_codes / total_weight))) ∧
    cells r' !! "penalty_sae" = Some (round2 (n5 * (W_sae / total_weight))).
Proof.
  unfold compute_dqi_row. intros H.
  destruct (normalized_signals r) as [[[[[n1 n2] n3] n4] n5]|]; [| discriminate].
  simpl in H. injection H as <-.
  exists n1, n2, n3, n4, n5. split; [reflexivity |].
  unfold set_cell; simpl.
  repeat split; by simplify_map_eq.
Qed.

(** Both aggregators map [compute_dqi_row] over the rows of their input. *)
Lemma compute_dqi_rows (df out : DataFrame) :
  compute_dqi_study_level df = Some out ∨ compute_dqi_site_level df = Some out →
  Forall2 (λ r r', compute_dqi_row r = Some r') (rows df) (rows out).
Proof.
  unfold compute_dqi_study_level, compute_dqi_site_level.
  intros [H | H];
    (destruct (forallb _ _); [| discriminate];
     destruct (mapM compute_dqi_row (rows df)) as [rs|] eqn:E; [| discriminate];
     simpl in H; injection H as <-; simpl; apply mapM_Some; exact E).
Qed.

(** A table that carries the five signal columns in every row is scored. *)
Lemma compute_dqi_study_level_total (df : DataFrame) :
  Forall (λ c, c ∈ columns df) signal_columns →
  Forall (λ r, Forall (λ c, is_Some (cells r !! c)) signal_columns) (rows df) →
  is_Some (compute_dqi_study_level df) ∧ is_Some (compute_dqi_site_level df).
Proof.
  intros Hc Hr.
  assert (Hb : forallb (λ c, has_column c df) signal_columns = true).
  { apply forallb_forall. intros c Hin. unfold has_column.
    apply bool_decide_eq_true. rewrite Forall_forall in Hc. apply Hc.
    apply list_elem_of_In. exact Hin. }
  assert (Hm : is_Some (mapM compute_dqi_row (rows df))).
  { apply mapM_is_Some. eapply Forall_impl; [exact Hr |].
    intros r Hcells. simpl in Hcells. unfold compose, compute_dqi_row.
    assert (Hn : is_Some (normalized_signals r)).
    { unfold signal_columns in Hcells. rewrite !Forall_cons in Hcells.
      destruct Hcells as ([x1 H1] & [x2 H2] & [x3 H3] & [x4 H4] & [x5 H5] & _).
      eexists. apply normalized_signals_Some.
      exists x1, x2, x3, x4, x5. auto 10. }
    destruct Hn as [[[[[n1 n2] n3] n4] n5] Hn]. rewrite Hn. simpl. eauto. }
  destruct Hm as [rs Hm].
  unfold compute_dqi_study_level, compute_dqi_site_level.
  rewrite Hb, Hm. simpl. split; eauto.
Qed.

(** Computed exactly, the rounded score and the five rounded penalties of
    every record add up to 100 within 0.02: the six values are rounded from
    numbers that add up to 100, and their six errors cannot all be half a
    hundredth in the same direction.  The double-precision computation of the
    source does not keep this (see the end of the file). *)
Theorem dqi_score_plus_penalties (df out : DataFrame) (i : nat) (r' : Row) :
  compute_dqi_study_level df = Some out ∨ compute_dqi_site_level df = Some out →
  rows out !! i = Some r' →
  ∃ total, dqi_balance r' = Some total ∧ Qabs (total - 100) <= 2 # 100.
Proof.
  intros Hout Hi.
  destruct (Forall2_lookup_r _ _ _ _ _ (compute_dqi_rows _ _ Hout) Hi)
    as (r & _ & Hrow).
  destruct (compute_dqi_row_cells _ _ Hrow)
    as (n1 & n2 & n3 & n4 & n5 & _ & Hd & H1 & H2 & H3 & H4 & H5).
  unfold dqi_balance. rewrite Hd, H1, H2, H3, H4, H5. simpl.
  eexists. split; [reflexivity | apply round2_balance].
Qed.

Lemma dqi_score_plus_penalties_witness :
  ∃ total, dqi_balance (sample_record sample_dqi 0) = Some total
           ∧ Qabs (total - 100) <= 2 # 100.
Proof.
  apply (dqi_score_plus_penalties sample_signals sample_dqi 0).
  - left. vm_compute. reflexivity.
  - vm_compute. reflexivity.
Defined.

(** C9: a record whose five signals are each at or below their clinical
    threshold is scored exactly 100. *)
Theorem dqi_score_100_within_thresholds (df out : DataFrame) (i : nat) (r r' : Row) :
  compute_dqi_study_level df = Some out ∨ compute_dqi_site_level df = Some out →
  rows df !! i = Some r →
  rows out !! i = Some r' →
  within_thresholds r = true →
  ∃ d, cells r' !! "dqi_score" = Some d ∧ d == 100.
Proof.
  intros Hout Hr Hr' Hw.
  pose proof (Forall2_lookup_lr _ _ _ _ _ _ (compute_dqi_rows _ _ Hout) Hr Hr')
    as Hrow.
  destruct (compute_dqi_row_cells _ _ Hrow)
    as (n1 & n2 & n3 & n4 & n5 & Hn & Hd & _).
  apply normalized_signals_Some in Hn.
  destruct Hn as (x1 & x2 & x3 & x4 & x5 & C1 & C2 & C3 & C4 & C5 & E).
  injection E as -> -> -> -> ->.
  unfold within_thresholds, signal_columns in Hw. simpl in Hw.
  rewrite C1, C2, C3, C4, C5, threshold_pages, threshold_visits, threshold_edrr,
    threshold_codes, threshold_sae in Hw.
  rewrite !andb_true_iff, !Qle_bool_iff in Hw.
  destruct Hw as (L1 & L2 & L3 & L4 & L5 & _).
  rewrite !normalize_below in Hd by assumption.
  eexists. split; [exact Hd |].
  apply Qeq_bool_eq. vm_compute. reflexivity.
Qed.

Lemma dqi_score_100_within_thresholds_witness :
  ∃ d, cells (sample_record sample_dqi 2) !! "dqi_score" = Some d ∧ d == 100.
Proof.
  apply (dqi_score_100_within_thresholds sample_signals sample_dqi 2
           (sample_record sample_signals 2)).
  - left. vm_compute. reflexivity.
  - vm_compute. reflexivity.
  - vm_compute. reflexivity.
  - vm_compute. reflexivity.
Defined.

(** * The stable insertion sort *)

Section stable_sort_facts.
Context {A : Type} (leb : A → A → bool).

Lemma insert_sorted_Permutation (x : A) (l : list A) :
  insert_sorted leb x l ≡ₚ x :: l.
Proof.
  induction l as [| y l IH]; simpl; [reflexivity |].
  destruct (leb x y); [reflexivity |].
  rewrite IH. apply Permutation_swap.
Qed.

Lemma stable_sort_Permutation (l : list A) : stable_sort leb l ≡ₚ l.
Proof.
  induction l as [| x l IH]; simpl; [reflexivity |].
  rewrite insert_sorted_Permutation, IH. reflexivity.
Qed.

Lemma stable_sort_elem_of (x : A) (l : list A) : x ∈ stable_sort leb l ↔ x ∈ l.
Proof. rewrite stable_sort_Permutation. reflexivity. Qed.

Lemma stable_sort_length (l : list A) : length (stable_sort leb l) = length l.
Proof. rewrite stable_sort_Permutation. reflexivity. Qed.

(** Inserting [x] keeps a list ordered by [R] when [R] agrees with the
    comparison between [x] and the elements already there. *)
Lemma insert_sorted_StronglySorted (R : A → A → Prop) (x : A) (l : list A) :
  (∀ y, y ∈ l → leb x y = true → R x y) →
  (∀ y, y ∈ l → leb x y = false → R y x) →
  (∀ y z, y ∈ l → z ∈ l → leb x y = true → R y z → R x z) →
  StronglySorted R l → StronglySorted R (insert_sorted leb x l).
Proof.
  intros H1 H2 H3 Hs.
  induction Hs as [| y l Hs IH Hy]; simpl.
  - repeat constructor.
  - destruct (leb x y) eqn:E.
    + constructor; [constructor; assumption |].
      constructor; [apply H1; [left | exact E] |].
      rewrite Forall_forall in Hy |- *. intros z Hz.
      apply (H3 y z); [left | right; exact Hz | exact E | apply Hy, Hz].
    + constructor.
      * apply IH.
        -- intros z Hz. apply H1. right. exact Hz.
        -- intros z Hz. apply H2. right. exact Hz.
        -- intros z w Hz Hw. apply H3; right; assumption.
      * rewrite Forall_forall in Hy |- *. intros z Hz.
        rewrite insert_sorted_Permutation in Hz.
        apply elem_of_cons in Hz as [-> | Hz]; [apply H2; [left | exact E] |].
        apply Hy, Hz.
Qed.
End stable_sort_facts.

(** Sorting by a key in ascending order yields a list ordered by that key. *)
Lemma stable_sort_ascending {A : Type} (key : A → Q) (l : list A) :
  StronglySorted (λ a b, key a <= key b)
                 (stable_sort (λ a b, Qle_bool (key a) (key b)) l).
Proof.
  induction l as [| x l IH]; simpl; [constructor |].
  apply insert_sorted_StronglySorted; [| | | exact IH].
  - intros y _ E. apply Qle_bool_iff. exact E.
  - intros y _ E. apply Qlt_le_weak, Qnot_le_lt. intros H.
    apply Qle_bool_iff in H. congruence.
  - intros y z _ _ E H. apply Qle_bool_iff in E. lra.
Qed.

(** Sorting by a key in descending order is stable: among equal keys the
    original order, recorded by [idx], is kept. *)
Lemma stable_sort_descending {A : Type} (key : A → Q) (idx : A → nat) (l : list A) :
  StronglySorted (λ a b, (idx a < idx b)%nat) l →
  StronglySorted (λ a b, key b < key a ∨ (key a == key b ∧ (idx a < idx b)%nat))
                 (stable_sort (λ a b, Qle_bool (key b) (key a)) l).
Proof.
  induction 1 as [| x l Hs IH Hx]; simpl; [constructor |].
  rewrite Forall_forall in Hx.
  apply insert_sorted_StronglySorted; [| | | exact IH].
  - intros y Hy E. apply stable_sort_elem_of in Hy. apply Qle_bool_iff in E.
    destruct (Qlt_le_dec (key y) (key x)) as [Hlt | Hle]; [left; exact Hlt |].
    right. split; [lra | apply Hx, Hy].
  - intros y _ E. left. apply Qnot_le_lt. intros H.
    apply Qle_bool_iff in H. congruence.
  - intros y z _ Hz E H. apply stable_sort_elem_of in Hz.
    apply Qle_bool_iff in E.
    destruct (Qlt_le_dec (key z) (key x)) as [Hlt | Hle]; [left; exact Hlt |].
    right. split; [| apply Hx, Hz].
    destruct H as [H | [H _]]; lra.
Qed.

(** * The driver attributor *)

Lemma StronglySorted_take {A : Type} (R : A → A → Prop) (n : nat) (l : list A) :
  StronglySorted R l → StronglySorted R (take n l).
Proof.
  intros H. rewrite <- (take_drop n l) in H.
  apply StronglySorted_app_1_l in H. exact H.
Qed.

Lemma StronglySorted_filter {A : Type} (R : A → A → Prop) (f : A → bool) (l : list A) :
  StronglySorted R l → StronglySorted R (List.filter f l).
Proof.
  induction 1 as [| x l Hs IH Hx]; simpl; [constructor |].
  destruct (f x); [| exact IH].
  constructor; [exact IH |].
  rewrite Forall_forall in Hx |- *. intros y Hy.
  apply list_elem_of_In, filter_In in Hy as [Hy _].
  apply Hx, list_elem_of_In, Hy.
Qed.

Lemma StronglySorted_fmap_elem {A B : Type} (f : A → B)
    (R1 : A → A → Prop) (R2 : B → B → Prop) (l : list A) :
  (∀ x y, x ∈ l → y ∈ l → R1 x y → R2 (f x) (f y)) →
  StronglySorted R1 l → StronglySorted R2 (f <$> l).
Proof.
  intros Hf Hs. induction Hs as [| x l Hs IH Hx]; csimpl; constructor.
  - apply IH. intros y z Hy Hz. apply Hf; right; assumption.
  - rewrite Forall_fmap, Forall_forall. rewrite Forall_forall in Hx.
    intros y Hy. simpl. apply Hf; [left | right; exact Hy | apply Hx, Hy].
Qed.

(** Whichever dictionary is active, the loop fills the five labels in
    declaration order. *)
Lemma penalties_shape (row : gmap string Q) :
  ∃ v1 v2 v3 v4 v5,
    penalties row = [ ("CRF Pages", v1); ("Missing Visits", v2); ("EDRR Queries", v3);
                      ("Uncoded Terms", v4); ("SAE Reviews", v5) ].
Proof.
  unfold penalties, signal_cols.
  destruct (bool_decide _); simpl; eauto 10.
Qed.

Lemma penalty_of_entry (row : gmap string Q) (p : string * Q) :
  p ∈ penalties row → penalty_of row p.1 = p.2.
Proof.
  unfold penalty_of. destruct (penalties_shape row) as (v1 & v2 & v3 & v4 & v5 & ->).
  rewrite !elem_of_cons, elem_of_nil.
  intros [-> | [-> | [-> | [-> | [-> | []]]]]]; reflexivity.
Qed.

Lemma penalties_declared (row : gmap string Q) :
  StronglySorted (λ a b : string * Q, (declared_order a.1 < declared_order b.1)%nat)
                 (penalties row).
Proof.
  destruct (penalties_shape row) as (v1 & v2 & v3 & v4 & v5 & ->).
  repeat (constructor; [| repeat constructor; simpl; vm_compute; lia]).
  constructor.
Qed.

Lemma sorted_penalties_elem_of (row : gmap string Q) (p : string * Q) :
  p ∈ sorted_penalties row ↔ p ∈ penalties row.
Proof. apply stable_sort_elem_of. Qed.

Lemma sorted_penalties_ordered (row : gmap string Q) :
  StronglySorted
    (λ a b : string * Q,
       b.2 < a.2 ∨ (a.2 == b.2 ∧ (declared_order a.1 < declared_order b.1)%nat))
    (sorted_penalties row).
Proof.
  apply (stable_sort_descending (λ p : string * Q, p.2)
           (λ p : string * Q, declared_order p.1)).
  apply penalties_declared.
Qed.

Lemma positive_spec (v : Q) : positive v = true ↔ 0 < v.
Proof.
  unfold positive. rewrite negb_true_iff. split.
  - intros E. apply Qnot_le_lt. intros H. apply Qle_bool_iff in H. congruence.
  - intros H. destruct (Qle_bool v 0) eqn:E; [| reflexivity].
    apply Qle_bool_iff in E. lra.
Qed.

(** The entries the attributor keeps, before their labels are projected. *)
Lemma kept_entries (row : gmap string Q) (top_n : nat) (p : string * Q) :
  p ∈ List.filter (λ p : string * Q, positive p.2) (take top_n (sorted_penalties row)) →
  p ∈ penalties row ∧ 0 < p.2.
Proof.
  intros H. apply list_elem_of_In, filter_In in H as [Hin Hpos].
  apply list_elem_of_In in Hin. apply positive_spec in Hpos. split; [| exact Hpos].
  apply sorted_penalties_elem_of. apply elem_of_take in Hin as (i & Hi & _).
  eapply list_elem_of_lookup_2. exact Hi.
Qed.

(** A slice [l[:n]] is a prefix of [l], whatever the sign of [n]. *)
Lemma slice_to_take {A : Type} (n : Z) (l : list A) : ∃ k, slice_to n l = take k l.
Proof. unfold slice_to. destruct (0 <=? n)%Z; eauto. Qed.

Lemma slice_to_nonneg {A : Type} (n : Z) (l : list A) :
  (0 <= n)%Z → slice_to n l = take (Z.to_nat n) l.
Proof. intros H. unfold slice_to. apply Z.leb_le in H. rewrite H. reflexivity. Qed.

Lemma slice_to_neg {A : Type} (n : Z) (l : list A) :
  (n < 0)%Z → slice_to n l = take (length l - Z.to_nat (- n)) l.
Proof. intros H. unfold slice_to. apply Z.leb_gt in H. rewrite H. reflexivity. Qed.

Lemma driver_entry (row : gmap string Q) (top_n : Z) (label : string) :
  label ∈ identify_top_penalty_drivers row top_n →
  ∃ p : string * Q, p.1 = label ∧ p ∈ penalties row ∧ 0 < p.2.
Proof.
  unfold identify_top_penalty_drivers. intros H.
  destruct (slice_to_take top_n (sorted_penalties row)) as [k Hk]. rewrite Hk in H.
  apply list_elem_of_fmap in H as (p & -> & Hp).
  apply kept_entries in Hp. eauto.
Qed.

Lemma sorted_penalties_length (row : gmap string Q) :
  length (sorted_penalties row) = 5%nat.
Proof.
  unfold sorted_penalties.
  rewrite (stable_sort_length (λ a b : string * Q, Qle_bool b.2 a.2)).
  unfold penalties, signal_cols. rewrite length_map.
  destruct (bool_decide _); reflexivity.
Qed.

(** C6, amended: for a count [top_n >= 0] the attributor returns at most
    [top_n] labels, and for a negative [top_n], which the slice
    [sorted_penalties[:top_n]] reads from the end, at most [5 + top_n]; for
    every [top_n] it returns only labels whose penalty is positive, listed
    by decreasing penalty and, among equal penalties, in the declared order
    pages, visits, edrr, codes, sae. *)
Theorem identify_top_penalty_drivers_spec (row : gmap string Q) (top_n : Z) :
  ((0 <= top_n)%Z →
     (Z.of_nat (length (identify_top_penalty_drivers row top_n)) <= top_n)%Z) ∧
  ((top_n < 0)%Z →
     (Z.of_nat (length (identify_top_penalty_drivers row top_n)) <= Z.max 0 (5 + top_n))%Z) ∧
  (∀ label, label ∈ identify_top_penalty_drivers row top_n → 0 < penalty_of row label) ∧
  StronglySorted (driver_before row) (identify_top_penalty_drivers row top_n).
Proof.
  split; [| split; [| split]].
  - intros Hn. unfold identify_top_penalty_drivers.
    rewrite (slice_to_nonneg _ _ Hn), length_map.
    pose proof (filter_length_le (λ p : string * Q, positive p.2)
                  (take (Z.to_nat top_n) (sorted_penalties row))) as Hle.
    rewrite length_take in Hle. lia.
  - intros Hn. unfold identify_top_penalty_drivers.
    rewrite (slice_to_neg _ _ Hn), length_map, sorted_penalties_length.
    pose proof (filter_length_le (λ p : string * Q, positive p.2)
                  (take (5 - Z.to_nat (- top_n)) (sorted_penalties row))) as Hle.
    rewrite length_take, sorted_penalties_length in Hle. lia.
  - intros label H. apply driver_entry in H as (p & <- & Hin & Hpos).
    rewrite (penalty_of_entry _ _ Hin). exact Hpos.
  - unfold identify_top_penalty_drivers.
    destruct (slice_to_take top_n (sorted_penalties row)) as [k ->].
    apply (StronglySorted_fmap_elem fst
             (λ a b : string * Q,
                b.2 < a.2
                ∨ (a.2 == b.2 ∧ (declared_order a.1 < declared_order b.1)%nat))).
    + intros x y Hx Hy Hxy.
      apply kept_entries in Hx as [Hx _]. apply kept_entries in Hy as [Hy _].
      unfold driver_before.
      rewrite (penalty_of_entry _ _ Hx), (penalty_of_entry _ _ Hy). exact Hxy.
    + apply StronglySorted_filter, StronglySorted_take, sorted_penalties_ordered.
Qed.

Lemma identify_top_penalty_drivers_spec_witness :
  (Z.of_nat (length (identify_top_penalty_drivers (cells (sample_record sample_dqi 3)) 2))
   <= 2)%Z.
Proof.
  apply (proj1 (identify_top_penalty_drivers_spec (cells (sample_record sample_dqi 3)) 2)).
  lia.
Defined.

(** With [top_n = -1] the slice keeps four of the five entries: on a record
    whose five penalties are positive the attributor returns four labels,
    which is more than [top_n]. *)
Lemma identify_top_penalty_drivers_negative :
  identify_top_penalty_drivers (cells (sample_record sample_dqi 3)) (-1)
    = ["SAE Reviews"; "Missing Visits"; "EDRR Queries"; "Uncoded Terms"]
  ∧ ¬ (Z.of_nat (length (identify_top_penalty_drivers
                           (cells (sample_record sample_dqi 3)) (-1))) <= -1)%Z.
Proof.
  assert (E : identify_top_penalty_drivers (cells (sample_record sample_dqi 3)) (-1)
              = ["SAE Reviews"; "Missing Visits"; "EDRR Queries"; "Uncoded Terms"])
    by (vm_compute; reflexivity).
  split; [exact E |]. rewrite E. simpl. lia.
Qed.

Lemma signal_cols_expected (row : gmap string Q) (col label : string) :
  (col, label) ∈ signal_cols row → col ∈ penalty_columns ++ signal_columns.
Proof.
  unfold signal_cols.
  destruct (bool_decide _); unfold signal_cols_penalty, signal_cols_pct;
    rewrite !elem_of_cons, elem_of_nil;
    intros [H | [H | [H | [H | [H | []]]]]]; injection H as -> _;
    apply (bool_decide_unpack _); reflexivity.
Qed.

Lemma absent_column_entry (row : gmap string Q) (col label : string) :
  (col, label) ∈ signal_cols row → row !! col = None → (label, 0) ∈ penalties row.
Proof.
  intros Hin Hnone. unfold penalties.
  apply list_elem_of_fmap. exists (col, label). simpl. rewrite Hnone.
  split; [reflexivity | exact Hin].
Qed.

(** C10: the attributor is defined on every row; a signal whose column is
    absent from the row counts as penalty 0 and is never returned, and a row
    with none of the expected columns yields the empty list. *)
Theorem identify_top_penalty_drivers_partial (row : gmap string Q) (top_n : Z) :
  (∀ col label, (col, label) ∈ signal_cols row → row !! col = None →
     penalty_of row label = 0 ∧ label ∉ identify_top_penalty_drivers row top_n) ∧
  ((∀ col, col ∈ penalty_columns ++ signal_columns → row !! col = None) →
     identify_top_penalty_drivers row top_n = []).
Proof.
  assert (Habsent : ∀ col label, (col, label) ∈ signal_cols row → row !! col = None →
            penalty_of row label = 0 ∧ label ∉ identify_top_penalty_drivers row top_n).
  { intros col label Hin Hnone.
    pose proof (penalty_of_entry _ _ (absent_column_entry _ _ _ Hin Hnone)) as Hzero.
    simpl in Hzero. split; [exact Hzero |].
    intros Hd. apply driver_entry in Hd as (p & <- & Hp & Hpos).
    rewrite (penalty_of_entry _ _ Hp) in Hzero. rewrite Hzero in Hpos.
    revert Hpos. apply Qlt_irrefl. }
  split; [exact Habsent |].
  intros Hnone. apply elem_of_nil_inv. intros label Hd.
  pose proof Hd as Hd'.
  apply driver_entry in Hd' as (p & Hl & Hp & _).
  unfold penalties in Hp. apply list_elem_of_fmap in Hp as ([col label'] & -> & Hin).
  simpl in Hl. subst label'.
  apply (Habsent col label Hin); [| exact Hd].
  apply Hnone. eapply signal_cols_expected. exact Hin.
Qed.

Lemma identify_top_penalty_drivers_partial_witness :
  identify_top_penalty_drivers ∅ 2 = [].
Proof.
  apply (identify_top_penalty_drivers_partial ∅ 2).
  intros col _. apply lookup_empty.
Defined.

(** * Categorization and ranking of a table *)

Lemma categorize_risk_in_batch (scores : list Q) :
  categorize_risk_with_guardrails scores = map (risk_in_batch scores) scores.
Proof.
  unfold categorize_risk_with_guardrails, risk_in_batch.
  destruct (quantile (90 # 100) scores), (quantile (75 # 100) scores); reflexivity.
Qed.

Lemma column_Some (c : string) (df : DataFrame) (scores : list Q) :
  column c df = Some scores ↔
  has_column c df = true ∧ Forall2 (λ r s, cells r !! c = Some s) (rows df) scores.
Proof.
  unfold column. destruct (has_column c df).
  - rewrite mapM_Some. intuition.
  - split; [discriminate | intros [? _]; discriminate].
Qed.

(** The rows of [categorized], one by one. *)
Lemma categorized_spec (df : DataFrame) (ranked : list Ranked) :
  categorized df = Some ranked ↔
  ∃ scores,
    column (dqi_column df) df = Some scores ∧
    ranked = zip_with (λ r s, mkRanked r s (risk_in_batch scores s) (drivers_text r)
                                "Rule-based")
                      (rows df) scores.
Proof.
  unfold categorized.
  destruct (column (dqi_column df) df) as [scores |] eqn:E; simpl.
  - rewrite categorize_risk_in_batch.
    assert (Hz : ∀ (f : Q → RiskLevel) (rs : list Row) (ss : list Q),
               zip_with (λ (x : Row * Q) (lvl : RiskLevel),
                           mkRanked x.1 x.2 lvl (drivers_text x.1) "Rule-based")
                        (zip rs ss) (map f ss)
               = zip_with (λ r s, mkRanked r s (f s) (drivers_text r) "Rule-based") rs ss).
    { intros f rs. induction rs as [| r rs IH]; intros [| s ss]; simpl;
        try reflexivity. f_equal. apply IH. }
    rewrite Hz. split.
    + intros [= <-]. eauto.
    + intros (scores' & [= <-] & ->). reflexivity.
  - split; [discriminate | intros (? & ? & _); discriminate].
Qed.

Lemma categorized_sources (df : DataFrame) (ranked : list Ranked) :
  categorized df = Some ranked → map source ranked = rows df.
Proof.
  intros H. apply categorized_spec in H as (scores & Hc & ->).
  apply column_Some in Hc as [_ Hf]. generalize (risk_in_batch scores). intros f.
  induction Hf as [| r s rs ss _ _ IH]; simpl; [reflexivity |]. f_equal. exact IH.
Qed.

(** Every categorized row carries the chosen column as its score and the
    categorizer's tier for that score. *)
Lemma categorized_Forall (df : DataFrame) (ranked : list Ranked) (scores : list Q) :
  categorized df = Some ranked →
  column (dqi_column df) df = Some scores →
  Forall (λ x, cells (source x) !! dqi_column df = Some (score x)
               ∧ risk_level x = risk_in_batch scores (score x)) ranked.
Proof.
  intros H Hc. apply categorized_spec in H as (scores' & Hc' & ->).
  rewrite Hc in Hc'. injection Hc' as <-.
  apply column_Some in Hc as [_ Hf].
  set (f := risk_in_batch scores). clearbody f.
  induction Hf as [| r s rs ss Hrs _ IH]; simpl; constructor; auto.
Qed.

Lemma mark_anomalous_keeps (df : DataFrame) (r r' : Ranked) :
  mark_anomalous df r = Some r' →
  source r' = source r ∧ score r' = score r ∧ risk_level r' = risk_level r
  ∧ top_risk_drivers r' = top_risk_drivers r.
Proof.
  unfold mark_anomalous. intros H.
  destruct (has_column "is_anomalous" df); [| injection H as <-; auto].
  destruct (cells (source r) !! "is_anomalous") as [flag |]; [| discriminate].
  simpl in H.
  destruct (Qeq_bool flag 1 && bool_decide (risk_level r = HighRisk));
    injection H as <-; auto.
Qed.

Lemma sort_values_Permutation (ranked : list Ranked) : sort_values ranked ≡ₚ ranked.
Proof. apply stable_sort_Permutation. Qed.

Lemma sort_values_ascending (ranked : list Ranked) :
  StronglySorted (λ a b, score a <= score b) (sort_values ranked).
Proof. apply (stable_sort_ascending score). Qed.

Lemma with_rank_fst {A : Type} (l : list A) : map fst (with_rank l) = seq 1 (length l).
Proof. unfold with_rank. apply fst_zip. rewrite length_seq. lia. Qed.

Lemma with_rank_snd {A : Type} (l : list A) : map snd (with_rank l) = l.
Proof. unfold with_rank. apply snd_zip. rewrite length_seq. lia. Qed.

Lemma rank_studies_frame_spec (df : DataFrame) (studies : list (nat * Ranked)) :
  rank_studies_frame df = Some studies ↔
  ∃ ranked, categorized df = Some ranked ∧ studies = with_rank (sort_values ranked).
Proof.
  unfold rank_studies_frame. destruct (categorized df) as [ranked |]; simpl.
  - split; [intros [= <-]; eauto | intros (? & [= <-] & ->); reflexivity].
  - split; [discriminate | intros (? & ? & _); discriminate].
Qed.

Lemma attach_ranks_cons (start : nat) (seen : gmap string nat) (x : Ranked)
    (ranked : list Ranked) :
  attach_ranks start seen (x :: ranked) =
  mkSiteRanked start (S (default 0%nat (seen !! study_id (source x)))) x
  :: attach_ranks (S start)
       (<[study_id (source x) := S (default 0%nat (seen !! study_id (source x)))]> seen)
       ranked.
Proof. reflexivity. Qed.

Lemma attach_ranks_global (start : nat) (seen : gmap string nat) (ranked : list Ranked) :
  map global_rank (attach_ranks start seen ranked) = seq start (length ranked).
Proof.
  revert start seen. induction ranked as [| x ranked IH]; intros start seen;
    [reflexivity |].
  rewrite attach_ranks_cons. simpl. f_equal. apply IH.
Qed.

Lemma attach_ranks_site (start : nat) (seen : gmap string nat) (ranked : list Ranked) :
  map site (attach_ranks start seen ranked) = ranked.
Proof.
  revert start seen. induction ranked as [| x ranked IH]; intros start seen;
    [reflexivity |].
  rewrite attach_ranks_cons. simpl. f_equal. apply IH.
Qed.

(** Within one study the counter runs through consecutive numbers, in the
    order of the ranked table. *)
Lemma attach_ranks_within (sid : string) (start : nat) (seen : gmap string nat)
    (ranked : list Ranked) :
  map within_study_rank (study_group sid (attach_ranks start seen ranked)) =
  seq (S (default 0%nat (seen !! sid)))
      (length (List.filter (λ r, bool_decide (study_id (source r) = sid)) ranked)).
Proof.
  revert start seen. induction ranked as [| x ranked IH]; intros start seen;
    [reflexivity |].
  rewrite attach_ranks_cons. unfold study_group in *. simpl.
  destruct (bool_decide (study_id (source x) = sid)) eqn:E.
  - apply bool_decide_eq_true in E. simpl. rewrite E. f_equal.
    rewrite IH, lookup_insert_eq. reflexivity.
  - apply bool_decide_eq_false in E.
    rewrite IH, lookup_insert_ne by exact E. reflexivity.
Qed.

Lemma rank_sites_frame_spec (df : DataFrame) (sites : list SiteRanked) :
  rank_sites_frame df = Some sites ↔
  has_id_column "study_id" df = true ∧
  ∃ ranked marked,
    categorized df = Some ranked ∧
    mapM (mark_anomalous df) ranked = Some marked ∧
    sites = attach_ranks 1 ∅ (sort_values marked).
Proof.
  unfold rank_sites_frame. split.
  - intros H. destruct (categorized df) as [ranked |]; [| discriminate].
    simpl in H.
    destruct (mapM (mark_anomalous df) ranked) as [marked |] eqn:E; [| discriminate].
    simpl in H.
    destruct (has_id_column "study_id" df); [| discriminate].
    injection H as <-. split; [reflexivity |]. exists ranked, marked. auto.
  - intros (Hid & ranked & marked & -> & Hm & ->). simpl. rewrite Hm. simpl.
    rewrite Hid. reflexivity.
Qed.

Lemma marked_keeps (df : DataFrame) (ranked marked : list Ranked) :
  mapM (mark_anomalous df) ranked = Some marked →
  map source marked = map source ranked ∧
  ∀ P : Ranked → Prop,
    (∀ r r', source r' = source r → score r' = score r →
             risk_level r' = risk_level r → P r → P r') →
    Forall P ranked → Forall P marked.
Proof.
  intros H. apply mapM_Some in H.
  induction H as [| r r' rs rs' Hr _ [IH1 IH2]]; [split; [reflexivity | auto] |].
  apply mark_anomalous_keeps in Hr as (Hs & Hsc & Hl & _).
  split; [simpl; rewrite Hs, IH1; reflexivity |].
  intros P HP HF. apply Forall_cons in HF as [Hr HF].
  constructor; [apply (HP r r'); assumption | apply IH2; assumption].
Qed.

Lemma scored_by_keeps (c : string) (scores : list Q) (r r' : Ranked) :
  source r' = source r → score r' = score r → risk_level r' = risk_level r →
  scored_by c scores r → scored_by c scores r'.
Proof. unfold scored_by. intros -> -> ->. auto. Qed.

(** What holds of the working frame of [rank_studies]. *)
Lemma rank_studies_frame_facts (df : DataFrame) (studies : list (nat * Ranked))
    (scores : list Q) :
  rank_studies_frame df = Some studies →
  column (dqi_column df) df = Some scores →
  map fst studies = seq 1 (length (rows df)) ∧
  StronglySorted (λ a b, score a <= score b) (map snd studies) ∧
  map source (map snd studies) ≡ₚ rows df ∧
  Forall (scored_by (dqi_column df) scores) (map snd studies).
Proof.
  intros H Hc. apply rank_studies_frame_spec in H as (ranked & Hcat & ->).
  rewrite with_rank_fst, with_rank_snd.
  pose proof (categorized_sources _ _ Hcat) as Hsrc.
  split; [| split; [| split]].
  - unfold sort_values. rewrite stable_sort_length, <- Hsrc, length_map. reflexivity.
  - apply sort_values_ascending.
  - rewrite sort_values_Permutation, Hsrc. reflexivity.
  - rewrite sort_values_Permutation. apply (categorized_Forall _ _ _ Hcat Hc).
Qed.

(** What holds of the working frame of [rank_sites]. *)
Lemma rank_sites_frame_facts (df : DataFrame) (sites : list SiteRanked)
    (scores : list Q) :
  rank_sites_frame df = Some sites →
  column (dqi_column df) df = Some scores →
  map global_rank sites = seq 1 (length (rows df)) ∧
  StronglySorted (λ a b, score a <= score b) (map site sites) ∧
  map source (map site sites) ≡ₚ rows df ∧
  Forall (scored_by (dqi_column df) scores) (map site sites).
Proof.
  intros H Hc. apply rank_sites_frame_spec in H as (_ & ranked & marked & Hcat & Hm & ->).
  rewrite attach_ranks_global, attach_ranks_site.
  pose proof (categorized_sources _ _ Hcat) as Hsrc.
  destruct (marked_keeps _ _ _ Hm) as [Hms HmP].
  split; [| split; [| split]].
  - unfold sort_values.
    rewrite stable_sort_length, <- Hsrc, <- Hms, length_map. reflexivity.
  - apply sort_values_ascending.
  - rewrite sort_values_Permutation, Hms, Hsrc. reflexivity.
  - rewrite sort_values_Permutation. apply HmP.
    + intros r r'. apply scored_by_keeps.
    + apply (categorized_Forall _ _ _ Hcat Hc).
Qed.

Lemma frame_needs_column (df : DataFrame) :
  column (dqi_column df) df = None →
  rank_studies_frame df = None ∧ rank_sites_frame df = None.
Proof.
  intros H. unfold rank_studies_frame, rank_sites_frame, categorized.
  rewrite H. split; reflexivity.
Qed.

Lemma rank_studies_projection (df : DataFrame) (out : list StudyRank) :
  rank_studies df = Some out →
  ∃ studies, rank_studies_frame df = Some studies ∧
    Forall2 (λ (nr : nat * Ranked) o,
               sr_rank o = nr.1 ∧ sr_study_id o = study_id (source nr.2)
               ∧ sr_risk_level o = risk_level nr.2)
            studies out.
Proof.
  unfold rank_studies. intros H.
  destruct (rank_studies_frame df) as [studies |]; [| discriminate]. simpl in H.
  destruct (has_id_column "study_id" df && has_column "dqi_score" df);
    [| discriminate].
  exists studies. split; [reflexivity |].
  apply mapM_Some in H. eapply Forall2_impl; [exact H |].
  intros nr o Ho. simpl in Ho.
  destruct (cells (source nr.2) !! "dqi_score"); [| discriminate].
  simpl in Ho. injection Ho as <-. auto.
Qed.

Lemma rank_sites_projection (df : DataFrame) (out : list SiteRank) :
  rank_sites df = Some out →
  ∃ sites, rank_sites_frame df = Some sites ∧
    Forall2 (λ s o,
               st_global_rank o = global_rank s
               ∧ st_within_study_rank o = within_study_rank s
               ∧ st_study_id o = study_id (source (site s))
               ∧ st_risk_level o = risk_level (site s))
            sites out.
Proof.
  unfold rank_sites. intros H.
  destruct (rank_sites_frame df) as [sites |]; [| discriminate]. simpl in H.
  destruct (has_id_column "study_id" df && has_id_column "site_id" df
            && has_column "dqi_score" df); [| discriminate].
  exists sites. split; [reflexivity |].
  apply mapM_Some in H. eapply Forall2_impl; [exact H |].
  intros s o Ho. simpl in Ho.
  destruct (cells (source (site s)) !! "dqi_score"); [| discriminate].
  simpl in Ho. injection Ho as <-. auto.
Qed.

Lemma Forall2_map_eq {A B C : Type} (f : A → C) (g : B → C) (l : list A) (k : list B) :
  Forall2 (λ a b, g b = f a) l k → map g k = map f l.
Proof. induction 1; simpl; [reflexivity | f_equal; assumption]. Qed.

Lemma frame_column (df : DataFrame) :
  is_Some (categorized df) → is_Some (column (dqi_column df) df).
Proof.
  intros [ranked H]. apply categorized_spec in H as (scores & Hc & _). eauto.
Qed.

Lemma study_group_sorted (sid : string) (sites : list SiteRanked) :
  StronglySorted (λ a b, score a <= score b) (map site sites) →
  StronglySorted (λ a b, score (site a) <= score (site b)) (study_group sid sites).
Proof.
  intros H. apply StronglySorted_filter.
  induction sites as [| s sites IH]; [constructor |].
  simpl in H. apply StronglySorted_cons in H as [Hs H].
  constructor; [apply IH, H |].
  rewrite Forall_fmap in Hs. exact Hs.
Qed.

Example sample_sites_ranks :
  map (λ s, (site_id (source (site s)), global_rank s, within_study_rank s)) sample_sites
  = [("D", 1, 1); ("A", 2, 1); ("B", 3, 2); ("C", 4, 2)]%nat.
Proof. vm_compute. reflexivity. Qed.

(** * The degraded run: no anomaly detector *)

Lemma elem_of_add_columns (c : string) (names cols : list string) :
  c ∈ add_columns names cols ↔ c ∈ cols ∨ c ∈ names.
Proof.
  unfold add_columns. revert cols.
  induction names as [| n names IH]; intros cols; simpl.
  - rewrite elem_of_nil. tauto.
  - rewrite IH, elem_of_cons. case_bool_decide as Hn.
    + split; [tauto |]. intros [? | [-> | ?]]; tauto.
    + rewrite elem_of_app, list_elem_of_singleton. tauto.
Qed.

Lemma has_column_assign (c name : string) (vals : list Q) (df : DataFrame) :
  has_column c (assign_column name vals df) = has_column c df || bool_decide (c = name).
Proof.
  unfold has_column, assign_column. cbn [columns].
  apply eq_true_iff_eq.
  rewrite orb_true_iff, !bool_decide_eq_true, elem_of_add_columns,
    list_elem_of_singleton.
  reflexivity.
Qed.

Lemma identify_ignores_amplified (row : gmap string Q) (v : Q) (top_n : Z) :
  identify_top_penalty_drivers (<["dqi_score_amplified" := v]> row) top_n
  = identify_top_penalty_drivers row top_n.
Proof.
  assert (Hsc : signal_cols (<["dqi_score_amplified" := v]> row) = signal_cols row).
  { unfold signal_cols. rewrite lookup_insert_ne by discriminate. reflexivity. }
  assert (Hp : penalties (<["dqi_score_amplified" := v]> row) = penalties row).
  { unfold penalties. rewrite Hsc. apply map_ext_in. intros [col label] Hin.
    apply list_elem_of_In, signal_cols_expected in Hin. simpl.
    rewrite lookup_insert_ne; [reflexivity |].
    intros <-. revert Hin. apply (bool_decide_unpack _). reflexivity. }
  unfold identify_top_penalty_drivers, sorted_penalties. rewrite Hp. reflexivity.
Qed.

Section sort_related.
Context {A B : Type} (R : A → B → Prop) (leb : A → A → bool) (leb' : B → B → bool).
Hypothesis leb_related : ∀ a a' b b', R a a' → R b b' → leb a b = leb' a' b'.

Lemma insert_sorted_Forall2 (x : A) (x' : B) (l : list A) (l' : list B) :
  R x x' → Forall2 R l l' →
  Forall2 R (insert_sorted leb x l) (insert_sorted leb' x' l').
Proof.
  intros Hx Hl. induction Hl as [| y y' l l' Hy Hl IH]; simpl.
  - repeat constructor. exact Hx.
  - rewrite (leb_related _ _ _ _ Hx Hy).
    destruct (leb' x' y'); repeat constructor; assumption.
Qed.

Lemma stable_sort_Forall2 (l : list A) (l' : list B) :
  Forall2 R l l' → Forall2 R (stable_sort leb l) (stable_sort leb' l').
Proof.
  induction 1; simpl; [constructor |]. apply insert_sorted_Forall2; assumption.
Qed.
End sort_related.

Lemma mapM_Forall2_ext {A B C : Type} (f : A → option C) (g : B → option C)
    (l : list A) (k : list B) :
  Forall2 (λ a b, f a = g b) l k → mapM f l = mapM g k.
Proof.
  induction 1 as [| a b l k Hab _ IH]; simpl; [reflexivity |].
  rewrite Hab, IH. reflexivity.
Qed.

Lemma copied_rows (rs : list Row) (ss : list Q) :
  Forall2 (λ r s, cells r !! "dqi_score" = Some s) rs ss →
  Forall2 (λ r' s, cells r' !! "dqi_score_amplified" = Some s
                   ∧ cells r' !! "dqi_score" = Some s)
          (zip_with (λ r v, set_cell "dqi_score_amplified" v r) rs ss) ss.
Proof.
  induction 1 as [| r s rs ss Hr _ IH]; simpl; constructor; [| exact IH].
  unfold set_cell; simpl. split; [apply lookup_insert_eq |].
  rewrite lookup_insert_ne by discriminate. exact Hr.
Qed.

Lemma copied_categorized (f : Q → RiskLevel) (rs : list Row) (ss : list Q) :
  length rs = length ss →
  Forall2 same_but_amplified
    (zip_with (λ r s, mkRanked r s (f s) (drivers_text r) "Rule-based")
              (zip_with (λ r v, set_cell "dqi_score_amplified" v r) rs ss) ss)
    (zip_with (λ r s, mkRanked r s (f s) (drivers_text r) "Rule-based") rs ss).
Proof.
  revert ss. induction rs as [| r rs IH]; intros [| s ss] Hlen; simpl in *;
    try discriminate; constructor; [| apply IH; lia].
  unfold same_but_amplified. simpl. repeat split.
  - unfold drivers_text, set_cell. simpl.
    rewrite identify_ignores_amplified. reflexivity.
  - intros c Hc. apply lookup_insert_ne. congruence.
Qed.

Section degraded.
Variables (base : DataFrame) (vals : list Q).
Hypothesis no_amplified : has_column "dqi_score_amplified" base = false.
Hypothesis base_scores : column "dqi_score" base = Some vals.

Let degraded : DataFrame := assign_column "dqi_score_amplified" vals base.

Lemma degraded_has_column (c : string) :
  c ≠ "dqi_score_amplified" → has_column c degraded = has_column c base.
Proof.
  intros Hc. unfold degraded. rewrite has_column_assign.
  rewrite (bool_decide_eq_false_2 _ Hc). apply orb_false_r.
Qed.

Lemma degraded_dqi_column : dqi_column degraded = "dqi_score_amplified".
Proof.
  unfold dqi_column, degraded. rewrite has_column_assign.
  rewrite orb_true_r. reflexivity.
Qed.

Lemma base_dqi_column : dqi_column base = "dqi_score".
Proof. unfold dqi_column. rewrite no_amplified. reflexivity. Qed.

Lemma base_rows : Forall2 (λ r s, cells r !! "dqi_score" = Some s) (rows base) vals.
Proof. apply column_Some in base_scores as [_ H]. exact H. Qed.

(** The copy holds the base score in every row. *)
Lemma degraded_rows :
  Forall2 (λ r' s, cells r' !! "dqi_score_amplified" = Some s
                   ∧ cells r' !! "dqi_score" = Some s)
          (rows degraded) vals.
Proof.
  unfold degraded, assign_column. cbn [rows]. apply copied_rows, base_rows.
Qed.

Lemma degraded_scores : column "dqi_score_amplified" degraded = Some vals.
Proof.
  apply column_Some. split.
  - unfold degraded. rewrite has_column_assign. apply orb_true_r.
  - eapply Forall2_impl; [apply degraded_rows |]. intros ? ? [? _]. assumption.
Qed.

Lemma degraded_categorized :
  ∃ ranked' ranked,
    categorized degraded = Some ranked' ∧ categorized base = Some ranked
    ∧ Forall2 same_but_amplified ranked' ranked.
Proof.
  eexists _, _. split; [| split].
  - apply categorized_spec. exists vals.
    rewrite degraded_dqi_column. split; [apply degraded_scores | reflexivity].
  - apply categorized_spec. exists vals.
    rewrite base_dqi_column. split; [exact base_scores | reflexivity].
  - unfold degraded, assign_column. cbn [rows].
    apply copied_categorized. eapply Forall2_length, base_rows.
Qed.

Lemma degraded_mark (x' x : Ranked) :
  same_but_amplified x' x →
  option_Forall2 same_but_amplified (mark_anomalous degraded x') (mark_anomalous base x).
Proof.
  intros (Hs & Hl & Ht & Hd & Hst & Hsi & Hc). unfold mark_anomalous.
  rewrite degraded_has_column by discriminate.
  destruct (has_column "is_anomalous" base).
  - rewrite Hc by discriminate.
    destruct (cells (source x) !! "is_anomalous") as [flag |]; simpl;
      [| constructor].
    rewrite Hl.
    destruct (Qeq_bool flag 1 && bool_decide (risk_level x = HighRisk));
      constructor; unfold same_but_amplified; simpl; auto 10.
  - constructor. unfold same_but_amplified. auto 10.
Qed.

Lemma degraded_marked (ranked' ranked : list Ranked) :
  Forall2 same_but_amplified ranked' ranked →
  option_Forall2 (Forall2 same_but_amplified)
    (mapM (mark_anomalous degraded) ranked') (mapM (mark_anomalous base) ranked).
Proof.
  induction 1 as [| x' x l' l Hx _ IH]; simpl; [repeat constructor |].
  destruct (degraded_mark _ _ Hx) as [y' y Hy |]; simpl; [| constructor].
  destruct IH as [m' m Hm |]; simpl; constructor.
  constructor; assumption.
Qed.

Lemma degraded_attach (start : nat) (seen : gmap string nat)
    (ranked' ranked : list Ranked) :
  Forall2 same_but_amplified ranked' ranked →
  Forall2 (λ s' s, global_rank s' = global_rank s
                   ∧ within_study_rank s' = within_study_rank s
                   ∧ same_but_amplified (site s') (site s))
          (attach_ranks start seen ranked') (attach_ranks start seen ranked).
Proof.
  intros H. revert start seen.
  induction H as [| x' x l' l Hx _ IH]; intros start seen; [constructor |].
  rewrite !attach_ranks_cons.
  assert (Hid : study_id (source x') = study_id (source x)) by apply Hx.
  rewrite Hid. constructor; [simpl; auto | apply IH].
Qed.

Lemma degraded_total_signal_pct (r' r : Row) :
  (∀ c, c ≠ "dqi_score_amplified" → cells r' !! c = cells r !! c) →
  total_signal_pct degraded r' = total_signal_pct base r.
Proof.
  intros Hc. unfold total_signal_pct, get_or_zero.
  rewrite !degraded_has_column by discriminate.
  rewrite !Hc by discriminate. reflexivity.
Qed.

(** Ranking the degraded table gives the ranking of the rule-based table. *)
Lemma degraded_rank_sites : rank_sites degraded = rank_sites base.
Proof.
  destruct degraded_categorized as (ranked' & ranked & E' & E & Hsame).
  unfold rank_sites, rank_sites_frame. rewrite E', E. simpl.
  destruct (degraded_marked _ _ Hsame) as [marked' marked Hm |]; simpl;
    [| reflexivity].
  change (has_id_column "study_id" degraded) with (has_id_column "study_id" base).
  change (has_id_column "site_id" degraded) with (has_id_column "site_id" base).
  destruct (has_id_column "study_id" base); [| reflexivity]. simpl.
  destruct (has_id_column "site_id" base); [| reflexivity]. simpl.
  rewrite degraded_has_column by discriminate.
  destruct (has_column "dqi_score" base); [| reflexivity].
  apply mapM_Forall2_ext.
  assert (Hsorted : Forall2 same_but_amplified (sort_values marked') (sort_values marked)).
  { apply (stable_sort_Forall2 same_but_amplified); [| exact Hm].
    intros a a' b b' Ha Hb.
    destruct Ha as (-> & _), Hb as (-> & _). reflexivity. }
  eapply Forall2_impl; [apply (degraded_attach 1 ∅ _ _ Hsorted) |].
  intros s' s (Hg & Hw & Hs & Hl & Ht & Hd & Hst & Hsi & Hc). simpl.
  rewrite (Hc "dqi_score") by discriminate.
  rewrite Hg, Hw, Hl, Ht, Hd, Hst, Hsi, (degraded_total_signal_pct _ _ Hc).
  reflexivity.
Qed.

(** Without an [is_anomalous] column no site is attributed to the detector. *)
Lemma degraded_rule_based (sites : list SiteRanked) :
  has_column "is_anomalous" base = false →
  rank_sites_frame degraded = Some sites →
  Forall (λ s, risk_driver (site s) = "Rule-based") sites.
Proof.
  intros Hno H. apply rank_sites_frame_spec in H as (_ & ranked & marked & Hc & Hm & ->).
  rewrite Forall_forall. intros s Hs.
  apply (list_elem_of_fmap_2 site) in Hs. rewrite attach_ranks_site in Hs.
  rewrite sort_values_Permutation in Hs.
  apply mapM_Some in Hm.
  apply list_elem_of_lookup in Hs as [i Hi].
  destruct (Forall2_lookup_r _ _ _ _ _ Hm Hi) as (x & Hx & Hmark).
  unfold mark_anomalous in Hmark.
  rewrite degraded_has_column, Hno in Hmark by discriminate.
  injection Hmark as <-.
  apply categorized_spec in Hc as (scores & _ & ->).
  apply lookup_zip_with_Some in Hx as (r & v & -> & _). reflexivity.
Qed.
End degraded.

Lemma aggregated_columns (df out : DataFrame) (c : string) :
  compute_dqi_study_level df = Some out ∨ compute_dqi_site_level df = Some out →
  has_column c out = has_column c df || bool_decide (c ∈ "dqi_score" :: penalty_columns).
Proof.
  intros H.
  assert (Hcols : columns out = add_columns ("dqi_score" :: penalty_columns) (columns df)).
  { unfold compute_dqi_study_level, compute_dqi_site_level in H.
    destruct H as [H | H];
      (destruct (forallb _ _); [| discriminate];
       destruct (mapM compute_dqi_row (rows df)); [| discriminate];
       simpl in H; injection H as <-; reflexivity). }
  unfold has_column. rewrite Hcols. apply eq_true_iff_eq.
  rewrite orb_true_iff, !bool_decide_eq_true, elem_of_add_columns. reflexivity.
Qed.

Lemma aggregated_scores (df out : DataFrame) :
  compute_dqi_study_level df = Some out ∨ compute_dqi_site_level df = Some out →
  is_Some (column "dqi_score" out).
Proof.
  intros H. unfold column.
  rewrite (aggregated_columns _ _ _ H), orb_true_r.
  apply mapM_is_Some. rewrite Forall_forall. intros r' Hr'.
  apply list_elem_of_lookup in Hr' as [i Hi].
  destruct (Forall2_lookup_r _ _ _ _ _ (compute_dqi_rows _ _ H) Hi) as (r & _ & Hrow).
  destruct (compute_dqi_row_cells _ _ Hrow) as (? & ? & ? & ? & ? & _ & Hd & _).
  unfold compose. rewrite Hd. eauto.
Qed.

(** * Risk tiers *)

Lemma StronglySorted_nth (s : list Q) (i j : nat) :
  StronglySorted Qle s → (i <= j < length s)%nat → nth i s 0 <= nth j s 0.
Proof.
  intros Hs. revert i j.
  induction Hs as [| x s Hs IH Hx]; intros i j [Hij Hj]; simpl in Hj; [lia |].
  destruct i as [| i], j as [| j]; simpl; try lia.
  - lra.
  - rewrite Forall_forall in Hx. apply Hx.
    apply list_elem_of_In, nth_In. lia.
  - apply IH. lia.
Qed.

Lemma Qfloor_position (q : Q) (m : nat) :
  0 <= q → q <= 1 →
  (0 <= Qfloor (q * inject_Z (Z.of_nat m)) <= Z.of_nat m)%Z.
Proof.
  intros H0 H1.
  assert (Hm : 0 <= inject_Z (Z.of_nat m)).
  { change 0 with (inject_Z 0). rewrite <- Zle_Qle. lia. }
  split.
  - change 0%Z with (Qfloor 0). apply Qfloor_resp_le. nra.
  - rewrite <- (Qfloor_Z (Z.of_nat m)) at 2. apply Qfloor_resp_le. nra.
Qed.

Lemma stable_sort_Qle (xs : list Q) : StronglySorted Qle (stable_sort Qle_bool xs).
Proof. apply (stable_sort_ascending (λ x : Q, x)). Qed.

(** Linear interpolation between neighbours of a sorted list stays inside the
    list's range and moves up with the position. *)
Lemma interpolation_monotone (s : list Q) (q1 q2 : Q) :
  StronglySorted Qle s → s ≠ [] → 0 <= q1 → q1 <= q2 → q2 <= 1 →
  let m := (length s - 1)%nat in
  let value q :=
    let pos := q * inject_Z (Z.of_nat m) in
    let lo := Z.to_nat (Qfloor pos) in
    let hi := Nat.min (lo + 1) m in
    nth lo s 0 + (nth hi s 0 - nth lo s 0) * (pos - inject_Z (Qfloor pos)) in
  nth 0 s 0 <= value q1 ∧ value q1 <= value q2 ∧ value q2 <= nth m s 0.
Proof.
  intros Hs Hne H0 H12 H1 m value. subst value. cbv beta zeta.
  assert (Hlen : (0 < length s)%nat) by (destruct s; simpl; [congruence | lia]).
  assert (Hm : 0 <= inject_Z (Z.of_nat m)).
  { change 0 with (inject_Z 0). rewrite <- Zle_Qle. lia. }
  destruct (Qfloor_position q1 m) as [Hf1 Hf1']; [lra | lra |].
  destruct (Qfloor_position q2 m) as [Hf2 Hf2']; [lra | lra |].
  pose proof (Qfloor_bounds (q1 * inject_Z (Z.of_nat m))) as [Hb1 Hb1'].
  pose proof (Qfloor_bounds (q2 * inject_Z (Z.of_nat m))) as [Hb2 Hb2'].
  assert (Hpos : q1 * inject_Z (Z.of_nat m) <= q2 * inject_Z (Z.of_nat m)) by nra.
  assert (Hf12 : (Qfloor (q1 * inject_Z (Z.of_nat m)) <= Qfloor (q2 * inject_Z (Z.of_nat m)))%Z).
  { apply Qfloor_resp_le. exact Hpos. }
  revert Hf1 Hf1' Hf2 Hf2' Hb1 Hb1' Hb2 Hb2' Hf12 Hpos.
  generalize (q1 * inject_Z (Z.of_nat m)) (q2 * inject_Z (Z.of_nat m)).
  intros p1 p2.
  generalize (Qfloor p1) (Qfloor p2).
  intros f1 f2 Hf1 Hf1' Hf2 Hf2' Hb1 Hb1' Hb2 Hb2' Hf12 Hpos.
  set (lo1 := Z.to_nat f1). set (lo2 := Z.to_nat f2).
  assert (Hlo1 : (lo1 <= m)%nat) by lia.
  assert (Hlo2 : (lo2 <= m)%nat) by lia.
  assert (Hlo12 : (lo1 <= lo2)%nat) by lia.
  pose proof (StronglySorted_nth s 0 lo1 Hs ltac:(lia)) as A0.
  pose proof (StronglySorted_nth s lo1 (Nat.min (lo1 + 1) m) Hs ltac:(lia)) as A1.
  pose proof (StronglySorted_nth s lo2 (Nat.min (lo2 + 1) m) Hs ltac:(lia)) as A2.
  pose proof (StronglySorted_nth s (Nat.min (lo2 + 1) m) m Hs ltac:(lia)) as A3.
  destruct (Z.eq_dec f1 f2) as [E | NE].
  - subst f2. subst lo2. fold lo1 in A2, A3 |- *.
    revert A0 A1 A3.
    generalize (nth 0 s 0) (nth lo1 s 0) (nth (Nat.min (lo1 + 1) m) s 0) (nth m s 0).
    intros x0 xl xh xm A0 A1 A3.
    generalize dependent (inject_Z f1). intros g Hb1 Hb1' Hb2 Hb2'.
    assert (P1 : 0 <= (xh - xl) * (p1 - g)) by (apply Qmult_le_0_compat; lra).
    assert (P2 : 0 <= (xh - xl) * (p2 - p1)) by (apply Qmult_le_0_compat; lra).
    assert (P3 : 0 <= (xh - xl) * (1 - (p2 - g))) by (apply Qmult_le_0_compat; lra).
    split; [lra | split; lra].
  - assert (Hh : (Nat.min (lo1 + 1) m <= lo2)%nat) by lia.
    pose proof (StronglySorted_nth s (Nat.min (lo1 + 1) m) lo2 Hs ltac:(lia)) as A12.
    revert A0 A1 A2 A3 A12.
    generalize (nth 0 s 0) (nth lo1 s 0) (nth (Nat.min (lo1 + 1) m) s 0)
               (nth lo2 s 0) (nth (Nat.min (lo2 + 1) m) s 0) (nth m s 0).
    intros x0 xl xh yl yh xm A0 A1 A2 A3 A12.
    generalize dependent (inject_Z f1). generalize dependent (inject_Z f2).
    intros g2 Hb2 Hb2' g1 Hb1 Hb1'.
    assert (P1 : 0 <= (xh - xl) * (p1 - g1)) by (apply Qmult_le_0_compat; lra).
    assert (P2 : 0 <= (xh - xl) * (1 - (p1 - g1))) by (apply Qmult_le_0_compat; lra).
    assert (P3 : 0 <= (yh - yl) * (p2 - g2)) by (apply Qmult_le_0_compat; lra).
    assert (P4 : 0 <= (yh - yl) * (1 - (p2 - g2))) by (apply Qmult_le_0_compat; lra).
    split; [lra | split; lra].
Qed.

(** The two cut-offs of a batch: both exist for a non-empty batch, both lie
    between the lowest and the highest score, and the 75% one is never above
    the 90% one. *)
Lemma quantile_cutoffs (scores : list Q) :
  scores ≠ [] →
  ∃ p90 p75,
    quantile (90 # 100) scores = Some p90 ∧ quantile (75 # 100) scores = Some p75 ∧
    p75 <= p90 ∧
    (∀ s, (∀ t, t ∈ scores → s <= t) → s <= p75) ∧
    (∀ s, (∀ t, t ∈ scores → t <= s) → p90 <= s).
Proof.
  intros Hne.
  pose proof (stable_sort_Qle scores) as Hs.
  pose proof (stable_sort_Permutation Qle_bool scores) as Hperm.
  assert (Hne' : stable_sort Qle_bool scores ≠ []).
  { intros E. rewrite E in Hperm. apply Permutation_nil_l in Hperm. congruence. }
  assert (Hlen : (0 < length (stable_sort Qle_bool scores))%nat).
  { destruct (stable_sort Qle_bool scores); simpl; [congruence | lia]. }
  pose proof (interpolation_monotone _ (75 # 100) (90 # 100) Hs Hne'
                ltac:(lra) ltac:(lra) ltac:(lra)) as (Hlow & Hmid & Hhigh).
  cbv beta zeta in Hlow, Hmid, Hhigh.
  destruct scores as [| x l]; [congruence |].
  eexists _, _. split; [reflexivity |]. split; [reflexivity |].
  cbv beta zeta.
  split; [exact Hmid |]. split.
  - intros s Hmin. eapply Qle_trans; [| exact Hlow].
    apply Hmin. apply (stable_sort_elem_of Qle_bool), list_elem_of_In, nth_In. exact Hlen.
  - intros s Hmax. eapply Qle_trans; [| apply Hmax].
    + exact Hhigh.
    + apply (stable_sort_elem_of Qle_bool), list_elem_of_In, nth_In. lia.
Qed.

Lemma assign_risk_spec (p90 p75 s : Q) :
  (assign_risk p90 p75 s = HighRisk ↔ s <= p90) ∧
  (assign_risk p90 p75 s = MediumRisk ↔ p90 < s ∧ s <= p75) ∧
  (assign_risk p90 p75 s = LowRisk ↔ p90 < s ∧ p75 < s).
Proof.
  unfold assign_risk.
  destruct (Qle_bool s p90) eqn:E90; [| destruct (Qle_bool s p75) eqn:E75].
  - apply Qle_bool_iff in E90.
    split; [tauto |]. split; (split; [discriminate | intros []; lra]).
  - apply Qle_bool_iff in E75.
    assert (¬ s <= p90) by (rewrite <- Qle_bool_iff; congruence).
    split; [split; [discriminate | tauto] |].
    split; [split; [intros _; split; [lra | exact E75] | reflexivity] |].
    split; [discriminate | intros []; lra].
  - assert (¬ s <= p90) by (rewrite <- Qle_bool_iff; congruence).
    assert (¬ s <= p75) by (rewrite <- Qle_bool_iff; congruence).
    split; [split; [discriminate | tauto] |].
    split; [split; [discriminate | intros []; tauto] |].
    split; [intros _; split; lra | reflexivity].
Qed.

Lemma categorize_lookup (scores : list Q) (i : nat) (lvl : RiskLevel) :
  categorize_risk_with_guardrails scores !! i = Some lvl ↔
  ∃ s, scores !! i = Some s ∧ risk_in_batch scores s = lvl.
Proof.
  rewrite categorize_risk_in_batch, list_lookup_fmap.
  destruct (scores !! i) as [s |]; simpl.
  - split; [intros [= <-]; eauto | intros (? & [= <-] & <-); reflexivity].
  - split; [discriminate | intros (? & [=] & _)].
Qed.

(** The "Medium Risk" tier is never assigned: the 75% cut-off is never above
    the 90% one, so no score is above the latter and at most the former. *)
Theorem medium_risk_never_assigned (scores : list Q) :
  Forall (λ lvl, lvl ≠ MediumRisk) (categorize_risk_with_guardrails scores).
Proof.
  rewrite categorize_risk_in_batch, Forall_fmap, Forall_forall.
  intros s Hs. cbv beta. unfold compose, risk_in_batch.
  destruct (quantile_cutoffs scores) as (p90 & p75 & -> & -> & Hle & _).
  { intros ->. inversion Hs. }
  intros E. apply assign_risk_spec in E. lra.
Qed.

(** The lowest score of a batch is always "High Risk", whatever its value:
    the 90% cut-off is never below the lowest score.  In particular the only
    row of a one-row table, and every row of a table whose scores are all
    equal, is "High Risk". *)
Theorem lowest_score_high_risk (scores : list Q) (i : nat) (s : Q) :
  scores !! i = Some s →
  Forall (λ t, s <= t) scores →
  categorize_risk_with_guardrails scores !! i = Some HighRisk.
Proof.
  intros Hi Hmin. apply categorize_lookup. exists s. split; [exact Hi |].
  unfold risk_in_batch.
  destruct (quantile_cutoffs scores) as (p90 & p75 & -> & -> & Hle & Hlow & _).
  { intros ->. discriminate. }
  apply assign_risk_spec. rewrite Forall_forall in Hmin.
  apply Qle_trans with p75; [apply Hlow; exact Hmin | exact Hle].
Qed.

Lemma lowest_score_high_risk_witness :
  categorize_risk_with_guardrails [100; 100; 100] !! 1%nat = Some HighRisk.
Proof.
  apply (lowest_score_high_risk [100; 100; 100] 1 100); [reflexivity |].
  repeat constructor; vm_compute; discriminate.
Defined.

(** Tiers follow the scores: of two rows of one batch, the one with the lower
    score is "High Risk" whenever the other is, and the one with the higher
    score is "Low Risk" whenever the other is. *)
Theorem tiers_follow_scores (scores : list Q) (i j : nat) (a b : Q) :
  scores !! i = Some a → scores !! j = Some b → a <= b →
  (categorize_risk_with_guardrails scores !! j = Some HighRisk →
   categorize_risk_with_guardrails scores !! i = Some HighRisk) ∧
  (categorize_risk_with_guardrails scores !! i = Some LowRisk →
   categorize_risk_with_guardrails scores !! j = Some LowRisk).
Proof.
  intros Hi Hj Hab.
  rewrite !categorize_lookup. unfold risk_in_batch.
  destruct (quantile_cutoffs scores) as (p90 & p75 & -> & -> & Hle & _).
  { intros ->. discriminate. }
  split.
  - intros (b' & Hb' & Hhigh). exists a. split; [exact Hi |].
    assert (b' = b) as -> by congruence.
    apply assign_risk_spec in Hhigh. apply assign_risk_spec. lra.
  - intros (a' & Ha' & Hlow). exists b. split; [exact Hj |].
    assert (a' = a) as -> by congruence.
    apply assign_risk_spec in Hlow. apply assign_risk_spec. lra.
Qed.

Lemma tiers_follow_scores_witness :
  (categorize_risk_with_guardrails (scores_1_to 20) !! 5%nat = Some HighRisk →
   categorize_risk_with_guardrails (scores_1_to 20) !! 2%nat = Some HighRisk) ∧
  (categorize_risk_with_guardrails (scores_1_to 20) !! 2%nat = Some LowRisk →
   categorize_risk_with_guardrails (scores_1_to 20) !! 5%nat = Some LowRisk).
Proof.
  apply (tiers_follow_scores (scores_1_to 20) 2 5 3 6);
    [reflexivity | reflexivity | vm_compute; discriminate].
Defined.

(** ** Counting the tiers *)

Lemma count_risk_total (levels : list RiskLevel) :
  (count_risk HighRisk levels + count_risk MediumRisk levels
   + count_risk LowRisk levels = length levels)%nat.
Proof.
  unfold count_risk.
  induction levels as [| lvl levels IH]; [reflexivity |].
  simpl. repeat case_bool_decide; destruct lvl; try congruence; simpl; lia.
Qed.

Lemma count_risk_none (lvl : RiskLevel) (levels : list RiskLevel) :
  Forall (λ l, l ≠ lvl) levels → count_risk lvl levels = 0%nat.
Proof.
  unfold count_risk.
  induction 1 as [| l levels Hl _ IH]; [reflexivity |].
  cbn. rewrite bool_decide_eq_false_2 by exact Hl. exact IH.
Qed.

Lemma count_high_risk (p90 p75 : Q) (scores : list Q) :
  count_risk HighRisk (map (assign_risk p90 p75) scores)
  = length (List.filter (λ s, Qle_bool s p90) scores).
Proof.
  unfold count_risk.
  induction scores as [| s scores IH]; [reflexivity |].
  simpl. destruct (assign_risk p90 p75 s) eqn:E; apply assign_risk_spec in E.
  - apply Qle_bool_iff in E. rewrite E. simpl. f_equal. exact IH.
  - assert (Qle_bool s p90 = false) as ->; [| exact IH].
    apply not_true_is_false. rewrite Qle_bool_iff. lra.
  - assert (Qle_bool s p90 = false) as ->; [| exact IH].
    apply not_true_is_false. rewrite Qle_bool_iff. lra.
Qed.

Lemma filter_length_Permutation {A : Type} (P : A → bool) (l l' : list A) :
  l ≡ₚ l' → length (List.filter P l) = length (List.filter P l').
Proof.
  induction 1 as [| x l l' _ IH | x y l | l l' l'' _ IH _ IH']; simpl.
  - reflexivity.
  - destruct (P x); simpl; congruence.
  - destruct (P x), (P y); reflexivity.
  - congruence.
Qed.

(** A predicate that holds on the first [k] elements and fails on the others
    is counted [k] times. *)
Lemma filter_length_prefix {A : Type} (P : A → bool) (l : list A) (k : nat) :
  (k <= length l)%nat →
  (∀ i x, l !! i = Some x → (i < k)%nat → P x = true) →
  (∀ i x, l !! i = Some x → (k <= i)%nat → P x = false) →
  length (List.filter P l) = k.
Proof.
  revert k. induction l as [| y l IH]; intros k Hk Hin Hout; simpl in *.
  - lia.
  - destruct k as [| k].
    + rewrite (Hout 0%nat y eq_refl) by lia.
      apply IH; [lia | intros; lia |].
      intros i x Hi _. apply (Hout (S i) x Hi). lia.
    + rewrite (Hin 0%nat y eq_refl) by lia. simpl. f_equal.
      apply IH; [lia | |].
      * intros i x Hi Hlt. apply (Hin (S i) x Hi). lia.
      * intros i x Hi Hge. apply (Hout (S i) x Hi). lia.
Qed.

Lemma StronglySorted_distinct (s : list Q) :
  StronglySorted Qle s → NoDup (Qred <$> s) → StronglySorted Qlt s.
Proof.
  induction 1 as [| x s Hs IH Hx]; intros Hnd; [constructor |].
  rewrite fmap_cons in Hnd. apply NoDup_cons in Hnd as [Hnotin Hnd].
  constructor; [apply IH, Hnd |].
  rewrite Forall_forall in Hx |- *. intros y Hy.
  destruct (Qlt_le_dec x y) as [Hlt | Hge]; [exact Hlt |].
  exfalso. apply Hnotin.
  assert (E : x == y) by (apply Qle_antisym; [apply Hx, Hy | exact Hge]).
  rewrite (Qred_complete _ _ E). apply list_elem_of_fmap_2, Hy.
Qed.

Lemma StronglySorted_lookup_lt (s : list Q) (i j : nat) (a b : Q) :
  StronglySorted Qlt s → s !! i = Some a → s !! j = Some b → (i < j)%nat → a < b.
Proof.
  intros Hs. revert i j.
  induction Hs as [| x s Hs IH Hx]; intros i j Hi Hj Hij; [discriminate |].
  destruct j as [| j]; [lia |]. simpl in Hj.
  destruct i as [| i]; simpl in Hi.
  - injection Hi as <-. rewrite Forall_forall in Hx.
    apply Hx. eapply list_elem_of_lookup_2, Hj.
  - apply (IH i j Hi Hj). lia.
Qed.

Lemma quantile_nonempty (q : Q) (scores : list Q) :
  scores ≠ [] →
  quantile q scores =
  Some (let s := stable_sort Qle_bool scores in
        let n := length s in
        let pos := q * inject_Z (Z.of_nat (n - 1)) in
        let lo := Z.to_nat (Qfloor pos) in
        let hi := Nat.min (lo + 1) (n - 1) in
        let gamma := pos - inject_Z (Qfloor pos) in
        nth lo s 0 + (nth hi s 0 - nth lo s 0) * gamma).
Proof. destruct scores; [congruence | reflexivity]. Qed.

(** In a strictly increasing list the interpolated value at position
    [q * (n - 1)] separates the first [floor (q * (n - 1)) + 1] elements from
    the others. *)
Lemma interpolation_cut (s : list Q) (q : Q) :
  StronglySorted Qlt s → s ≠ [] → 0 <= q → q <= 1 →
  let m := (length s - 1)%nat in
  let pos := q * inject_Z (Z.of_nat m) in
  let lo := Z.to_nat (Qfloor pos) in
  let hi := Nat.min (lo + 1) m in
  let p := nth lo s 0 + (nth hi s 0 - nth lo s 0) * (pos - inject_Z (Qfloor pos)) in
  (lo <= m)%nat ∧ ∀ i x, s !! i = Some x → (x <= p ↔ (i <= lo)%nat).
Proof.
  intros Hs Hne H0 H1 m pos lo hi p.
  assert (Hlen : (0 < length s)%nat) by (destruct s; simpl; [congruence | lia]).
  destruct (Qfloor_position q m H0 H1) as [Hf Hf'].
  pose proof (Qfloor_bounds pos) as [Hb Hb']. fold pos in Hf, Hf'.
  assert (Hlo : (lo <= m)%nat) by (subst lo; lia).
  split; [exact Hlo |].
  destruct (lookup_lt_is_Some_2 s lo) as [a Ha]; [lia |].
  destruct (lookup_lt_is_Some_2 s hi) as [b Hb0]; [subst hi; lia |].
  assert (Hp : p = a + (b - a) * (pos - inject_Z (Qfloor pos))).
  { subst p. rewrite !nth_lookup, Ha, Hb0. reflexivity. }
  rewrite Hp. clear Hp p.
  assert (Hab : (lo < m)%nat → a < b).
  { intros Hlt. apply (StronglySorted_lookup_lt s lo hi a b Hs Ha Hb0). subst hi. lia. }
  assert (Hab' : a <= b).
  { destruct (decide (lo < m)%nat) as [Hlt | Hge]; [apply Qlt_le_weak, Hab, Hlt |].
    assert (hi = lo) as E by (subst hi; lia). rewrite E in Hb0.
    assert (a = b) as -> by congruence. apply Qle_refl. }
  generalize dependent (inject_Z (Qfloor pos)). intros g Hb Hb' .
  assert (P1 : 0 <= (b - a) * (pos - g)) by (apply Qmult_le_0_compat; lra).
  intros i x Hi. split.
  - intros Hx. destruct (decide (i <= lo)%nat) as [Hle | Hgt]; [exact Hle |].
    exfalso.
    assert (Him : (i <= m)%nat) by (apply lookup_lt_Some in Hi; lia).
    assert (Hhi : hi = S lo) by (subst hi; lia).
    assert (Hbx : b <= x).
    { destruct (decide (hi = i)) as [E | NE].
      - rewrite E in Hb0. assert (b = x) as -> by congruence. apply Qle_refl.
      - apply Qlt_le_weak.
        apply (StronglySorted_lookup_lt s hi i b x Hs Hb0 Hi). lia. }
    assert (Hlt : a < b) by (apply Hab; lia).
    assert (P2 : 0 < (b - a) * (1 - (pos - g))) by (apply Qmult_lt_0_compat; lra).
    lra.
  - intros Hle.
    assert (Hxa : x <= a).
    { destruct (decide (i = lo)) as [E | NE].
      - rewrite E in Hi. assert (x = a) as -> by congruence. apply Qle_refl.
      - apply Qlt_le_weak.
        apply (StronglySorted_lookup_lt s i lo x a Hs Hi Ha). lia. }
    lra.
Qed.

Lemma not_medium_risk (p90 p75 s : Q) : p75 <= p90 → assign_risk p90 p75 s ≠ MediumRisk.
Proof. intros Hle E. apply assign_risk_spec in E. lra. Qed.

(** * The DQI score as a function of the signals *)

Lemma rint_monotone (x y : Q) : x <= y → (rint x <= rint y)%Z.
Proof.
  intros Hxy.
  destruct (Z_le_gt_dec (rint x) (rint y)) as [Hle | Hgt]; [exact Hle |].
  exfalso.
  destruct (rint_spec x) as (Hx & _ & _).
  destruct (rint_spec y) as (_ & Hy & _).
  assert (H1 : inject_Z (rint y) + 1 <= inject_Z (rint x)).
  { rewrite <- inject_Z_succ. apply Qle_of_Zle. lia. }
  assert (E : x == y) by lra.
  apply rint_proper in E. lia.
Qed.

Lemma round2_monotone (x y : Q) : x <= y → round2 x <= round2 y.
Proof.
  intros Hxy. unfold round2.
  assert (H : inject_Z (rint (x * 100)) <= inject_Z (rint (y * 100))).
  { apply Qle_of_Zle, rint_monotone. lra. }
  unfold Qdiv. change (/ 100) with (1 # 100). lra.
Qed.

Lemma normalize_monotone (s1 s2 t : Q) :
  0 < t → s1 <= s2 →
  normalize_signal_vs_threshold s1 t <= normalize_signal_vs_threshold s2 t.
Proof.
  intros Ht H12.
  destruct (Qlt_le_dec t s1) as [H1 | H1].
  - rewrite !normalize_above by lra.
    apply Q.min_glb; [| apply Q.le_min_r].
    eapply Qle_trans; [apply Q.le_min_l |].
    unfold Qdiv.
    assert (Hinv : 0 < / t) by (apply Qinv_lt_0_compat, Ht).
    assert (P : 0 <= (s2 - s1) * / t) by (apply Qmult_le_0_compat; lra).
    lra.
  - rewrite (normalize_below s1 t H1). apply normalize_range, Ht.
Qed.

Ltac weights_arith :=
  unfold Qdiv, W_pages, W_visits, W_edrr, W_codes, W_sae in *;
  change (/ total_weight) with (1 # 77) in *; lra.

Lemma round2_nonneg (x : Q) : 0 <= x → 0 <= round2 x.
Proof.
  intros Hx. apply Qle_trans with (round2 0); [vm_compute; discriminate |].
  apply round2_monotone, Hx.
Qed.

(** The normalised signals of a scored row, each within [0, 100]. *)
Lemma normalized_signals_range (r : Row) (n1 n2 n3 n4 n5 : Q) :
  normalized_signals r = Some (n1, n2, n3, n4, n5) →
  (0 <= n1 ∧ n1 <= 100) ∧ (0 <= n2 ∧ n2 <= 100) ∧ (0 <= n3 ∧ n3 <= 100) ∧
  (0 <= n4 ∧ n4 <= 100) ∧ (0 <= n5 ∧ n5 <= 100).
Proof.
  intros H. apply normalized_signals_Some in H as (x1 & x2 & x3 & x4 & x5 & _ & _ & _ & _ & _ & E).
  injection E as -> -> -> -> ->.
  repeat split; apply normalize_range; lra.
Qed.

Lemma scored_row (df out : DataFrame) (i : nat) (r' : Row) :
  compute_dqi_study_level df = Some out ∨ compute_dqi_site_level df = Some out →
  rows out !! i = Some r' →
  ∃ r, rows df !! i = Some r ∧ compute_dqi_row r = Some r'.
Proof.
  intros H Hi.
  destruct (Forall2_lookup_r _ _ _ _ _ (compute_dqi_rows _ _ H) Hi) as (r & Hr & Hrow).
  eauto.
Qed.

(** Every score written by the DQI computation lies between 0 and 100,
    and every stored penalty between 0 and the rounded share of its weight
    (12.99, 19.48, 19.48, 15.58 and 32.47). *)
Theorem dqi_score_range (df out : DataFrame) (i : nat) (r' : Row) :
  compute_dqi_study_level df = Some out ∨ compute_dqi_site_level df = Some out →
  rows out !! i = Some r' →
  (∃ d, cells r' !! "dqi_score" = Some d ∧ 0 <= d ∧ d <= 100) ∧
  Forall (λ cw : string * Q,
            ∃ p, cells r' !! cw.1 = Some p ∧ 0 <= p
                 ∧ p <= round2 (100 * (cw.2 / total_weight)))
         penalty_weights.
Proof.
  intros H Hi.
  destruct (scored_row _ _ _ _ H Hi) as (r & _ & Hrow).
  destruct (compute_dqi_row_cells _ _ Hrow)
    as (n1 & n2 & n3 & n4 & n5 & Hn & Hd & Hp1 & Hp2 & Hp3 & Hp4 & Hp5).
  destruct (normalized_signals_range _ _ _ _ _ _ Hn)
    as ([? ?] & [? ?] & [? ?] & [? ?] & [? ?]).
  split.
  - eexists. split; [exact Hd |]. split.
    + apply round2_nonneg. weights_arith.
    + apply Qle_trans with (round2 100); [| vm_compute; discriminate].
      apply round2_monotone. weights_arith.
  - unfold penalty_weights.
    repeat constructor; cbn [fst snd]; eexists;
      (split; [eassumption |]);
      (split; [apply round2_nonneg | apply round2_monotone]); weights_arith.
Qed.

Lemma dqi_score_range_witness :
  (∃ d, cells (sample_record sample_dqi 3) !! "dqi_score" = Some d ∧ 0 <= d ∧ d <= 100) ∧
  Forall (λ cw : string * Q,
            ∃ p, cells (sample_record sample_dqi 3) !! cw.1 = Some p ∧ 0 <= p
                 ∧ p <= round2 (100 * (cw.2 / total_weight)))
         penalty_weights.
Proof.
  apply (dqi_score_range sample_signals sample_dqi 3); [left |]; reflexivity.
Defined.

Lemma signals_le_spec (a b : Row) :
  signals_le a b = true →
  Forall (λ c, ∃ x y, cells a !! c = Some x ∧ cells b !! c = Some y ∧ x <= y)
         signal_columns.
Proof.
  unfold signals_le. rewrite forallb_forall, Forall_forall.
  intros H c Hc. specialize (H c (proj1 (list_elem_of_In _ _) Hc)).
  destruct (cells a !! c) as [x |], (cells b !! c) as [y |]; try discriminate.
  exists x, y. repeat split. apply Qle_bool_iff, H.
Qed.

(** Worse signals never give a better score: if every signal of one row is
    at most the same signal of another row, its score is at least as high. *)
Theorem dqi_score_monotone (df out : DataFrame) (i j : nat) (a b a' b' : Row) :
  compute_dqi_study_level df = Some out ∨ compute_dqi_site_level df = Some out →
  rows df !! i = Some a → rows df !! j = Some b →
  rows out !! i = Some a' → rows out !! j = Some b' →
  signals_le a b = true →
  ∃ da db, cells a' !! "dqi_score" = Some da ∧ cells b' !! "dqi_score" = Some db
           ∧ db <= da.
Proof.
  intros H Ha Hb Ha' Hb' Hle.
  destruct (scored_row _ _ _ _ H Ha') as (a0 & Ha0 & Hrowa).
  destruct (scored_row _ _ _ _ H Hb') as (b0 & Hb0 & Hrowb).
  assert (a0 = a) as -> by congruence. assert (b0 = b) as -> by congruence.
  destruct (compute_dqi_row_cells _ _ Hrowa) as (n1 & n2 & n3 & n4 & n5 & Hn & Hd & _).
  destruct (compute_dqi_row_cells _ _ Hrowb) as (m1 & m2 & m3 & m4 & m5 & Hm & Hd' & _).
  apply normalized_signals_Some in Hn as (x1 & x2 & x3 & x4 & x5 & X1 & X2 & X3 & X4 & X5 & En).
  apply normalized_signals_Some in Hm as (y1 & y2 & y3 & y4 & y5 & Y1 & Y2 & Y3 & Y4 & Y5 & Em).
  injection En as -> -> -> -> ->. injection Em as -> -> -> -> ->.
  apply signals_le_spec in Hle. unfold signal_columns in Hle.
  rewrite !Forall_cons in Hle.
  destruct Hle as ((? & ? & A1 & B1 & L1) & (? & ? & A2 & B2 & L2) & (? & ? & A3 & B3 & L3)
                   & (? & ? & A4 & B4 & L4) & (? & ? & A5 & B5 & L5) & _).
  simplify_eq.
  pose proof (normalize_monotone _ _ 5 ltac:(lra) L1).
  pose proof (normalize_monotone _ _ 10 ltac:(lra) L2).
  pose proof (normalize_monotone _ _ 8 ltac:(lra) L3).
  pose proof (normalize_monotone _ _ 7 ltac:(lra) L4).
  pose proof (normalize_monotone _ _ 5 ltac:(lra) L5).
  eexists _, _. split; [exact Hd |]. split; [exact Hd' |].
  apply round2_monotone. weights_arith.
Qed.

Lemma dqi_score_monotone_witness :
  ∃ da db, cells (sample_record sample_dqi 2) !! "dqi_score" = Some da
           ∧ cells (sample_record sample_dqi 3) !! "dqi_score" = Some db
           ∧ db <= da.
Proof.
  apply (dqi_score_monotone sample_signals sample_dqi 2 3
           (sample_record sample_signals 2) (sample_record sample_signals 3));
    [left | | | | |]; reflexivity.
Defined.

(** * The scored table and the table it was computed from *)

Lemma add_columns_prefix (names cols : list string) :
  cols `prefix_of` add_columns names cols.
Proof.
  unfold add_columns. revert cols.
  induction names as [| n names IH]; intros cols; simpl; [reflexivity |].
  case_bool_decide; [apply IH |].
  etransitivity; [| apply IH]. apply prefix_app_r. reflexivity.
Qed.

Lemma add_columns_present (names cols : list string) :
  Forall (λ n, n ∈ cols) names → add_columns names cols = cols.
Proof.
  unfold add_columns.
  induction 1 as [| n names Hn _ IH]; simpl; [reflexivity |].
  rewrite bool_decide_eq_true_2 by exact Hn. exact IH.
Qed.

Lemma add_columns_idempotent (names cols : list string) :
  add_columns names (add_columns names cols) = add_columns names cols.
Proof.
  apply add_columns_present. rewrite Forall_forall. intros n Hn.
  apply elem_of_add_columns. right. exact Hn.
Qed.

Lemma scored_columns (df out : DataFrame) :
  compute_dqi_study_level df = Some out ∨ compute_dqi_site_level df = Some out →
  columns out = add_columns ("dqi_score" :: penalty_columns) (columns df)
  ∧ forallb (λ c, has_column c df) signal_columns = true.
Proof.
  unfold compute_dqi_study_level, compute_dqi_site_level.
  intros [H | H];
    (destruct (forallb _ _); [| discriminate];
     destruct (mapM compute_dqi_row (rows df)); [| discriminate];
     simpl in H; injection H as <-; split; reflexivity).
Qed.

Lemma compute_dqi_row_shape (r r' : Row) :
  compute_dqi_row r = Some r' →
  study_id r' = study_id r ∧ site_id r' = site_id r ∧
  ∃ d p1 p2 p3 p4 p5,
    cells r' = <["penalty_sae" := p5]> (<["penalty_codes" := p4]>
               (<["penalty_edrr" := p3]> (<["penalty_visits" := p2]>
               (<["penalty_pages" := p1]> (<["dqi_score" := d]> (cells r)))))).
Proof.
  unfold compute_dqi_row.
  destruct (normalized_signals r) as [[[[[n1 n2] n3] n4] n5] |]; [| discriminate].
  simpl. intros [= <-]. simpl. repeat split. eauto 10.
Qed.

Lemma compute_dqi_row_keeps (r r' : Row) (c : string) :
  compute_dqi_row r = Some r' →
  c ∉ "dqi_score" :: penalty_columns →
  cells r' !! c = cells r !! c.
Proof.
  intros H Hc. apply compute_dqi_row_shape in H as (_ & _ & d & p1 & p2 & p3 & p4 & p5 & ->).
  unfold penalty_columns in Hc. rewrite !not_elem_of_cons in Hc.
  destruct Hc as (? & ? & ? & ? & ? & ? & _).
  rewrite !lookup_insert_ne by congruence. reflexivity.
Qed.

(** The scoring copies its input: the scored table has the rows of the input
    in the same order, with the same identifiers and the same value in every
    column other than the six it writes, and the input's columns come first
    in its column index. *)
Theorem compute_dqi_keeps_input (df out : DataFrame) :
  compute_dqi_study_level df = Some out ∨ compute_dqi_site_level df = Some out →
  length (rows out) = length (rows df) ∧
  columns df `prefix_of` columns out ∧
  ∀ i r r', rows df !! i = Some r → rows out !! i = Some r' →
    study_id r' = study_id r ∧ site_id r' = site_id r ∧
    ∀ c, c ∉ "dqi_score" :: penalty_columns → cells r' !! c = cells r !! c.
Proof.
  intros H. pose proof (compute_dqi_rows _ _ H) as Hrows.
  split; [symmetry; apply (Forall2_length _ _ _ Hrows) |].
  split; [destruct (scored_columns _ _ H) as [-> _]; apply add_columns_prefix |].
  intros i r r' Hr Hr'.
  pose proof (Forall2_lookup_lr _ _ _ _ _ _ Hrows Hr Hr') as Hrow.
  destruct (compute_dqi_row_shape _ _ Hrow) as (Hs & Hst & _).
  split; [exact Hs |]. split; [exact Hst |].
  intros c Hc. apply (compute_dqi_row_keeps _ _ _ Hrow Hc).
Qed.

Lemma compute_dqi_keeps_input_witness :
  length (rows sample_dqi) = length (rows sample_signals) ∧
  columns sample_signals `prefix_of` columns sample_dqi ∧
  ∀ i r r', rows sample_signals !! i = Some r → rows sample_dqi !! i = Some r' →
    study_id r' = study_id r ∧ site_id r' = site_id r ∧
    ∀ c, c ∉ "dqi_score" :: penalty_columns → cells r' !! c = cells r !! c.
Proof.
  apply (compute_dqi_keeps_input sample_signals sample_dqi). left. reflexivity.
Defined.

Ltac insert_lookups :=
  repeat (rewrite lookup_insert_eq || rewrite lookup_insert_ne by congruence).

Lemma compute_dqi_row_fixed (r r' : Row) :
  compute_dqi_row r = Some r' → compute_dqi_row r' = Some r'.
Proof.
  intros H.
  assert (Hkeep : ∀ c, c ∈ signal_columns → cells r' !! c = cells r !! c).
  { intros c Hc. apply (compute_dqi_row_keeps _ _ _ H).
    unfold signal_columns in Hc. unfold penalty_columns.
    rewrite !elem_of_cons, elem_of_nil in Hc. rewrite !not_elem_of_cons.
    destruct Hc as [-> | [-> | [-> | [-> | [-> | []]]]]];
      repeat split; (discriminate || apply not_elem_of_nil). }
  assert (Hn : normalized_signals r' = normalized_signals r).
  { unfold normalized_signals.
    rewrite !Hkeep by (unfold signal_columns; rewrite !elem_of_cons; tauto).
    reflexivity. }
  unfold compute_dqi_row in *. rewrite Hn.
  destruct (normalized_signals r) as [[[[[n1 n2] n3] n4] n5] |]; [| discriminate].
  simpl in *. injection H as <-. f_equal.
  unfold set_cell. simpl. f_equal. apply map_eq. intros k.
  destruct (decide (k = "penalty_sae")) as [-> | ?]; [insert_lookups; reflexivity |].
  destruct (decide (k = "penalty_codes")) as [-> | ?]; [insert_lookups; reflexivity |].
  destruct (decide (k = "penalty_edrr")) as [-> | ?]; [insert_lookups; reflexivity |].
  destruct (decide (k = "penalty_visits")) as [-> | ?]; [insert_lookups; reflexivity |].
  destruct (decide (k = "penalty_pages")) as [-> | ?]; [insert_lookups; reflexivity |].
  destruct (decide (k = "dqi_score")) as [-> | ?]; [insert_lookups; reflexivity |].
  insert_lookups. reflexivity.
Qed.

Lemma mapM_fixed {A : Type} (f : A → option A) (l : list A) :
  Forall (λ x, f x = Some x) l → mapM f l = Some l.
Proof.
  intros H. apply mapM_Some. induction H; constructor; assumption.
Qed.

(** Scoring a table that is already scored changes nothing: the six written
    columns are recomputed from the untouched signal columns. *)
Theorem compute_dqi_idempotent (df out : DataFrame) :
  compute_dqi_study_level df = Some out ∨ compute_dqi_site_level df = Some out →
  compute_dqi_study_level out = Some out ∧ compute_dqi_site_level out = Some out.
Proof.
  intros H.
  destruct (scored_columns _ _ H) as [Hcols Hsig].
  assert (Hsig' : forallb (λ c, has_column c out) signal_columns = true).
  { rewrite forallb_forall in Hsig |- *. intros c Hc. specialize (Hsig c Hc).
    unfold has_column in *. rewrite bool_decide_eq_true in Hsig |- *.
    rewrite Hcols. apply elem_of_add_columns. left. exact Hsig. }
  assert (Hrows : mapM compute_dqi_row (rows out) = Some (rows out)).
  { apply mapM_fixed. rewrite Forall_forall. intros r' Hr'.
    apply list_elem_of_lookup in Hr' as [i Hi].
    destruct (scored_row _ _ _ _ H Hi) as (r & _ & Hrow).
    apply (compute_dqi_row_fixed _ _ Hrow). }
  assert (Hc' : add_columns ("dqi_score" :: penalty_columns) (columns out) = columns out).
  { rewrite Hcols. apply add_columns_idempotent. }
  unfold compute_dqi_study_level, compute_dqi_site_level.
  rewrite Hsig', Hrows, Hc'. destruct out; split; reflexivity.
Qed.

Lemma compute_dqi_idempotent_witness :
  compute_dqi_study_level sample_dqi = Some sample_dqi
  ∧ compute_dqi_site_level sample_dqi = Some sample_dqi.
Proof.
  apply (compute_dqi_idempotent sample_signals sample_dqi). left. reflexivity.
Defined.

(** On a table that has a cell in every column of every row, the scoring
    fails (with a [KeyError]) exactly when one of the five signal columns is
    missing; tables without rows are scored too. *)
Theorem compute_dqi_needs_signals (df : DataFrame) :
  rectangular df →
  (is_Some (compute_dqi_study_level df) ↔ signal_columns ⊆ columns df) ∧
  (is_Some (compute_dqi_site_level df) ↔ signal_columns ⊆ columns df).
Proof.
  intros Hrect.
  assert (Hok : signal_columns ⊆ columns df →
                is_Some (compute_dqi_study_level df) ∧ is_Some (compute_dqi_site_level df)).
  { intros Hsub. apply compute_dqi_study_level_total.
    - rewrite Forall_forall. intros c Hc. apply Hsub, Hc.
    - unfold rectangular in Hrect. rewrite Forall_forall in Hrect |- *.
      intros r Hr. specialize (Hrect r Hr).
      rewrite Forall_forall in Hrect |- *. intros c Hc. apply Hrect, Hsub, Hc. }
  assert (Hneed : ∀ out, compute_dqi_study_level df = Some out
                         ∨ compute_dqi_site_level df = Some out →
                         signal_columns ⊆ columns df).
  { intros out H. destruct (scored_columns _ _ H) as [_ Hsig].
    rewrite forallb_forall in Hsig. intros c Hc.
    apply list_elem_of_In in Hc. specialize (Hsig c Hc).
    unfold has_column in Hsig. apply bool_decide_eq_true in Hsig. exact Hsig. }
  split; (split; [intros [out Hout]; apply (Hneed out); auto | intros Hsub; apply Hok, Hsub]).
Qed.

Lemma compute_dqi_needs_signals_witness :
  (is_Some (compute_dqi_study_level sample_signals)
   ↔ signal_columns ⊆ columns sample_signals) ∧
  (is_Some (compute_dqi_site_level sample_signals)
   ↔ signal_columns ⊆ columns sample_signals).
Proof.
  apply (compute_dqi_needs_signals sample_signals).
  unfold rectangular. repeat constructor; eexists; reflexivity.
Defined.

(** * More on the driver attributor *)

Lemma List_filter_sublist {A : Type} (f : A → bool) (l : list A) :
  List.filter f l `sublist_of` l.
Proof.
  induction l as [| x l IH]; simpl; [constructor |].
  destruct (f x); [apply sublist_skip | apply sublist_cons]; exact IH.
Qed.

Lemma penalties_labels (row : gmap string Q) : (penalties row).*1 = driver_labels.
Proof. destruct (penalties_shape row) as (v1 & v2 & v3 & v4 & v5 & ->). reflexivity. Qed.

Lemma sorted_penalties_labels (row : gmap string Q) :
  (sorted_penalties row).*1 ≡ₚ driver_labels.
Proof.
  unfold sorted_penalties. rewrite stable_sort_Permutation. rewrite penalties_labels.
  reflexivity.
Qed.

Lemma driver_labels_NoDup : NoDup driver_labels.
Proof. apply (bool_decide_unpack _). vm_compute. reflexivity. Qed.

(** The attributor never reports a label twice and only reports the five
    labels of its dictionary. *)
Theorem identify_top_penalty_drivers_labels (row : gmap string Q) (top_n : Z) :
  NoDup (identify_top_penalty_drivers row top_n) ∧
  identify_top_penalty_drivers row top_n ⊆ driver_labels.
Proof.
  assert (Hsub : identify_top_penalty_drivers row top_n
                 `sublist_of` (sorted_penalties row).*1).
  { unfold identify_top_penalty_drivers.
    destruct (slice_to_take top_n (sorted_penalties row)) as [k ->].
    apply fmap_sublist.
    etransitivity; [apply List_filter_sublist | apply sublist_take]. }
  split.
  - eapply sublist_NoDup; [| exact Hsub]. rewrite sorted_penalties_labels.
    exact driver_labels_NoDup.
  - intros label Hl. rewrite <- sorted_penalties_labels.
    apply (elem_of_sublist _ _ _ Hl Hsub).
Qed.

Lemma List_filter_app {A : Type} (f : A → bool) (l k : list A) :
  List.filter f (l ++ k) = List.filter f l ++ List.filter f k.
Proof. apply List.filter_app. Qed.

(** For a count [top_n >= 0], asking for [k >= 0] more drivers only extends
    the answer, and asking for five or more gives every driver with a
    positive penalty.  (A negative [top_n] is a slice from the end, and the
    answer for [-1] is not a prefix of the answer for [0].) *)
Theorem identify_top_penalty_drivers_more (row : gmap string Q) (top_n k : Z) :
  (0 <= top_n)%Z → (0 <= k)%Z →
  identify_top_penalty_drivers row top_n
    `prefix_of` identify_top_penalty_drivers row (top_n + k) ∧
  identify_top_penalty_drivers row (5 + k) = identify_top_penalty_drivers row 5.
Proof.
  intros Hn Hk. unfold identify_top_penalty_drivers.
  rewrite !slice_to_nonneg by lia. split.
  - rewrite Z2Nat.inj_add by lia.
    set (n := Z.to_nat top_n). set (m := Z.to_nat k).
    rewrite <- (take_drop n (take (n + m) (sorted_penalties row))).
    rewrite take_take, Nat.min_l by lia.
    rewrite List_filter_app, map_app. apply prefix_app_r. reflexivity.
  - pose proof (sorted_penalties_length row) as Hlen.
    rewrite !take_ge by lia. reflexivity.
Qed.

Lemma identify_top_penalty_drivers_more_witness :
  identify_top_penalty_drivers (cells (sample_record sample_dqi 3)) 1
    `prefix_of` identify_top_penalty_drivers (cells (sample_record sample_dqi 3)) (1 + 1) ∧
  identify_top_penalty_drivers (cells (sample_record sample_dqi 3)) (5 + 1)
    = identify_top_penalty_drivers (cells (sample_record sample_dqi 3)) 5.
Proof.
  apply (identify_top_penalty_drivers_more (cells (sample_record sample_dqi 3)) 1 1); lia.
Defined.

(** The drivers are a function of five columns only, and which five is
    decided by the presence of [penalty_pages] alone: two rows that agree on
    that presence and on the columns of the selected mapping get the same
    drivers, whatever their other columns hold. *)
Theorem identify_top_penalty_drivers_columns (row row' : gmap string Q) (top_n : Z) :
  (is_Some (row !! "penalty_pages") ↔ is_Some (row' !! "penalty_pages")) →
  (∀ col label, (col, label) ∈ signal_cols row → row !! col = row' !! col) →
  identify_top_penalty_drivers row top_n = identify_top_penalty_drivers row' top_n.
Proof.
  intros Hpages Hcols.
  assert (Hsc : signal_cols row' = signal_cols row).
  { unfold signal_cols. apply (f_equal (λ b : bool, if b then _ else _)).
    apply bool_decide_ext. symmetry. exact Hpages. }
  assert (Hpen : penalties row' = penalties row).
  { unfold penalties. rewrite Hsc. apply map_ext_in.
    intros [col label] Hin. apply list_elem_of_In in Hin.
    simpl. rewrite (Hcols col label Hin). reflexivity. }
  unfold identify_top_penalty_drivers, sorted_penalties. rewrite Hpen. reflexivity.
Qed.

Lemma identify_top_penalty_drivers_columns_witness :
  identify_top_penalty_drivers (<["penalty_visits" := 50]> (<["missing_pages_pct" := 9]> ∅)) 2
  = identify_top_penalty_drivers (<["missing_pages_pct" := 9]> ∅) 2.
Proof.
  apply identify_top_penalty_drivers_columns.
  - split; intros [v Hv]; vm_compute in Hv; discriminate.
  - intros col label Hin.
    change (signal_cols _) with signal_cols_pct in Hin. unfold signal_cols_pct in Hin.
    rewrite !elem_of_cons, elem_of_nil in Hin.
    destruct Hin as [[= -> ->] | [[= -> ->] | [[= -> ->] | [[= -> ->] | [[= -> ->] | []]]]]];
      reflexivity.
Defined.

(** * Drivers of a scored row *)

Lemma round2_pos_inv (x : Q) : 0 < round2 x → 0 < x.
Proof.
  intros H. apply Qnot_le_lt. intros Hx.
  pose proof (round2_monotone x 0 Hx) as Hle.
  assert (H0 : round2 0 <= 0) by (vm_compute; discriminate).
  lra.
Qed.

Lemma normalize_pos_inv (x t : Q) : 0 < normalize_signal_vs_threshold x t → t < x.
Proof.
  intros H. apply Qnot_le_lt. intros Hx.
  rewrite (normalize_below x t Hx) in H. lra.
Qed.

Lemma scored_penalties (r r' : Row) :
  compute_dqi_row r = Some r' →
  ∃ x1 x2 x3 x4 x5,
    cells r !! "missing_pages_pct" = Some x1 ∧
    cells r !! "missing_visits_pct" = Some x2 ∧
    cells r !! "unresolved_edrr_pct" = Some x3 ∧
    cells r !! "uncoded_terms_pct" = Some x4 ∧
    cells r !! "pending_sae_pct" = Some x5 ∧
    penalties (cells r') =
      [ ("CRF Pages", round2 (normalize_signal_vs_threshold x1 5 * (W_pages / total_weight)));
        ("Missing Visits", round2 (normalize_signal_vs_threshold x2 10 * (W_visits / total_weight)));
        ("EDRR Queries", round2 (normalize_signal_vs_threshold x3 8 * (W_edrr / total_weight)));
        ("Uncoded Terms", round2 (normalize_signal_vs_threshold x4 7 * (W_codes / total_weight)));
        ("SAE Reviews", round2 (normalize_signal_vs_threshold x5 5 * (W_sae / total_weight))) ].
Proof.
  intros H.
  destruct (compute_dqi_row_cells _ _ H)
    as (n1 & n2 & n3 & n4 & n5 & Hn & _ & Hp1 & Hp2 & Hp3 & Hp4 & Hp5).
  apply normalized_signals_Some in Hn
    as (x1 & x2 & x3 & x4 & x5 & X1 & X2 & X3 & X4 & X5 & E).
  injection E as -> -> -> -> ->.
  exists x1, x2, x3, x4, x5. repeat (split; [assumption |]).
  unfold penalties, signal_cols.
  rewrite bool_decide_eq_true_2 by (rewrite Hp1; eauto).
  unfold signal_cols_penalty. cbn [map fst snd].
  rewrite Hp1, Hp2, Hp3, Hp4, Hp5. reflexivity.
Qed.

(** A driver reported for a scored row is always a signal above its clinical
    threshold: signals at or below their threshold are never blamed. *)
Theorem drivers_exceed_thresholds (df out : DataFrame) (i : nat) (r r' : Row)
    (top_n : Z) (label : string) :
  compute_dqi_study_level df = Some out ∨ compute_dqi_site_level df = Some out →
  rows df !! i = Some r → rows out !! i = Some r' →
  label ∈ identify_top_penalty_drivers (cells r') top_n →
  ∃ col x t, (col, label) ∈ signal_cols_pct ∧ cells r !! col = Some x
             ∧ CLINICAL_THRESHOLDS !! col = Some t ∧ t < x.
Proof.
  intros H Hr Hr' Hl.
  destruct (scored_row _ _ _ _ H Hr') as (r0 & Hr0 & Hrow).
  assert (r0 = r) as -> by congruence.
  destruct (scored_penalties _ _ Hrow)
    as (x1 & x2 & x3 & x4 & x5 & X1 & X2 & X3 & X4 & X5 & Hpen).
  apply driver_entry in Hl as ([l v] & Hlabel & Hin & Hpos).
  simpl in Hlabel, Hpos. subst l. rewrite Hpen in Hin.
  rewrite !elem_of_cons, elem_of_nil in Hin.
  assert (Hw : ∀ n w : Q, 0 < w → 0 < round2 (n * (w / total_weight)) → 0 < n).
  { intros n w Hw Hround. apply round2_pos_inv in Hround.
    apply Qnot_le_lt. intros Hn.
    assert (Hx : 0 <= (0 - n) * w) by (apply Qmult_le_0_compat; lra).
    unfold Qdiv in Hround. change (/ total_weight) with (1 # 77) in Hround. lra. }
  destruct Hin as [E | [E | [E | [E | [E | []]]]]]; injection E as -> ->.
  - exists "missing_pages_pct", x1, 5. unfold signal_cols_pct.
    split; [rewrite !elem_of_cons; tauto |]. split; [exact X1 |]. split; [reflexivity |].
    apply normalize_pos_inv, (Hw _ W_pages); [reflexivity | exact Hpos].
  - exists "missing_visits_pct", x2, 10. unfold signal_cols_pct.
    split; [rewrite !elem_of_cons; tauto |]. split; [exact X2 |]. split; [reflexivity |].
    apply normalize_pos_inv, (Hw _ W_visits); [reflexivity | exact Hpos].
  - exists "unresolved_edrr_pct", x3, 8. unfold signal_cols_pct.
    split; [rewrite !elem_of_cons; tauto |]. split; [exact X3 |]. split; [reflexivity |].
    apply normalize_pos_inv, (Hw _ W_edrr); [reflexivity | exact Hpos].
  - exists "uncoded_terms_pct", x4, 7. unfold signal_cols_pct.
    split; [rewrite !elem_of_cons; tauto |]. split; [exact X4 |]. split; [reflexivity |].
    apply normalize_pos_inv, (Hw _ W_codes); [reflexivity | exact Hpos].
  - exists "pending_sae_pct", x5, 5. unfold signal_cols_pct.
    split; [rewrite !elem_of_cons; tauto |]. split; [exact X5 |]. split; [reflexivity |].
    apply normalize_pos_inv, (Hw _ W_sae); [reflexivity | exact Hpos].
Qed.

Lemma drivers_exceed_thresholds_witness :
  ∃ col x t, (col, "Missing Visits") ∈ signal_cols_pct
             ∧ cells (sample_record sample_signals 0) !! col = Some x
             ∧ CLINICAL_THRESHOLDS !! col = Some t ∧ t < x.
Proof.
  apply (drivers_exceed_thresholds sample_signals sample_dqi 0
           (sample_record sample_signals 0) (sample_record sample_dqi 0) 2);
    [left; reflexivity | reflexivity | reflexivity |].
  apply (bool_decide_unpack _). vm_compute. reflexivity.
Defined.

(** * More on the site ranking *)

Lemma categorized_rule_based (df : DataFrame) (ranked : list Ranked) :
  categorized df = Some ranked → Forall (λ r, risk_driver r = "Rule-based") ranked.
Proof.
  intros H. apply categorized_spec in H as (scores & _ & ->).
  generalize (risk_in_batch scores). intros f.
  generalize (rows df). intros rs. revert scores.
  induction rs as [| r rs IH]; intros [| s scores]; simpl; constructor; auto.
Qed.

Lemma mark_anomalous_spec (df : DataFrame) (r m : Ranked) :
  mark_anomalous df r = Some m →
  risk_driver r = "Rule-based" →
  (risk_driver m = "ML-Detected Anomaly" ↔
     has_column "is_anomalous" df = true
     ∧ (∃ flag, cells (source m) !! "is_anomalous" = Some flag ∧ flag == 1)
     ∧ risk_level m = HighRisk)
  ∧ (risk_driver m = "ML-Detected Anomaly" ∨ risk_driver m = "Rule-based").
Proof.
  unfold mark_anomalous. intros H Hrule.
  destruct (has_column "is_anomalous" df) eqn:Hcol.
  - destruct (cells (source r) !! "is_anomalous") as [flag |] eqn:Hflag; [| discriminate].
    simpl in H.
    destruct (Qeq_bool flag 1) eqn:Hone; simpl in H.
    + case_bool_decide as Hhigh; injection H as <-; simpl.
      * split; [| left; reflexivity].
        split; [intros _ | reflexivity].
        split; [reflexivity |]. split; [| exact Hhigh].
        exists flag. split; [exact Hflag | apply Qeq_bool_iff, Hone].
      * rewrite Hrule. split; [| right; reflexivity].
        split; [discriminate | intros (_ & _ & ?); contradiction].
    + injection H as <-. rewrite Hrule. split; [| right; reflexivity].
      split; [discriminate |]. intros (_ & (flag' & Hflag' & Hone') & _).
      assert (flag' = flag) as -> by congruence.
      apply Qeq_bool_iff in Hone'. congruence.
  - injection H as <-. rewrite Hrule. split; [| right; reflexivity].
    split; [discriminate | intros (? & _); discriminate].
Qed.

Example sample_flagged_drivers :
  map (λ s, (site_id (source (site s)), risk_label (risk_level (site s)),
             risk_driver (site s)))
      (default [] (rank_sites_frame sample_flagged))
  = [ ("D", "High Risk", "ML-Detected Anomaly"); ("A", "High Risk", "Rule-based");
      ("B", "High Risk", "Rule-based"); ("C", "Low Risk", "Rule-based") ].
Proof. vm_compute. reflexivity. Qed.

Lemma attach_ranks_bound (start : nat) (seen : gmap string nat) (ranked : list Ranked) :
  (0 < start)%nat →
  (∀ k, default 0 (seen !! k) < start)%nat →
  Forall (λ s, 1 <= within_study_rank s ∧ within_study_rank s <= global_rank s)%nat
         (attach_ranks start seen ranked).
Proof.
  revert start seen.
  induction ranked as [| x ranked IH]; intros start seen Hstart Hseen.
  - constructor.
  - rewrite attach_ranks_cons. constructor.
    + simpl. specialize (Hseen (study_id (source x))). lia.
    + apply IH; [lia |]. intros k.
      destruct (decide (k = study_id (source x))) as [-> | Hne].
      * rewrite lookup_insert_eq. simpl. specialize (Hseen (study_id (source x))). lia.
      * rewrite lookup_insert_ne by congruence. specialize (Hseen k). lia.
Qed.

(** A site's rank within its study never exceeds its global rank, and both
    start at 1. *)
Theorem within_study_rank_le_global (df : DataFrame) :
  (∀ sites, rank_sites_frame df = Some sites →
     Forall (λ s, 1 <= within_study_rank s ∧ within_study_rank s <= global_rank s)%nat
            sites) ∧
  (∀ out, rank_sites df = Some out →
     Forall (λ o, 1 <= st_within_study_rank o
                  ∧ st_within_study_rank o <= st_global_rank o)%nat out).
Proof.
  assert (Hframe : ∀ sites, rank_sites_frame df = Some sites →
     Forall (λ s, 1 <= within_study_rank s ∧ within_study_rank s <= global_rank s)%nat
            sites).
  { intros sites H. apply rank_sites_frame_spec in H as (_ & ranked & marked & _ & _ & ->).
    apply attach_ranks_bound; [lia |]. intros k. rewrite lookup_empty. simpl. lia. }
  split; [exact Hframe |].
  intros out H. apply rank_sites_projection in H as (sites & Hsites & Hproj).
  specialize (Hframe sites Hsites). clear Hsites.
  induction Hproj as [| s o sites' out' (Hg & Hw & _) _ IH]; [constructor |].
  apply Forall_cons in Hframe as [Hs Hframe].
  constructor; [rewrite Hg, Hw; exact Hs | apply IH; assumption].
Qed.

Lemma within_study_rank_le_global_witness :
  Forall (λ s, 1 <= within_study_rank s ∧ within_study_rank s <= global_rank s)%nat
         sample_sites.
Proof.
  apply (proj1 (within_study_rank_le_global sample_main.2)). vm_compute. reflexivity.
Defined.

(** * When the ranking succeeds *)

Lemma rectangular_cell (df : DataFrame) (r : Row) (c : string) :
  rectangular df → r ∈ rows df → has_column c df = true → is_Some (cells r !! c).
Proof.
  unfold rectangular, has_column. rewrite Forall_forall.
  intros Hrect Hr Hc. apply bool_decide_eq_true in Hc.
  specialize (Hrect r Hr). rewrite Forall_forall in Hrect. apply Hrect, Hc.
Qed.

Lemma rectangular_column (df : DataFrame) (c : string) :
  rectangular df → has_column c df = true → is_Some (column c df).
Proof.
  intros Hrect Hc. unfold column. rewrite Hc.
  apply mapM_is_Some. rewrite Forall_forall. intros r Hr.
  unfold compose. apply (rectangular_cell df r c Hrect Hr Hc).
Qed.

Lemma dqi_column_present (df : DataFrame) :
  has_column "dqi_score" df = true → has_column (dqi_column df) df = true.
Proof.
  intros H. unfold dqi_column.
  destruct (has_column "dqi_score_amplified" df) eqn:E; [exact E | exact H].
Qed.

(** * Where the tables are written *)

Lemma append_length (a b : string) :
  String.length (String.append a b) = (String.length a + String.length b)%nat.
Proof. induction a as [| c a IH]; simpl; [reflexivity | rewrite IH; reflexivity]. Qed.

Lemma prefix_length (a b : string) :
  String.prefix a b = true → (String.length a <= String.length b)%nat.
Proof.
  revert b. induction a as [| c a IH]; intros b H; simpl; [lia |].
  destruct b as [| d b]; simpl in H; [discriminate |].
  destruct (Ascii.ascii_dec c d); [| discriminate].
  specialize (IH b H). simpl. lia.
Qed.

(** Without an occurrence of [old] nothing is replaced. *)
Lemma replace_from_absent (old new s : string) :
  substring_in old s = false → replace_from old new 0 s = s.
Proof.
  induction s as [| c s IH]; intros H; [reflexivity |].
  cbn [substring_in] in H. apply orb_false_iff in H as [Hp Hs].
  cbn [replace_from]. rewrite Hp, (IH Hs). reflexivity.
Qed.

Lemma replace_from_length (old new : string) :
  (1 <= String.length old <= String.length new)%nat →
  ∀ s k, (k <= String.length s)%nat →
    (String.length s <= String.length (replace_from old new k s) + k)%nat.
Proof.
  intros Hlen s. induction s as [| c s IH]; intros k Hk; simpl in Hk.
  - simpl. lia.
  - destruct k as [| k]; cbn [replace_from].
    + destruct (String.prefix old (String c s)) eqn:Hp.
      * apply prefix_length in Hp. simpl in Hp.
        rewrite append_length.
        specialize (IH (String.length old - 1)%nat ltac:(lia)). simpl. lia.
      * specialize (IH 0%nat ltac:(lia)). simpl. lia.
    + specialize (IH k ltac:(lia)). simpl. lia.
Qed.

(** With an occurrence of [old] and a longer [new], the result is longer. *)
Lemma replace_from_longer (old new s : string) :
  (1 <= String.length old < String.length new)%nat →
  substring_in old s = true →
  (String.length s < String.length (replace_from old new 0 s))%nat.
Proof.
  intros Hlen. induction s as [| c s IH]; intros H.
  - cbn [substring_in] in H. destruct old; simpl in *; [lia | discriminate].
  - cbn [replace_from]. cbn [substring_in] in H.
    destruct (String.prefix old (String c s)) eqn:Hp.
    + pose proof (prefix_length _ _ Hp) as Hl. simpl in Hl.
      rewrite append_length.
      pose proof (replace_from_length old new ltac:(lia) s
                    (String.length old - 1)%nat ltac:(lia)).
      simpl. lia.
    + simpl in H. specialize (IH H). simpl. lia.
Qed.

Lemma replace_spec (s old new : string) :
  (1 <= String.length old < String.length new)%nat →
  (substring_in old s = false → replace s old new = s) ∧
  (substring_in old s = true → replace s old new ≠ s).
Proof.
  intros Hlen.
  assert (E : replace s old new = replace_from old new 0 s).
  { unfold replace. destruct old; [simpl in Hlen; lia | reflexivity]. }
  rewrite E. split.
  - apply replace_from_absent.
  - intros H Heq. pose proof (replace_from_longer old new s Hlen H) as Hl.
    rewrite Heq in Hl. lia.
Qed.

Lemma makedirs_spec (d : string) :
  (d = EmptyString → makedirs d = None) ∧ (d ≠ EmptyString → makedirs d = Some tt).
Proof.
  unfold makedirs. case_bool_decide; split; intros; congruence.
Qed.


Example saved_tables_default :
  dirname "outputs/dqi_scores.csv" = "outputs"
  ∧ replace "outputs/dqi_scores.csv" "dqi_scores.csv" "dqi_scores_site_level.csv"
    = "outputs/dqi_scores_site_level.csv"
  ∧ dirname "scores.csv" = EmptyString
  ∧ replace "out/scores.csv" "dqi_scores.csv" "dqi_scores_site_level.csv"
    = "out/scores.csv".
Proof. vm_compute. repeat split. Qed.

(** * The tables the rankings return *)

(** Every record of the table [rank_studies] returns, field by field, from
    the row of the working frame it is selected from. *)
Lemma rank_studies_rows (df : DataFrame) (out : list StudyRank) :
  rank_studies df = Some out →
  ∃ studies, rank_studies_frame df = Some studies ∧
    Forall2 (λ (nr : nat * Ranked) o,
               sr_rank o = nr.1
               ∧ sr_study_id o = study_id (source nr.2)
               ∧ cells (source nr.2) !! "dqi_score" = Some (sr_dqi_score o)
               ∧ sr_risk_level o = risk_level nr.2)
            studies out.
Proof.
  unfold rank_studies. intros H.
  destruct (rank_studies_frame df) as [studies |]; [| discriminate]. simpl in H.
  destruct (has_id_column "study_id" df && has_column "dqi_score" df);
    [| discriminate].
  exists studies. split; [reflexivity |].
  apply mapM_Some in H. eapply Forall2_impl; [exact H |].
  intros nr o Ho. simpl in Ho.
  destruct (cells (source nr.2) !! "dqi_score"); [| discriminate].
  simpl in Ho. injection Ho as <-. auto.
Qed.

Lemma rank_sites_rows (df : DataFrame) (out : list SiteRank) :
  rank_sites df = Some out →
  ∃ sites, rank_sites_frame df = Some sites ∧
    Forall2 (λ s o,
               st_global_rank o = global_rank s
               ∧ st_within_study_rank o = within_study_rank s
               ∧ st_study_id o = study_id (source (site s))
               ∧ st_site_id o = site_id (source (site s))
               ∧ cells (source (site s)) !! "dqi_score" = Some (st_dqi_score o)
               ∧ st_risk_level o = risk_level (site s)
               ∧ st_risk_driver o = risk_driver (site s))
            sites out.
Proof.
  unfold rank_sites. intros H.
  destruct (rank_sites_frame df) as [sites |]; [| discriminate]. simpl in H.
  destruct (has_id_column "study_id" df && has_id_column "site_id" df
            && has_column "dqi_score" df); [| discriminate].
  exists sites. split; [reflexivity |].
  apply mapM_Some in H. eapply Forall2_impl; [exact H |].
  intros s o Ho. simpl in Ho.
  destruct (cells (source (site s)) !! "dqi_score"); [| discriminate].
  simpl in Ho. injection Ho as <-. simpl. auto 10.
Qed.

Lemma Forall2_fmap_l_eq {A B C : Type} (f : A → C) (R : C → B → Prop)
    (l : list A) (k : list B) :
  Forall2 (λ a b, R (f a) b) l k → Forall2 R (map f l) k.
Proof. induction 1; simpl; constructor; assumption. Qed.

Lemma Forall2_flip_impl {A B : Type} (R : A → B → Prop) (S : B → A → Prop)
    (l : list A) (k : list B) :
  (∀ a b, R a b → S b a) → Forall2 R l k → Forall2 S k l.
Proof. intros HRS. induction 1; constructor; auto. Qed.

Lemma Forall2_filter_both {A B : Type} (R : A → B → Prop) (f : A → bool) (g : B → bool)
    (l : list A) (k : list B) :
  (∀ a b, R a b → f a = g b) →
  Forall2 R l k → Forall2 R (List.filter f l) (List.filter g k).
Proof.
  intros Hfg. induction 1 as [| a b l k Hab _ IH]; simpl; [constructor |].
  rewrite <- (Hfg a b Hab). destruct (f a); [constructor |]; assumption.
Qed.

Lemma sorted_by_column (c : string) (scores : list Q) (ranked : list Ranked) :
  Forall (scored_by c scores) ranked →
  StronglySorted (λ a b, score a <= score b) ranked →
  StronglySorted (column_le c) (map source ranked).
Proof.
  intros Hsc Hs. induction Hs as [| x ranked Hs IH Hx]; simpl; [constructor |].
  apply Forall_cons in Hsc as [[Hcx _] Hsc].
  constructor; [apply IH, Hsc |].
  apply Forall_fmap. rewrite Forall_forall in *. intros y Hy.
  destruct (Hsc y Hy) as [Hcy _]. exists (score x), (score y). auto.
Qed.

(** The table [rank_studies] returns, row by row, against the rows of the
    input table in the order of the chosen score column. *)
Lemma rank_studies_output (df : DataFrame) (out : list StudyRank) :
  rank_studies df = Some out →
  ∃ scores srcs,
    column (dqi_column df) df = Some scores ∧
    srcs ≡ₚ rows df ∧
    StronglySorted (column_le (dqi_column df)) srcs ∧
    map sr_rank out = seq 1 (length out) ∧
    Forall2 (λ o r,
               sr_study_id o = study_id r
               ∧ cells r !! "dqi_score" = Some (sr_dqi_score o)
               ∧ ∃ s, cells r !! dqi_column df = Some s
                      ∧ sr_risk_level o = risk_in_batch scores s)
            out srcs.
Proof.
  intros H. apply rank_studies_rows in H as (studies & Hf & Hrows).
  assert (Hc : is_Some (column (dqi_column df) df)).
  { apply frame_column. apply rank_studies_frame_spec in Hf as (? & -> & _). eauto. }
  destruct Hc as [scores Hc].
  destruct (rank_studies_frame_facts _ _ _ Hf Hc) as (Hrank & Hsorted & Hperm & Hsc).
  exists scores, (map source (map snd studies)).
  split; [exact Hc |]. split; [exact Hperm |].
  split; [apply (sorted_by_column _ scores); assumption |].
  split.
  - rewrite <- (Forall2_length _ _ _ Hrows), <- (length_map fst studies), Hrank,
      length_seq.
    rewrite <- Hrank. apply Forall2_map_eq.
    eapply Forall2_impl; [exact Hrows |]. intros ? ? (? & _). assumption.
  - rewrite Forall_fmap in Hsc.
    apply Forall2_flip_impl with
      (R := λ (r : Row) (o : StudyRank),
              sr_study_id o = study_id r
              ∧ cells r !! "dqi_score" = Some (sr_dqi_score o)
              ∧ ∃ s, cells r !! dqi_column df = Some s
                     ∧ sr_risk_level o = risk_in_batch scores s); [auto |].
    rewrite map_map. apply Forall2_fmap_l_eq.
    clear Hrank Hsorted Hperm Hf.
    induction Hrows as [| nr o studies out (_ & Hid & Hd & Hl) _ IH]; [constructor |].
    apply Forall_cons in Hsc as [[Hcell Hlevel] Hsc].
    constructor; [| apply IH, Hsc].
    split; [exact Hid |]. split; [exact Hd |].
    exists (score nr.2). split; [exact Hcell |]. rewrite Hl. exact Hlevel.
Qed.

Lemma study_group_sites (sid : string) (sites : list SiteRanked) (out : list SiteRank)
    (R : SiteRanked → SiteRank → Prop) :
  (∀ s o, R s o → st_study_id o = study_id (source (site s))) →
  Forall2 R sites out → Forall2 R (study_group sid sites) (study_sites sid out).
Proof.
  intros Hid. apply Forall2_filter_both. intros s o Hso.
  rewrite (Hid s o Hso). reflexivity.
Qed.

(** The same for [rank_sites], with the detector's attribution and the
    ranks within each study. *)
Lemma rank_sites_output (df : DataFrame) (out : list SiteRank) :
  rank_sites df = Some out →
  ∃ scores srcs,
    column (dqi_column df) df = Some scores ∧
    srcs ≡ₚ rows df ∧
    StronglySorted (column_le (dqi_column df)) srcs ∧
    map st_global_rank out = seq 1 (length out) ∧
    (∀ sid, map st_within_study_rank (study_sites sid out)
            = seq 1 (length (study_sites sid out))) ∧
    Forall2 (λ o r,
               st_study_id o = study_id r ∧ st_site_id o = site_id r
               ∧ cells r !! "dqi_score" = Some (st_dqi_score o)
               ∧ (∃ s, cells r !! dqi_column df = Some s
                       ∧ st_risk_level o = risk_in_batch scores s)
               ∧ (st_risk_driver o = "ML-Detected Anomaly" ↔
                    has_column "is_anomalous" df = true
                    ∧ (∃ flag, cells r !! "is_anomalous" = Some flag ∧ flag == 1)
                    ∧ st_risk_level o = HighRisk)
               ∧ (st_risk_driver o = "ML-Detected Anomaly"
                  ∨ st_risk_driver o = "Rule-based"))
            out srcs.
Proof.
  intros H. apply rank_sites_rows in H as (sites & Hf & Hrows).
  assert (Hc : is_Some (column (dqi_column df) df)).
  { apply frame_column. apply rank_sites_frame_spec in Hf as (_ & ? & ? & -> & _). eauto. }
  destruct Hc as [scores Hc].
  destruct (rank_sites_frame_facts _ _ _ Hf Hc) as (Hrank & Hsorted & Hperm & Hsc).
  assert (Hdriver : Forall (λ m,
             (risk_driver m = "ML-Detected Anomaly" ↔
                has_column "is_anomalous" df = true
                ∧ (∃ flag, cells (source m) !! "is_anomalous" = Some flag ∧ flag == 1)
                ∧ risk_level m = HighRisk)
             ∧ (risk_driver m = "ML-Detected Anomaly" ∨ risk_driver m = "Rule-based"))
           (map site sites)).
  { pose proof Hf as Hf'.
    apply rank_sites_frame_spec in Hf' as (_ & ranked & marked & Hcat & Hmark & ->).
    rewrite attach_ranks_site, sort_values_Permutation.
    pose proof (categorized_rule_based _ _ Hcat) as Hrule. clear Hcat.
    apply mapM_Some in Hmark. clear - Hmark Hrule.
    induction Hmark as [| r m ranked' marked' Hm _ IH]; [constructor |].
    apply Forall_cons in Hrule as [Hr Hrule].
    constructor; [apply (mark_anomalous_spec df r m Hm Hr) | apply IH, Hrule]. }
  exists scores, (map source (map site sites)).
  split; [exact Hc |]. split; [exact Hperm |].
  split; [apply (sorted_by_column _ scores); assumption |].
  split; [| split].
  - rewrite <- (Forall2_length _ _ _ Hrows), <- (length_map global_rank sites), Hrank,
      length_seq.
    rewrite <- Hrank. apply Forall2_map_eq.
    eapply Forall2_impl; [exact Hrows |]. intros ? ? (? & _). assumption.
  - intros sid.
    pose proof (study_group_sites sid sites out _
                  (λ s o H, proj1 (proj2 (proj2 H))) Hrows) as Hgroup.
    rewrite <- (Forall2_length _ _ _ Hgroup).
    assert (Hw : map within_study_rank (study_group sid sites)
                 = seq 1 (length (study_group sid sites))).
    { apply rank_sites_frame_spec in Hf as (_ & ranked & marked & _ & _ & ->).
      pose proof (attach_ranks_within sid 1 ∅ (sort_values marked)) as Hw.
      rewrite lookup_empty in Hw. simpl in Hw.
      rewrite Hw. f_equal.
      rewrite <- (length_map within_study_rank), Hw, length_seq. reflexivity. }
    rewrite <- Hw. apply Forall2_map_eq.
    eapply Forall2_impl; [exact Hgroup |]. intros ? ? (_ & ? & _). assumption.
  - rewrite Forall_fmap in Hsc. rewrite Forall_fmap in Hdriver.
    apply Forall2_flip_impl with
      (R := λ (r : Row) (o : SiteRank),
              st_study_id o = study_id r ∧ st_site_id o = site_id r
              ∧ cells r !! "dqi_score" = Some (st_dqi_score o)
              ∧ (∃ s, cells r !! dqi_column df = Some s
                      ∧ st_risk_level o = risk_in_batch scores s)
              ∧ (st_risk_driver o = "ML-Detected Anomaly" ↔
                   has_column "is_anomalous" df = true
                   ∧ (∃ flag, cells r !! "is_anomalous" = Some flag ∧ flag == 1)
                   ∧ st_risk_level o = HighRisk)
              ∧ (st_risk_driver o = "ML-Detected Anomaly"
                 ∨ st_risk_driver o = "Rule-based")); [auto |].
    rewrite map_map. apply Forall2_fmap_l_eq.
    clear Hrank Hsorted Hperm Hf.
    induction Hrows as [| s o sites out (_ & _ & Hid & Hsi & Hd & Hl & Hdr) _ IH];
      [constructor |].
    apply Forall_cons in Hsc as [[Hcell Hlevel] Hsc].
    apply Forall_cons in Hdriver as [[Hml Hor] Hdriver].
    constructor; [| apply IH; assumption].
    unfold compose in *. rewrite Hdr, Hl.
    split; [exact Hid |]. split; [exact Hsi |]. split; [exact Hd |].
    split; [exists (score (site s)); split; [exact Hcell | exact Hlevel] |].
    split; [exact Hml | exact Hor].
Qed.

Lemma StronglySorted_List_filter {A : Type} (R : A → A → Prop) (f : A → bool)
    (l : list A) :
  StronglySorted R l → StronglySorted R (List.filter f l).
Proof.
  induction 1 as [| x l Hs IH Hx]; simpl; [constructor |].
  destruct (f x); [| exact IH]. constructor; [exact IH |].
  rewrite Forall_forall in *. intros y Hy.
  apply list_elem_of_In, filter_In in Hy as [Hy _]. apply Hx, list_elem_of_In, Hy.
Qed.



Example sample_amplified_ranks :
  map (λ o, (st_site_id o, st_study_id o, st_global_rank o, st_within_study_rank o))
      (default [] (rank_sites sample_amplified))
  = [("B", "S2", 1, 1); ("C", "S1", 2, 1); ("D", "S2", 3, 2); ("A", "S1", 4, 2)]%nat
  ∧ map (λ o, (sr_study_id o, sr_rank o)) (default [] (rank_studies sample_dqi))
    = [("S2", 1); ("S1", 2); ("S2", 3); ("S1", 4)]%nat.
Proof. vm_compute. split; reflexivity. Qed.



(** In the table [rank_sites] returns, a site is attributed to the anomaly
    detector exactly when the input table has an [is_anomalous] column, the
    flag of the site's row is 1 and the site is "High Risk"; every other site
    is "Rule-based". *)
Theorem ml_detected_sites (df : DataFrame) (out : list SiteRank) :
  rank_sites df = Some out →
  ∃ srcs, srcs ≡ₚ rows df ∧
    Forall2 (λ o r,
               st_study_id o = study_id r ∧ st_site_id o = site_id r
               ∧ (st_risk_driver o = "ML-Detected Anomaly" ↔
                    has_column "is_anomalous" df = true
                    ∧ (∃ flag, cells r !! "is_anomalous" = Some flag ∧ flag == 1)
                    ∧ st_risk_level o = HighRisk)
               ∧ (st_risk_driver o = "ML-Detected Anomaly"
                  ∨ st_risk_driver o = "Rule-based"))
            out srcs.
Proof.
  intros H. apply rank_sites_output in H as (scores & srcs & _ & Hperm & _ & _ & _ & Hrows).
  exists srcs. split; [exact Hperm |].
  eapply Forall2_impl; [exact Hrows |]. intros o r (? & ? & _ & _ & ? & ?). auto.
Qed.

Lemma ml_detected_sites_witness :
  ∃ srcs, srcs ≡ₚ rows sample_flagged ∧
    Forall2 (λ o r,
               st_study_id o = study_id r ∧ st_site_id o = site_id r
               ∧ (st_risk_driver o = "ML-Detected Anomaly" ↔
                    has_column "is_anomalous" sample_flagged = true
                    ∧ (∃ flag, cells r !! "is_anomalous" = Some flag ∧ flag == 1)
                    ∧ st_risk_level o = HighRisk)
               ∧ (st_risk_driver o = "ML-Detected Anomaly"
                  ∨ st_risk_driver o = "Rule-based"))
            (default [] (rank_sites sample_flagged)) srcs.
Proof.
  apply (ml_detected_sites sample_flagged). vm_compute. reflexivity.
Defined.

Example sample_flagged_table :
  map (λ o, (st_site_id o, risk_label (st_risk_level o), st_risk_driver o))
      (default [] (rank_sites sample_flagged))
  = [ ("D", "High Risk", "ML-Detected Anomaly"); ("A", "High Risk", "Rule-based");
      ("B", "High Risk", "Rule-based"); ("C", "Low Risk", "Rule-based") ].
Proof. vm_compute. reflexivity. Qed.

(** On a non-empty table with a cell in every numeric column of every row,
    [rank_studies] succeeds exactly when the table has the [study_id] and
    [dqi_score] columns, and [rank_sites] exactly when it has [study_id],
    [site_id] and [dqi_score]: the amplified column alone is not enough,
    since the reported score is always [dqi_score]. *)
Theorem ranking_needs_dqi_score (df : DataFrame) :
  rectangular df → rows df ≠ [] →
  (is_Some (rank_studies df) ↔
     has_id_column "study_id" df = true ∧ has_column "dqi_score" df = true) ∧
  (is_Some (rank_sites df) ↔
     has_id_column "study_id" df = true ∧ has_id_column "site_id" df = true
     ∧ has_column "dqi_score" df = true).
Proof.
  intros Hrect _.
  assert (Hneed_studies : is_Some (rank_studies df) →
            has_id_column "study_id" df = true ∧ has_column "dqi_score" df = true).
  { unfold rank_studies. intros [out H].
    destruct (rank_studies_frame df); [| discriminate]. simpl in H.
    destruct (has_id_column "study_id" df), (has_column "dqi_score" df);
      try discriminate. auto. }
  assert (Hneed_sites : is_Some (rank_sites df) →
            has_id_column "study_id" df = true ∧ has_id_column "site_id" df = true
            ∧ has_column "dqi_score" df = true).
  { unfold rank_sites. intros [out H].
    destruct (rank_sites_frame df); [| discriminate]. simpl in H.
    destruct (has_id_column "study_id" df), (has_id_column "site_id" df),
      (has_column "dqi_score" df); try discriminate. auto. }
  split; (split; [assumption |]).
  - intros [Hid Hcol].
    destruct (rectangular_column df _ Hrect (dqi_column_present df Hcol)) as [scores Hscores].
    assert (Hcat : ∃ ranked, categorized df = Some ranked).
    { unfold categorized. rewrite Hscores. simpl. eauto. }
    destruct Hcat as [ranked Hcat].
    unfold rank_studies, rank_studies_frame. rewrite Hcat. simpl. rewrite Hid, Hcol.
    apply mapM_is_Some. rewrite Forall_forall. intros [n x] Hx. unfold compose. simpl.
    assert (Hsrc : source x ∈ rows df).
    { rewrite <- (categorized_sources _ _ Hcat).
      apply (list_elem_of_fmap_2 source).
      rewrite <- (sort_values_Permutation ranked).
      rewrite <- (with_rank_snd (sort_values ranked)).
      apply (list_elem_of_fmap_2 snd _ _ Hx). }
    destruct (rectangular_cell df _ "dqi_score" Hrect Hsrc Hcol) as [d ->]. simpl. eauto.
  - intros (Hid & Hsite & Hcol).
    destruct (rectangular_column df _ Hrect (dqi_column_present df Hcol)) as [scores Hscores].
    assert (Hcat : ∃ ranked, categorized df = Some ranked).
    { unfold categorized. rewrite Hscores. simpl. eauto. }
    destruct Hcat as [ranked Hcat].
    assert (Hmark : is_Some (mapM (mark_anomalous df) ranked)).
    { apply mapM_is_Some. rewrite Forall_forall. intros x Hx. unfold compose.
      assert (Hsrc : source x ∈ rows df).
      { rewrite <- (categorized_sources _ _ Hcat). apply (list_elem_of_fmap_2 source _ _ Hx). }
      unfold mark_anomalous.
      destruct (has_column "is_anomalous" df) eqn:Hanom; [| eauto].
      destruct (rectangular_cell df _ "is_anomalous" Hrect Hsrc Hanom) as [flag ->].
      simpl. destruct (_ && _); eauto. }
    destruct Hmark as [marked Hmark].
    assert (Hframe : rank_sites_frame df = Some (attach_ranks 1 ∅ (sort_values marked))).
    { apply rank_sites_frame_spec. split; [exact Hid |]. eauto. }
    unfold rank_sites. rewrite Hframe. simpl. rewrite Hid, Hsite, Hcol.
    apply mapM_is_Some. rewrite Forall_forall. intros s Hs. unfold compose.
    assert (Hsrc : source (site s) ∈ rows df).
    { rewrite <- (categorized_sources _ _ Hcat).
      destruct (marked_keeps _ _ _ Hmark) as [<- _].
      apply (list_elem_of_fmap_2 source).
      rewrite <- (sort_values_Permutation marked).
      rewrite <- (attach_ranks_site 1 ∅ (sort_values marked)).
      apply (list_elem_of_fmap_2 site _ _ Hs). }
    destruct (rectangular_cell df _ "dqi_score" Hrect Hsrc Hcol) as [d ->]. simpl. eauto.
Qed.

Lemma rectangular_forallb (df : DataFrame) :
  forallb (λ r, forallb (λ c, bool_decide (is_Some (cells r !! c))) (columns df))
          (rows df) = true →
  rectangular df.
Proof.
  intros H. unfold rectangular.
  rewrite Forall_forall. intros r Hr. rewrite Forall_forall. intros c Hc.
  rewrite forallb_forall in H. specialize (H r (proj1 (list_elem_of_In _ _) Hr)).
  rewrite forallb_forall in H. specialize (H c (proj1 (list_elem_of_In _ _) Hc)).
  apply bool_decide_eq_true in H. exact H.
Qed.

Lemma sample_dqi_rectangular : rectangular sample_dqi.
Proof. apply rectangular_forallb. vm_compute. reflexivity. Qed.

Lemma ranking_needs_dqi_score_witness :
  is_Some (rank_studies sample_dqi) ∧ is_Some (rank_sites sample_dqi).
Proof.
  pose proof (ranking_needs_dqi_score sample_dqi sample_dqi_rectangular
                ltac:(vm_compute; discriminate)) as [Hstudies Hsites].
  split.
  - apply (proj2 Hstudies). split; vm_compute; reflexivity.
  - apply (proj2 Hsites). repeat split; vm_compute; reflexivity.
Defined.

(** * The run without the detector *)

(** C3: without the anomaly detector the run still produces its two tables;
    the study table is the rule-based one, every site row carries
    [dqi_score_amplified] equal to [dqi_score], no site counts as anomalous
    or is attributed to the detector, and the site ranking is the one of the
    rule-based table. *)
Theorem degraded_run (study_signals site_signals study_dqi base : DataFrame) :
  compute_dqi_study_level study_signals = Some study_dqi →
  compute_dqi_site_level site_signals = Some base →
  has_column "dqi_score_amplified" site_signals = false →
  has_column "is_anomalous" site_signals = false →
  ∃ site_dqi,
    compute_dqi_main None study_signals site_signals = Some (study_dqi, site_dqi) ∧
    Forall (λ r, ∃ v, cells r !! "dqi_score" = Some v
                      ∧ cells r !! "dqi_score_amplified" = Some v) (rows site_dqi) ∧
    map (λ r, (study_id r, site_id r)) (rows site_dqi)
      = map (λ r, (study_id r, site_id r)) (rows base) ∧
    anomalous_count site_dqi = 0%nat ∧
    (∀ out, rank_sites site_dqi = Some out →
       Forall (λ o, st_risk_driver o = "Rule-based") out) ∧
    rank_sites site_dqi = rank_sites base.
Proof.
  intros Hstudy Hsite Hamp Hanom.
  destruct (aggregated_scores _ _ (or_intror Hsite)) as [vals Hvals].
  assert (Hnoamp : has_column "dqi_score_amplified" base = false).
  { rewrite (aggregated_columns _ _ _ (or_intror Hsite)), Hamp. reflexivity. }
  assert (Hnoanom : has_column "is_anomalous" base = false).
  { rewrite (aggregated_columns _ _ _ (or_intror Hsite)), Hanom. reflexivity. }
  exists (assign_column "dqi_score_amplified" vals base).
  split; [| split; [| split; [| split; [| split]]]].
  - unfold compute_dqi_main. rewrite Hstudy, Hsite. simpl. rewrite Hvals. reflexivity.
  - pose proof (degraded_rows base vals Hvals) as Hrows.
    rewrite Forall_forall. intros r Hr.
    apply list_elem_of_lookup in Hr as [i Hi].
    destruct (Forall2_lookup_l _ _ _ _ _ Hrows Hi) as (v & _ & Ha & Hd). eauto.
  - unfold assign_column. cbn [rows].
    apply column_Some in Hvals as [_ Hlen]. apply Forall2_length in Hlen.
    revert Hlen. generalize (rows base). intros rs. revert vals.
    induction rs as [| r rs IH]; intros [| v vals] Hlen; simpl in *;
      try discriminate; [reflexivity |].
    f_equal. apply IH. lia.
  - unfold anomalous_count.
    rewrite (degraded_has_column base vals) by discriminate.
    rewrite Hnoanom. reflexivity.
  - intros out Hout. apply rank_sites_rows in Hout as (sites & Hframe & Hrows).
    pose proof (degraded_rule_based base vals sites Hnoanom Hframe) as Hrule.
    clear Hframe.
    induction Hrows as [| s o sites out (_ & _ & _ & _ & _ & _ & Hdr) _ IH];
      [constructor |].
    apply Forall_cons in Hrule as [Hs Hrule].
    constructor; [rewrite Hdr; exact Hs | apply IH, Hrule].
  - apply (degraded_rank_sites base vals); assumption.
Qed.

Lemma degraded_run_witness :
  ∃ site_dqi,
    compute_dqi_main None sample_signals sample_signals = Some (sample_dqi, site_dqi) ∧
    Forall (λ r, ∃ v, cells r !! "dqi_score" = Some v
                      ∧ cells r !! "dqi_score_amplified" = Some v) (rows site_dqi) ∧
    map (λ r, (study_id r, site_id r)) (rows site_dqi)
      = map (λ r, (study_id r, site_id r)) (rows sample_dqi) ∧
    anomalous_count site_dqi = 0%nat ∧
    (∀ out, rank_sites site_dqi = Some out →
       Forall (λ o, st_risk_driver o = "Rule-based") out) ∧
    rank_sites site_dqi = rank_sites sample_dqi.
Proof.
  apply (degraded_run sample_signals sample_signals sample_dqi sample_dqi);
    vm_compute; reflexivity.
Defined.

(** * The tiers of a spread-out batch *)

(** C1: on the hundred distinct scores 1, 2, ..., 100 the categorizer marks
    the 90 lowest "High Risk", no score "Medium Risk" and the 10 highest
    "Low Risk", where its docstring promises the worst 10%, the next 15% and
    the top 75%. *)
Example hundred_scores_tiers :
  categorize_risk_with_guardrails (scores_1_to 100)
  = replicate 90 HighRisk ++ replicate 10 LowRisk.
Proof. vm_compute. reflexivity. Qed.

(** C2: for the spread-out scores 1, 2, ..., 100 the 75th percentile lies
    between the scores 75 and 76 and the 90th between 90 and 91, so [p90 < p75]
    fails, no score is above [p90] and at most [p75], and the Medium branch
    is not reached. *)
Example spread_scores_cutoffs :
  ∃ p90 p75,
    quantile (90 # 100) (scores_1_to 100) = Some p90 ∧ 90 < p90 < 91 ∧
    quantile (75 # 100) (scores_1_to 100) = Some p75 ∧ 75 < p75 < 76 ∧
    ¬ p90 < p75 ∧
    count_risk MediumRisk (categorize_risk_with_guardrails (scores_1_to 100)) = 0%nat.
Proof.
  eexists _, _. split; [vm_compute; reflexivity |].
  split; [split; reflexivity |].
  split; [vm_compute; reflexivity |].
  split; [split; reflexivity |].
  split; [intros H; vm_compute in H; discriminate | vm_compute; reflexivity].
Qed.

(** * Rounding to binary64 *)

Lemma pow2_pos (e : Z) : 0 < 2 ^ e.
Proof. apply Qpower_0_lt. reflexivity. Qed.

Lemma pow2_add (a b : Z) : 2 ^ (a + b) == 2 ^ a * 2 ^ b.
Proof. apply Qpower_plus. discriminate. Qed.

Lemma pow2_log2_le (n : Z) : (0 < n)%Z → 2 ^ Z.log2 n <= inject_Z n.
Proof.
  intros Hn. rewrite <- (Zpower_Qpower 2 (Z.log2 n)) by apply Z.log2_nonneg.
  rewrite <- Zle_Qle. apply Z.log2_spec, Hn.
Qed.

Lemma pow2_log2_gt (n : Z) : (0 < n)%Z → inject_Z n < 2 ^ (Z.log2 n + 1).
Proof.
  intros Hn.
  rewrite <- (Zpower_Qpower 2 (Z.log2 n + 1)) by (pose proof (Z.log2_nonneg n); lia).
  rewrite <- Zlt_Qlt. apply Z.log2_spec, Hn.
Qed.

(** The scale chosen by [fl] leaves at least 52 binary digits before the
    point. *)
Lemma fl_scale (x : Q) :
  ¬ x == 0 →
  let a := (Z.log2 (Z.abs (Qnum x)) - Z.log2 (Z.pos (Qden x)))%Z in
  2 ^ (a - 1) <= Qabs x.
Proof.
  intros Hx a.
  assert (Hnum : (0 < Z.abs (Qnum x))%Z).
  { destruct x as [n d]. unfold Qeq in Hx. simpl in *. lia. }
  pose proof (pow2_log2_le _ Hnum) as Hn.
  pose proof (pow2_log2_gt (Z.pos (Qden x)) ltac:(lia)) as Hd.
  assert (Habs : Qabs x == inject_Z (Z.abs (Qnum x)) / inject_Z (Z.pos (Qden x))).
  { destruct x as [n d]. simpl. apply Qmake_Qdiv. }
  rewrite Habs.
  replace (a - 1)%Z with (Z.log2 (Z.abs (Qnum x)) - (Z.log2 (Z.pos (Qden x)) + 1))%Z
    by (subst a; lia).
  rewrite Qpower_minus by discriminate.
  set (A := 2 ^ Z.log2 (Z.abs (Qnum x))) in *.
  set (B := 2 ^ (Z.log2 (Z.pos (Qden x)) + 1)) in *.
  set (N := inject_Z (Z.abs (Qnum x))) in *.
  set (D := inject_Z (Z.pos (Qden x))) in *.
  assert (HD : 0 < D) by (subst D; rewrite <- (Zlt_Qlt 0); lia).
  assert (HB : 0 < B) by apply pow2_pos.
  assert (HA : 0 < A) by apply pow2_pos.
  apply Qle_shift_div_r; [exact HB |].
  assert (E : D * (N / D) == N) by (field; lra).
  assert (HND : 0 <= N / D) by (apply Qle_shift_div_l; lra).
  assert (HDB : D * (N / D) <= B * (N / D)) by (apply Qmult_le_compat_r; lra).
  rewrite E in HDB. rewrite (Qmult_comm (N / D) B). lra.
Qed.

Lemma fl_error (x : Q) : Qabs (fl x - x) <= unit_roundoff * Qabs x.
Proof.
  unfold fl. destruct (Qeq_bool x 0) eqn:E0.
  - apply Qeq_bool_iff in E0. rewrite E0. vm_compute. discriminate.
  - assert (Hx : ¬ x == 0) by (intros H; apply Qeq_bool_iff in H; congruence).
    cbv zeta.
    set (a := (Z.log2 (Z.abs (Qnum x)) - Z.log2 (Z.pos (Qden x)))%Z).
    set (e := if Qle_bool (2 ^ a) (Qabs x) then (a - 52)%Z else (a - 53)%Z).
    assert (Hscale : 4503599627370496 * 2 ^ e <= Qabs x).
    { change (4503599627370496 : Q) with (2 ^ 52).
      rewrite <- pow2_add. subst e.
      destruct (Qle_bool (2 ^ a) (Qabs x)) eqn:Ea.
      - apply Qle_bool_iff in Ea. replace (52 + (a - 52))%Z with a by lia. exact Ea.
      - replace (52 + (a - 53))%Z with (a - 1)%Z by lia. apply (fl_scale x Hx). }
    pose proof (pow2_pos e) as Hp. set (p := 2 ^ e) in *.
    destruct (rint_spec (x / p)) as (H1 & H2 & _).
    set (k := inject_Z (rint (x / p))) in *.
    assert (Hy : x / p * p == x) by (field; lra).
    assert (A1 : (k - x / p) * p <= (1 # 2) * p) by (apply Qmult_le_compat_r; lra).
    assert (A2 : (x / p - k) * p <= (1 # 2) * p) by (apply Qmult_le_compat_r; lra).
    set (y := x / p) in *.
    assert (B1 : k * p - x <= (1 # 2) * p) by (rewrite <- Hy; lra).
    assert (B2 : x - k * p <= (1 # 2) * p) by (rewrite <- Hy; lra).
    unfold unit_roundoff.
    apply Qabs_Qle_condition. split; lra.
Qed.

(** What [fl] does to a number of known magnitude. *)
Lemma fl_close (x B : Q) :
  - B <= x <= B →
  x - unit_roundoff * B <= fl x ∧ fl x <= x + unit_roundoff * B.
Proof.
  intros Hx. pose proof (fl_error x) as He.
  apply Qabs_Qle_condition in He. apply Qabs_Qle_condition in Hx.
  assert (Hu : unit_roundoff * Qabs x <= unit_roundoff * B).
  { apply Qmult_le_l; [reflexivity | exact Hx]. }
  lra.
Qed.

Lemma fl_nonneg (x : Q) : 0 <= x → 0 <= fl x.
Proof.
  intros Hx. pose proof (fl_error x) as He.
  rewrite (Qabs_pos x Hx) in He. apply Qabs_Qle_condition in He.
  unfold unit_roundoff in He. lra.
Qed.

(** * The balance of a record in double precision *)

Lemma normalize_double_range (s t : Q) :
  0 < t →
  0 <= normalize_signal_vs_threshold_double s t
  ∧ normalize_signal_vs_threshold_double s t <= 100.
Proof.
  intros Ht. unfold normalize_signal_vs_threshold_double.
  destruct (Qle_bool s t) eqn:E; [split; lra |].
  assert (Hst : t < s).
  { apply Qnot_le_lt. intros H. apply Qle_bool_iff in H. congruence. }
  split; [| apply Q.le_min_r].
  apply Q.min_glb; [| lra].
  apply fl_nonneg. apply Qmult_le_0_compat; [| lra].
  apply fl_nonneg. apply Qle_shift_div_l; [exact Ht |].
  pose proof (fl_nonneg (s - t) ltac:(lra)). lra.
Qed.

(** [np.round(x, 2)] on doubles moves [x] by half a hundredth at most, up
    to the roundoff of its three operations. *)
Lemma round2_double_close (x B : Q) :
  0 <= B <= 1000 → - B <= x <= B →
  x - ((1 # 200) + unit_roundoff * (2 * B + 1)) <= round2_double x
  ∧ round2_double x <= x + ((1 # 200) + unit_roundoff * (2 * B + 1)).
Proof.
  intros HB Hx. unfold round2_double.
  pose proof (fl_close (x * 100) (100 * B) ltac:(split; lra)) as Hy.
  set (y := fl (x * 100)) in *.
  destruct (rint_spec y) as (K1 & K2 & _).
  set (k := inject_Z (rint y)) in *.
  unfold Qdiv. change (/ 100) with (1 # 100).
  unfold unit_roundoff in *.
  pose proof (fl_close (k * (1 # 100)) (B + 1)
                ltac:(unfold unit_roundoff; split; lra)) as Hr.
  unfold unit_roundoff in Hr. lra.
Qed.

Lemma scaled_between (n c lo hi : Q) :
  0 <= n → lo <= c <= hi → n * lo <= n * c ∧ n * c <= n * hi.
Proof.
  intros Hn [Hlo Hhi].
  pose proof (Qmult_le_compat_r lo c n Hlo Hn).
  pose proof (Qmult_le_compat_r c hi n Hhi Hn).
  rewrite !(Qmult_comm n). split; assumption.
Qed.

Lemma share_close (n w : Q) :
  0 <= n <= 100 → 0 <= w <= 25 →
  let share := fl (n * fl (w * (1 # 77))) in
  n * w * (1 # 77) - unit_roundoff * 134 <= share
  ∧ share <= n * w * (1 # 77) + unit_roundoff * 134
  ∧ - 34 <= share <= 34.
Proof.
  intros Hn Hw share. subst share.
  pose proof (fl_close (w * (1 # 77)) 1 ltac:(split; lra)) as Hc.
  set (c := fl (w * (1 # 77))) in *.
  unfold unit_roundoff in *.
  destruct (scaled_between n c _ _ (proj1 Hn) Hc) as [L1 L2].
  assert (L3 : n * (w * (1 # 77) - (1 # 9007199254740992) * 1)
               == n * w * (1 # 77) - n * (1 # 9007199254740992)) by ring.
  assert (L4 : n * (w * (1 # 77) + (1 # 9007199254740992) * 1)
               == n * w * (1 # 77) + n * (1 # 9007199254740992)) by ring.
  rewrite L3 in L1. rewrite L4 in L2.
  assert (L5 : 0 <= n * w) by (apply Qmult_le_0_compat; lra).
  assert (L6 : n * w <= 100 * 25).
  { apply Qle_trans with (n * 25).
    - rewrite !(Qmult_comm n). apply Qmult_le_compat_r; lra.
    - lra. }
  pose proof (fl_close (n * c) 33 ltac:(split; lra)) as Hs.
  unfold unit_roundoff in Hs. repeat split; lra.
Qed.

(** The six values stored for a record, from its five normalised signals. *)
Lemma double_balance (n1 n2 n3 n4 n5 : Q) :
  0 <= n1 <= 100 → 0 <= n2 <= 100 → 0 <= n3 <= 100 → 0 <= n4 <= 100 →
  0 <= n5 <= 100 →
  let weighted_penalty :=
    fl (fl (fl (fl (fl (fl (n1 * W_pages) + fl (n2 * W_visits)) + fl (n3 * W_edrr))
                + fl (n4 * W_codes))
            + fl (n5 * W_sae))
        / total_weight) in
  Qabs (round2_double (fl (100 - weighted_penalty))
        + round2_double (fl (n1 * fl (W_pages / total_weight)))
        + round2_double (fl (n2 * fl (W_visits / total_weight)))
        + round2_double (fl (n3 * fl (W_edrr / total_weight)))
        + round2_double (fl (n4 * fl (W_codes / total_weight)))
        + round2_double (fl (n5 * fl (W_sae / total_weight)))
        - 100)
  <= (3 # 100) + (1 # 1000000000000).
Proof.
  intros H1 H2 H3 H4 H5.
  unfold W_pages, W_visits, W_edrr, W_codes, W_sae, Qdiv.
  change (/ total_weight) with (1 # 77).
  destruct (share_close n1 10 H1 ltac:(split; lra)) as (P1 & P1' & P1b).
  destruct (share_close n2 15 H2 ltac:(split; lra)) as (P2 & P2' & P2b).
  destruct (share_close n3 15 H3 ltac:(split; lra)) as (P3 & P3' & P3b).
  destruct (share_close n4 12 H4 ltac:(split; lra)) as (P4 & P4' & P4b).
  destruct (share_close n5 25 H5 ltac:(split; lra)) as (P5 & P5' & P5b).
  cbv zeta in *.
  set (q1 := fl (n1 * fl (10 * (1 # 77)))) in *.
  set (q2 := fl (n2 * fl (15 * (1 # 77)))) in *.
  set (q3 := fl (n3 * fl (15 * (1 # 77)))) in *.
  set (q4 := fl (n4 * fl (12 * (1 # 77)))) in *.
  set (q5 := fl (n5 * fl (25 * (1 # 77)))) in *.
  pose proof (round2_double_close q1 34 ltac:(split; lra) P1b) as R1.
  pose proof (round2_double_close q2 34 ltac:(split; lra) P2b) as R2.
  pose proof (round2_double_close q3 34 ltac:(split; lra) P3b) as R3.
  pose proof (round2_double_close q4 34 ltac:(split; lra) P4b) as R4.
  pose proof (round2_double_close q5 34 ltac:(split; lra) P5b) as R5.
  set (r1 := round2_double q1) in *. set (r2 := round2_double q2) in *.
  set (r3 := round2_double q3) in *. set (r4 := round2_double q4) in *.
  set (r5 := round2_double q5) in *.
  unfold unit_roundoff in *.
  pose proof (fl_close (n1 * 10) 1000 ltac:(split; lra)) as A1.
  pose proof (fl_close (n2 * 15) 1500 ltac:(split; lra)) as A2.
  pose proof (fl_close (n3 * 15) 1500 ltac:(split; lra)) as A3.
  pose proof (fl_close (n4 * 12) 1200 ltac:(split; lra)) as A4.
  pose proof (fl_close (n5 * 25) 2500 ltac:(split; lra)) as A5.
  set (a1 := fl (n1 * 10)) in *. set (a2 := fl (n2 * 15)) in *.
  set (a3 := fl (n3 * 15)) in *. set (a4 := fl (n4 * 12)) in *.
  set (a5 := fl (n5 * 25)) in *.
  unfold unit_roundoff in *.
  pose proof (fl_close (a1 + a2) 2501 ltac:(split; lra)) as S2.
  set (s2 := fl (a1 + a2)) in *. unfold unit_roundoff in *.
  pose proof (fl_close (s2 + a3) 4002 ltac:(split; lra)) as S3.
  set (s3 := fl (s2 + a3)) in *. unfold unit_roundoff in *.
  pose proof (fl_close (s3 + a4) 5203 ltac:(split; lra)) as S4.
  set (s4 := fl (s3 + a4)) in *. unfold unit_roundoff in *.
  pose proof (fl_close (s4 + a5) 7704 ltac:(split; lra)) as S5.
  set (s5 := fl (s4 + a5)) in *. unfold unit_roundoff in *.
  pose proof (fl_close (s5 * (1 # 77)) 101 ltac:(split; lra)) as Hwp.
  set (wp := fl (s5 * (1 # 77))) in *. unfold unit_roundoff in *.
  pose proof (fl_close (100 - wp) 101 ltac:(split; lra)) as Hd.
  set (d := fl (100 - wp)) in *. unfold unit_roundoff in *.
  pose proof (round2_double_close d 102 ltac:(split; lra) ltac:(split; lra)) as R0.
  set (r0 := round2_double d) in *. unfold unit_roundoff in *.
  apply Qabs_Qle_condition. split; lra.
Qed.

Lemma compute_dqi_row_double_cells (r r' : Row) :
  compute_dqi_row_double r = Some r' →
  ∃ total, dqi_balance r' = Some total
           ∧ Qabs (total - 100) <= (3 # 100) + (1 # 1000000000000).
Proof.
  unfold compute_dqi_row_double, normalized_signals_double. intros H.
  destruct (cells r !! "missing_pages_pct") as [x1 |]; [| discriminate].
  destruct (cells r !! "missing_visits_pct") as [x2 |]; [| discriminate].
  destruct (cells r !! "unresolved_edrr_pct") as [x3 |]; [| discriminate].
  destruct (cells r !! "uncoded_terms_pct") as [x4 |]; [| discriminate].
  destruct (cells r !! "pending_sae_pct") as [x5 |]; [| discriminate].
  rewrite threshold_pages, threshold_visits, threshold_edrr, threshold_codes,
    threshold_sae in H.
  simpl in H. injection H as <-.
  unfold dqi_balance, set_cell. cbn [cells].
  repeat (rewrite lookup_insert_eq
          || (rewrite lookup_insert_ne by discriminate)).
  simpl. eexists. split; [reflexivity |].
  apply double_balance; apply normalize_double_range; reflexivity.
Qed.

(** C4, amended: in every record produced by either aggregator, computed in
    double precision as the source computes it, the rounded score and the
    five rounded penalties add up to 100 within 0.03, up to the
    representation error of the six doubles (below 1e-12). *)
Theorem dqi_score_plus_penalties_double (df out : DataFrame) (i : nat) (r' : Row) :
  compute_dqi_study_level_double df = Some out
  ∨ compute_dqi_site_level_double df = Some out →
  rows out !! i = Some r' →
  ∃ total, dqi_balance r' = Some total
           ∧ Qabs (total - 100) <= (3 # 100) + (1 # 1000000000000).
Proof.
  intros Hout Hi.
  assert (Hrows : ∃ rs, mapM compute_dqi_row_double (rows df) = Some rs ∧ rows out = rs).
  { unfold compute_dqi_study_level_double, compute_dqi_site_level_double in Hout.
    destruct Hout as [H | H];
      (destruct (forallb _ _); [| discriminate];
       destruct (mapM compute_dqi_row_double (rows df)) as [rs |]; [| discriminate];
       simpl in H; injection H as <-; eauto). }
  destruct Hrows as (rs & Hm & Hrs). rewrite Hrs in Hi.
  apply mapM_Some in Hm.
  destruct (Forall2_lookup_r _ _ _ _ _ Hm Hi) as (r & _ & Hrow).
  apply (compute_dqi_row_double_cells r r' Hrow).
Qed.

Lemma dqi_score_plus_penalties_double_witness :
  ∃ total, dqi_balance (sample_record
                          (default (mkFrame [] [] [])
                                   (compute_dqi_study_level_double sample_signals)) 1)
             = Some total
           ∧ Qabs (total - 100) <= (3 # 100) + (1 # 1000000000000).
Proof.
  apply (dqi_score_plus_penalties_double sample_signals
           (default (mkFrame [] [] []) (compute_dqi_study_level_double sample_signals)) 1).
  - left. vm_compute. reflexivity.
  - vm_compute. reflexivity.
Defined.

(** In double precision the tolerance of 0.02 does not hold: the record
    computed for [sample_ties] is 97.34 with penalties 0.01, 0.01, 1.87,
    0.58 and 0.16, which add up to 99.97. *)
Lemma dqi_score_plus_penalties_double_off :
  compute_dqi_study_level_double sample_ties = Some sample_ties_dqi ∧
  map (λ c, cells (sample_record sample_ties_dqi 0) !! c) ("dqi_score" :: penalty_columns)
  = map (λ v, Some (fl v))
        [9734 # 100; 1 # 100; 1 # 100; 187 # 100; 58 # 100; 16 # 100] ∧
  ∃ total, dqi_balance (sample_record sample_ties_dqi 0) = Some total
           ∧ ¬ Qabs (total - 100) <= 2 # 100.
Proof.
  split; [vm_compute; reflexivity |]. split; [vm_compute; reflexivity |].
  eexists. split; [vm_compute; reflexivity |].
  intros H. apply Qabs_Qle_condition in H as [H _]. vm_compute in H. apply H. reflexivity.
Qed.

(** * The recommendation texts *)

(** The attributor called with [top_n = 2] returns a sublist of two
    different labels. *)
Lemma top_two_drivers (row : gmap string Q) :
  ∃ a b, a ∈ driver_labels ∧ b ∈ driver_labels ∧ a ≠ b ∧
         identify_top_penalty_drivers row 2 ∈ [[]; [a]; [b]; [a; b]].
Proof.
  pose proof (sorted_penalties_labels row) as Hperm.
  pose proof driver_labels_NoDup as Hnd. rewrite <- Hperm in Hnd.
  pose proof (Permutation_length Hperm) as Hlen.
  unfold identify_top_penalty_drivers.
  rewrite slice_to_nonneg by lia. change (Z.to_nat 2) with 2%nat.
  destruct (sorted_penalties row) as [| [la va] [| [lb vb] rest]];
    [discriminate Hlen | discriminate Hlen |].
  exists la, lb.
  split; [rewrite <- Hperm; rewrite !fmap_cons, !elem_of_cons; tauto |].
  split; [rewrite <- Hperm; rewrite !fmap_cons, !elem_of_cons; tauto |].
  split.
  - rewrite !fmap_cons in Hnd. apply NoDup_cons in Hnd as [Hnotin _].
    simpl in Hnotin. rewrite elem_of_cons in Hnotin. tauto.
  - cbn [take List.filter]. cbn [snd].
    destruct (positive va), (positive vb); cbn [map fst];
      rewrite !elem_of_cons; tauto.
Qed.

(** The guidance section has exactly one line for each driver the ranking
    reports, in the fixed order visits, queries, coding, SAE, pages: no
    driver label triggers the line of another one. *)
Theorem guidance_matches_drivers (r : Row) :
  specific_guidance (drivers_text r)
  = String.concat EmptyString
      (map snd (List.filter
                  (λ g : string * string,
                     bool_decide (g.1 ∈ identify_top_penalty_drivers (cells r) 2))
                  guidance_lines)).
Proof.
  unfold drivers_text.
  destruct (top_two_drivers (cells r)) as (a & b & Ha & Hb & Hab & Hin).
  revert Hin. generalize (identify_top_penalty_drivers (cells r) 2). intros l Hin.
  unfold driver_labels in Ha, Hb.
  rewrite !elem_of_cons, elem_of_nil in Ha. rewrite !elem_of_cons, elem_of_nil in Hb.
  rewrite !elem_of_cons, elem_of_nil in Hin.
  destruct Ha as [-> | [-> | [-> | [-> | [-> | []]]]]];
    destruct Hb as [-> | [-> | [-> | [-> | [-> | []]]]]];
    try congruence;
    destruct Hin as [-> | [-> | [-> | [-> | []]]]];
    vm_compute; reflexivity.
Qed.

Lemma prefix_append (x a b : string) :
  String.prefix x a = true → String.prefix x (a +:+ b) = true.
Proof.
  revert a. induction x as [| c x IH]; intros a H; [destruct (a +:+ b); reflexivity |].
  destruct a as [| d a]; simpl in H; [discriminate |].
  simpl. destruct (Ascii.ascii_dec c d); [apply IH, H | discriminate].
Qed.

Lemma prefix_self_append (x b : string) : String.prefix x (x +:+ b) = true.
Proof.
  induction x as [| c x IH]; simpl; [destruct b; reflexivity |].
  destruct (Ascii.ascii_dec c c); [exact IH | congruence].
Qed.

Lemma substring_in_append_l (x a b : string) :
  substring_in x a = true → substring_in x (a +:+ b) = true.
Proof.
  induction a as [| c a IH]; intros H.
  - cbn [substring_in] in H. rewrite orb_false_r in H.
    destruct x; [destruct b; reflexivity | discriminate].
  - cbn [substring_in] in H. apply orb_true_iff in H as [H | H].
    + change (String c a +:+ b) with (String c (a +:+ b)).
      cbn [substring_in]. apply orb_true_iff. left.
      apply (prefix_append x (String c a) b H).
    + change (String c a +:+ b) with (String c (a +:+ b)).
      cbn [substring_in]. apply orb_true_iff. right. apply IH, H.
Qed.

Lemma substring_in_append_r (x a b : string) :
  substring_in x b = true → substring_in x (a +:+ b) = true.
Proof.
  intros H. induction a as [| c a IH]; [exact H |].
  change (String c a +:+ b) with (String c (a +:+ b)).
  cbn [substring_in]. apply orb_true_iff. right. exact IH.
Qed.

Lemma substring_in_here (x a b : string) : substring_in x (a +:+ x +:+ b) = true.
Proof.
  apply substring_in_append_r.
  destruct (x +:+ b) eqn:E; cbn [substring_in]; rewrite <- E, prefix_self_append;
    reflexivity.
Qed.

Lemma append_assoc (a b c : string) : (a +:+ b) +:+ c = a +:+ b +:+ c.
Proof.
  induction a as [| x a IH]; [reflexivity |].
  change (String x ((a +:+ b) +:+ c) = String x (a +:+ b +:+ c)).
  rewrite IH. reflexivity.
Qed.

Lemma prefix_refl (x : string) : String.prefix x x = true.
Proof.
  induction x as [| c x IH]; simpl; [reflexivity |].
  destruct (Ascii.ascii_dec c c); [exact IH | congruence].
Qed.

Lemma substring_in_prefix (x s : string) :
  String.prefix x s = true → substring_in x s = true.
Proof. intros H. destruct s; cbn [substring_in]; rewrite H; reflexivity. Qed.

Lemma substring_in_foldl {A : Type} (x : string) (f : string → A → string)
    (l : list A) (init : string) :
  (∀ s a, substring_in x s = true → substring_in x (f s a) = true) →
  substring_in x init = true → substring_in x (foldl f init l) = true.
Proof.
  intros Hf. revert init. induction l as [| a l IH]; intros init H; simpl; auto.
Qed.

Lemma concat_drivers_empty (l : list string) :
  l ⊆ driver_labels → (String.concat ", " l = EmptyString ↔ l = []).
Proof.
  intros Hsub. split; [| intros ->; reflexivity].
  destruct l as [| a l]; [reflexivity |]. intros H. exfalso.
  assert (Ha : a ∈ driver_labels) by (apply Hsub; left).
  unfold driver_labels in Ha. rewrite !elem_of_cons, elem_of_nil in Ha.
  destruct l as [| b l]; simpl in H;
    destruct Ha as [-> | [-> | [-> | [-> | [-> | []]]]]]; discriminate.
Qed.

Lemma clean_row_no_drivers (r r' : Row) (top_n : Z) :
  compute_dqi_row r = Some r' → within_thresholds r = true →
  identify_top_penalty_drivers (cells r') top_n = [].
Proof.
  intros Hrow Hw.
  destruct (scored_penalties _ _ Hrow)
    as (x1 & x2 & x3 & x4 & x5 & C1 & C2 & C3 & C4 & C5 & Hpen).
  unfold within_thresholds, signal_columns in Hw. simpl in Hw.
  rewrite C1, C2, C3, C4, C5, threshold_pages, threshold_visits, threshold_edrr,
    threshold_codes, threshold_sae in Hw.
  rewrite !andb_true_iff, !Qle_bool_iff in Hw.
  destruct Hw as (L1 & L2 & L3 & L4 & L5 & _).
  rewrite !normalize_below in Hpen by assumption.
  apply elem_of_nil_inv. intros label Hl.
  apply driver_entry in Hl as ([l v] & _ & Hin & Hpos). rewrite Hpen in Hin.
  rewrite !elem_of_cons, elem_of_nil in Hin.
  destruct Hin as [E | [E | [E | [E | [E | []]]]]]; injection E as _ ->;
    vm_compute in Hpos; discriminate.
Qed.

(** A study whose signals are all within their thresholds has no driver, and
    its recommendation, written from the empty driver text the ranking
    computes for it, names "Multiple issues" as its top risk drivers and asks
    for an immediate review, whatever its score and tier. *)
Theorem clean_study_recommendation (df out : DataFrame) (i : nat) (r r' : Row)
    (study_id : string) (lvl : RiskLevel) (dqi_score : Q)
    (signals_dict : list (string * Q)) :
  compute_dqi_study_level df = Some out ∨ compute_dqi_site_level df = Some out →
  rows df !! i = Some r → rows out !! i = Some r' →
  within_thresholds r = true →
  drivers_text r' = EmptyString ∧
  substring_in "Top Risk Drivers: Multiple issues"
    (generate_study_recommendation study_id dqi_score (risk_label lvl) (drivers_text r')
       signals_dict) = true ∧
  substring_in (study_id +:+ " is " +:+ lower (risk_label lvl)
                +:+ " — review immediately.")
    (generate_study_recommendation study_id dqi_score (risk_label lvl) (drivers_text r')
       signals_dict) = true.
Proof.
  intros H Hr Hr' Hw.
  destruct (scored_row _ _ _ _ H Hr') as (r0 & Hr0 & Hrow).
  assert (r0 = r) as -> by congruence.
  assert (Hnone : drivers_text r' = EmptyString).
  { unfold drivers_text. rewrite (clean_row_no_drivers _ _ 2 Hrow Hw). reflexivity. }
  rewrite Hnone. split; [reflexivity |].
  unfold generate_study_recommendation.
  change (specific_guidance EmptyString) with EmptyString.
  unfold problem. rewrite !bool_decide_eq_true_2 by reflexivity.
  assert (Hkeep : ∀ x s (item : string * Q),
            substring_in x s = true →
            substring_in x (if positive item.2
                            then s +:+ nl +:+ "  • " +:+ item.1 +:+ ": "
                                   +:+ pretty (int_of item.2)
                            else s) = true).
  { intros x s item Hs. destruct (positive item.2); [| exact Hs].
    apply substring_in_append_l, Hs. }
  split.
  - apply substring_in_foldl; [intros; apply Hkeep; assumption |].
    apply substring_in_append_l.
    apply substring_in_foldl; [intros; apply substring_in_append_l; assumption |].
    do 2 apply substring_in_append_l.
    apply substring_in_append_r, substring_in_append_r.
    reflexivity.
  - apply substring_in_foldl; [intros; apply Hkeep; assumption |].
    apply substring_in_append_l.
    apply substring_in_foldl; [intros; apply substring_in_append_l; assumption |].
    apply substring_in_append_l.
    do 6 apply substring_in_append_r.
    apply substring_in_prefix.
    rewrite !append_assoc.
    change (" — review immediately" +:+ ".") with " — review immediately.".
    apply prefix_refl.
Qed.

Lemma clean_study_recommendation_witness :
  drivers_text (sample_record sample_dqi 2) = EmptyString ∧
  substring_in "Top Risk Drivers: Multiple issues"
    (generate_study_recommendation "S1" 100 (risk_label HighRisk)
       (drivers_text (sample_record sample_dqi 2)) []) = true ∧
  substring_in ("S1" +:+ " is " +:+ lower (risk_label HighRisk)
                +:+ " — review immediately.")
    (generate_study_recommendation "S1" 100 (risk_label HighRisk)
       (drivers_text (sample_record sample_dqi 2)) []) = true.
Proof.
  apply (clean_study_recommendation sample_signals sample_dqi 2
           (sample_record sample_signals 2) (sample_record sample_dqi 2)
           "S1" HighRisk 100 []).
  - left. vm_compute. reflexivity.
  - vm_compute. reflexivity.
  - vm_compute. reflexivity.
  - vm_compute. reflexivity.
Defined.
